(** * imagemeta: the JPEG marker scanner and the Exif entry points

    A shallow embedding of the Go sources
      - package [jpeg]  (the marker scanner [ScanJPEG] and its sub-readers,
        in two revisions),
      - package [exif]  ([ParseExif], [Data.ParseIfd], [Data.GetTag],
        [Data.GetTagValue]),
      - package [jpegmeta]  (the sub-readers of an older scanner, which
        store what they find),
    together with the small part of [encoding/binary], [bufio] and of the
    repository's [meta], [ifds] and [tag] packages that these functions use,
    and the scanner once more as scripts ([script], [counted]), to follow
    how far its buffered reader reads into the caller's stream.

    Conventions.
      - A Go [byte] is a [Byte.byte]; its numeric value is [b2z].
      - Go integers are [Z]; a [uint8], [uint16] or [uint32] result is
        wrapped explicitly ([wrap8], [wrap16], [wrap32]).
      - A Go [error] result is an [option error] ([None] is [nil]).
      - A Go function that can panic returns a [res]; a method of
        [*jpegReader] is a state transformer over [jpegReader]. *)

From Stdlib Require Import ZArith Lia String.
From Stdlib.Strings Require Import Byte.
From stdpp Require Import base list gmap strings.

Local Open Scope Z_scope.

(** ** Bytes and fixed-width integers *)

Definition b2z (b : byte) : Z := Z.of_N (Byte.to_N b).

Definition wrap8 (z : Z) : Z := z mod 256.
Definition wrap16 (z : Z) : Z := z mod 65536.
Definition wrap32 (z : Z) : Z := z mod 4294967296.

#[global] Instance byte_eq_decision : EqDecision byte := Byte.byte_eq_dec.

#[global] Instance byte_countable : Countable byte :=
  inj_countable Byte.to_N Byte.of_N Byte.of_to_N.

(** A Go string constant, as the bytes it holds. *)
Definition bytes (s : string) : list byte := list_byte_of_string s.

(** ** Errors, panics and results *)

(** Go error values are compared by identity.  The named ones are the
    package-level variables of the sources and of the two library packages
    the scanner calls; [RuntimeError] is a [runtime.Error] (the value of a
    panic raised by an index, a slice bound or a nil dereference);
    [ErrCustom] stands for any other error value: the one the caller's
    stream fails with, or one a callback returns. *)
Inductive error : Type :=
| ErrNoJPEGMarker
| ErrEndOfImage
| ErrNoExif
| ErrInvalidHeader
| ErrEmptyTag
| ErrNegativeCount
| ErrBufferFull
| EOF
| RuntimeError (msg : string)
| ErrCustom (id : nat).

#[global] Instance error_eq_decision : EqDecision error.
Proof. solve_decision. Defined.

(** The value carried by a panic: an error value, or anything else
    ([panic("text")], [panic(42)], ...). *)
Inductive panicValue : Type :=
| PanicError (e : error)
| PanicOther (v : string).

Inductive res (A : Type) : Type :=
| Ok (a : A)
| Panic (v : panicValue).
Arguments Ok {A} a.
Arguments Panic {A} v.

Definition res_bind {A B} (r : res A) (f : A -> res B) : res B :=
  match r with
  | Ok a => f a
  | Panic v => Panic v
  end.

Definition indexOutOfRange : panicValue :=
  PanicError (RuntimeError "index out of range").
Definition sliceOutOfRange : panicValue :=
  PanicError (RuntimeError "slice bounds out of range").
Definition nilDereference : panicValue :=
  PanicError (RuntimeError "invalid memory address or nil pointer dereference").

(** ** Slices

    A Go [[]byte] has a length and a capacity.  [vis] holds the [len]
    elements; [spare] holds what the backing array has behind them, up to the
    capacity.  [b[i]] is checked against the length, [b[lo:hi]] against the
    capacity, so a slice expression can reach into [spare]. *)
Record slice : Type := mkSlice { vis : list byte; spare : list byte }.

Definition ofBytes (l : list byte) : slice := mkSlice l [].

Definition index (b : slice) (i : nat) : res byte :=
  match vis b !! i with
  | Some x => Ok x
  | None => Panic indexOutOfRange
  end.

Definition reslice (b : slice) (lo hi : nat) : res slice :=
  let whole := (vis b ++ spare b)%list in
  if decide (lo ≤ hi ∧ hi ≤ length whole)%nat
  then Ok (mkSlice (take (hi - lo) (drop lo whole)) (drop hi whole))
  else Panic sliceOutOfRange.

(** [string(b[lo:hi])]. *)
Definition substring (b : slice) (lo hi : nat) : res (list byte) :=
  res_bind (reslice b lo hi) (fun s => Ok (vis s)).

(** ** encoding/binary *)
Module binary.

Inductive ByteOrder : Type := BigEndian | LittleEndian.

#[global] Instance ByteOrder_eq_decision : EqDecision ByteOrder.
Proof. solve_decision. Defined.

(** [Uint16] and [Uint32] start with a bounds check on the last byte they
    read ([_ = b[1]], [_ = b[3]]). *)
Definition Uint16 (o : ByteOrder) (b : slice) : res Z :=
  match vis b with
  | b0 :: b1 :: _ =>
      Ok match o with
         | BigEndian => b2z b1 + b2z b0 * 256
         | LittleEndian => b2z b0 + b2z b1 * 256
         end
  | _ => Panic indexOutOfRange
  end.

Definition Uint32 (o : ByteOrder) (b : slice) : res Z :=
  match vis b with
  | b0 :: b1 :: b2 :: b3 :: _ =>
      Ok match o with
         | BigEndian =>
             b2z b3 + b2z b2 * 256 + b2z b1 * 65536 + b2z b0 * 16777216
         | LittleEndian =>
             b2z b0 + b2z b1 * 256 + b2z b2 * 65536 + b2z b3 * 16777216
         end
  | _ => Panic indexOutOfRange
  end.

End binary.

(** ** bufio.Reader over the caller's stream

    The stream is a finite run of bytes after which the underlying reader
    fails, every time it is asked, with [rerr] ([EOF] for a stream that
    simply ends, any other value for an I/O failure).  [off] counts the
    bytes consumed so far.

    [Peek] returns a slice of the reader's internal buffer, so its capacity
    reaches to the end of that buffer.  What lies there depends on how the
    buffer was filled; the model leaves it open: [slack off n] is what lies
    behind a window of [n] bytes peeked at offset [off]. *)
Module bufio.

Record Reader : Type := mkReader {
  off : nat;
  rest : list byte;
  rerr : error;
  slack : nat -> nat -> list byte
}.

Definition advance (k : nat) (r : Reader) : Reader :=
  mkReader (off r + k) (drop k (rest r)) (rerr r) (slack r).

(** [Peek(n)]: the next [n] bytes without advancing; with fewer than [n]
    left, what is left and the reader's error.  The scanner asks for 16
    and for 8 bytes, never more than the smallest buffer bufio makes, so
    [ErrBufferFull] does not arise. *)
Definition Peek (r : Reader) (n : nat) : slice * option error :=
  if decide (n ≤ length (rest r))%nat
  then (mkSlice (take n (rest r)) (slack r (off r) n), None)
  else (mkSlice (rest r) (slack r (off r) (length (rest r))), Some (rerr r)).

(** [Discard(n)]: skips the next [n] bytes and returns how many it
    skipped; with fewer than [n] left it skips them all and returns the
    reader's error; a negative [n] is [ErrNegativeCount]. *)
Definition Discard (r : Reader) (n : Z) : (Z * option error) * Reader :=
  if n <? 0 then ((0, Some ErrNegativeCount), r)
  else if n =? 0 then ((0, None), r)
  else if n <=? Z.of_nat (length (rest r))
       then ((n, None), advance (Z.to_nat n) r)
       else ((Z.of_nat (length (rest r)), Some (rerr r)),
             advance (length (rest r)) r).

(** [Read(p)] for a non-empty [p] of [want] bytes: at the end of the stream
    no byte and the reader's error; otherwise at least one byte and at most
    [want], without error.  How many of the bytes that are left one call
    delivers depends on how the buffer was filled: [chunk] is that
    number. *)
Definition Read (chunk : nat) (r : Reader) (want : nat)
  : (list byte * option error) * Reader :=
  match rest r with
  | [] => (([], Some (rerr r)), r)
  | _ =>
      let n := Nat.min want (Nat.max 1 (Nat.min chunk (length (rest r)))) in
      ((take n (rest r), None), advance n r)
  end.

(** A reader over [data] whose 4096-byte buffer was filled in one go (a
    stream of at most 4096 bytes coming from memory): behind a window lie
    the following bytes of the stream and then the untouched zeros of the
    buffer. *)
Definition ofBytes (data : list byte) (e : error) : Reader :=
  mkReader 0 data e
    (fun o n => drop (o + n) (data ++ replicate (4096 - length data) x00)%list).

End bufio.

(** ** Package ifds: directory kinds and map keys *)
Module ifds.

(** Modelled from the spec: package [ifds] is not among the sources.  The
    directory kinds are the ones the spec lists (primary, Exif sub-IFD,
    GPS sub-IFD, interoperability, maker-note) next to the two the
    sources name, [NullIFD] and [IFD0]. *)
Inductive IfdType : Type :=
| NullIFD | IFD0 | SubIFD | ExifIFD | GPSIFD | IopIFD | MknoteIFD.

#[global] Instance IfdType_eq_decision : EqDecision IfdType.
Proof. solve_decision. Defined.

Definition IfdType_to_nat (t : IfdType) : nat :=
  match t with
  | NullIFD => 0 | IFD0 => 1 | SubIFD => 2 | ExifIFD => 3
  | GPSIFD => 4 | IopIFD => 5 | MknoteIFD => 6
  end.

Definition IfdType_of_nat (n : nat) : option IfdType :=
  match n with
  | 0 => Some NullIFD | 1 => Some IFD0 | 2 => Some SubIFD
  | 3 => Some ExifIFD | 4 => Some GPSIFD | 5 => Some IopIFD
  | 6 => Some MknoteIFD | _ => None
  end%nat.

#[global] Program Instance IfdType_countable : Countable IfdType :=
  inj_countable IfdType_to_nat IfdType_of_nat _.
Next Obligation. by intros []. Qed.

(** Modelled from the spec: a directory reference is the triple of
    directory kind, index and byte offset ([ifds.NewIFD]). *)
Record Ifd : Type := NewIFD { Type_ : IfdType; Index : Z; Offset : Z }.

(** Modelled from the spec: the TagMap is keyed by (directory kind,
    directory index, tag id); [ifds.NewKey] builds that key. *)
Abbreviation Key := (IfdType * Z * Z)%type (only parsing).
Definition NewKey (ifd : IfdType) (ifdIndex : Z) (tagID : Z) : Key :=
  (ifd, ifdIndex, tagID).

End ifds.

(** ** Package tag: tag records *)
Module tag.

(** Modelled from the spec: package [tag] is not among the sources.  The
    type codes are those of the spec's decoding table and those the
    sources name. *)
Inductive Type_ : Type :=
| TypeUnknown
| TypeByte | TypeASCII | TypeShort | TypeLong | TypeRational
| TypeSignedByte | TypeUndefined | TypeSignedShort | TypeSignedLong
| TypeSignedRational | TypeFloat | TypeDouble
| TypeASCIINoNul | TypeIfd.

(** A tag record: identifier, type code, element count and the inline
    value or offset. *)
Record Tag : Type := mkTag {
  ID : Z;
  type : Type_;
  UnitCount : Z;
  ValueOffset : Z
}.

(** [tag.Tag{}] *)
Definition zero : Tag := mkTag 0 TypeUnknown 0 0.

End tag.

(** ** Package imagetype *)
Module imagetype.
Inductive ImageType : Type := ImageUnknown | ImageJPEG | ImageTiff | ImageOther.
End imagetype.

(** ** Package meta: the header descriptor *)
Module meta.

(** The fields are the ones the sources read ([ParseExif], [ParseIfd]).
    [ByteOrder] is an interface value: [None] is [nil]. *)
Record ExifHeader : Type := mkExifHeader {
  ByteOrder : option binary.ByteOrder;
  FirstIfd : ifds.IfdType;
  FirstIfdOffset : Z;
  TiffHeaderOffset : Z;
  ExifLength : Z;
  ImageType : imagetype.ImageType
}.

(** Modelled from the spec: [meta.NewExifHeader] is not among the sources.
    It stores byte order, first-IFD offset, TIFF block origin, declared
    length and image type; resolution starts at the primary directory. *)
Definition NewExifHeader (byteOrder : binary.ByteOrder)
    (firstIfdOffset tiffHeaderOffset exifLength : Z)
    (imageType : imagetype.ImageType) : ExifHeader :=
  mkExifHeader (Some byteOrder) ifds.IFD0 firstIfdOffset tiffHeaderOffset
               exifLength imageType.

(** Modelled from the spec: [meta.BinaryOrder] is not among the sources.
    The TIFF block opens with the byte-order mark, [II] (little-endian) or
    [MM] (big-endian), followed by the fixed value 0x002A in that order;
    anything else is no byte order ([nil]). *)
Definition BinaryOrder (buf : slice) : res (option binary.ByteOrder) :=
  res_bind (reslice buf 0 4) (fun b =>
    Ok (if decide (vis b = [x4d; x4d; x00; x2a]) then Some binary.BigEndian
        else if decide (vis b = [x49; x49; x2a; x00]) then Some binary.LittleEndian
        else None)).

End meta.


(** ** Package jpeg: the marker scanner (latest revision of jpeg.go) *)
Module jpeg.

(** *** Constants *)

Abbreviation markerFirstByte := xff (only parsing).
Abbreviation markerSOF0 := xc0 (only parsing).
Abbreviation markerSOF1 := xc1 (only parsing).
Abbreviation markerSOF2 := xc2 (only parsing).
Abbreviation markerSOF3 := xc3 (only parsing).
Abbreviation markerSOF5 := xc5 (only parsing).
Abbreviation markerSOF6 := xc6 (only parsing).
Abbreviation markerSOF7 := xc7 (only parsing).
Abbreviation markerSOF9 := xc9 (only parsing).
Abbreviation markerSOF10 := xca (only parsing).
Abbreviation markerSOF11 := xcb (only parsing).
Abbreviation markerDHT := xc4 (only parsing).
Abbreviation markerSOI := xd8 (only parsing).
Abbreviation markerEOI := xd9 (only parsing).
Abbreviation markerDQT := xdb (only parsing).
Abbreviation markerDRI := xdd (only parsing).
Abbreviation markerAPP0 := xe0 (only parsing).
Abbreviation markerAPP1 := xe1 (only parsing).
Abbreviation markerAPP2 := xe2 (only parsing).
Abbreviation markerAPP7 := xe7 (only parsing).
Abbreviation markerAPP8 := xe8 (only parsing).
Abbreviation markerAPP9 := xe9 (only parsing).
Abbreviation markerAPP10 := xea (only parsing).
Abbreviation markerAPP13 := xed (only parsing).
Abbreviation markerAPP14 := xee (only parsing).

Definition exifPrefix : list byte := (bytes "Exif" ++ [x00; x00])%list.
Definition jfifPrefix : list byte := (bytes "JFIF" ++ [x00])%list.
Definition jfifPrefixExt : list byte := (bytes "JFXX" ++ [x00])%list.
Definition iccPrefix : list byte := bytes "ICC_PROFILE".
Definition xmpPrefix : list byte :=
  (bytes "http://ns.adobe.com/xap/1.0/" ++ [x00])%list.
Definition xmpPrefixExt : list byte := bytes "http://ns.adobe.com/xmp/extension/".
Definition photoshopPrefix : list byte := bytes "Photoshop ".
Definition exifPrefixLength : Z := 8.
Definition xmpPrefixLength : Z := 29.

Definition jpegEndian : binary.ByteOrder := binary.BigEndian.

(** *** The scanner's state *)

Record sofHeader : Type := mkSofHeader {
  height : Z;
  width : Z;
  components : Z
}.

(** What a callback does with the reader it is handed: it consumes some of
    the bytes it can see, then returns an error or [nil], or panics.  [cbRead]
    is the number of bytes it asks for in total; it gets no more than there
    are. *)
Record cbResult : Type := mkCb { cbRead : nat; cbOut : res (option error) }.

Definition ExifCallback : Type := list byte -> meta.ExifHeader -> cbResult.
Definition XMPCallback : Type := list byte -> cbResult.

(** The record of a callback invocation: the bytes the reader handed over
    could deliver, and for Exif the header. *)
Inductive call : Type :=
| CallExif (visible : list byte) (h : meta.ExifHeader)
| CallXMP (visible : list byte).

(** [jpegReader].  [calls] is not a field of the Go struct: it logs the
    callback invocations, in order. *)
Record jpegReader : Type := mkJpegReader {
  ExifReader : option ExifCallback;
  XMPReader : option XMPCallback;
  br : bufio.Reader;
  sof : sofHeader;
  pos : Z;
  discarded : Z;
  calls : list call
}.

Definition set_br (b : bufio.Reader) (jr : jpegReader) : jpegReader :=
  mkJpegReader (ExifReader jr) (XMPReader jr) b (sof jr) (pos jr)
               (discarded jr) (calls jr).
Definition set_sof (h : sofHeader) (jr : jpegReader) : jpegReader :=
  mkJpegReader (ExifReader jr) (XMPReader jr) (br jr) h (pos jr)
               (discarded jr) (calls jr).
Definition set_pos (p : Z) (jr : jpegReader) : jpegReader :=
  mkJpegReader (ExifReader jr) (XMPReader jr) (br jr) (sof jr) p
               (discarded jr) (calls jr).
Definition set_discarded (d : Z) (jr : jpegReader) : jpegReader :=
  mkJpegReader (ExifReader jr) (XMPReader jr) (br jr) (sof jr) (pos jr)
               d (calls jr).
Definition add_call (c : call) (jr : jpegReader) : jpegReader :=
  mkJpegReader (ExifReader jr) (XMPReader jr) (br jr) (sof jr) (pos jr)
               (discarded jr) (calls jr ++ [c]).

(** [newJPEGReader] puts a [bufio.Reader] of [bufferSize] bytes around the
    caller's reader, or takes the caller's reader as it is when that is a
    [bufio.Reader] already.  [r] is that buffered reader, and the methods
    below are functions of what it delivers; how far it has read into the
    caller's stream is followed in [buffered] and [counted] below. *)
Definition newJPEGReader (r : bufio.Reader) (exifReader : option ExifCallback)
    (xmpReader : option XMPCallback) : jpegReader :=
  mkJpegReader exifReader xmpReader r (mkSofHeader 0 0 0) 0 0 [].

(** *** Methods as state transformers that may panic *)

Definition M (A : Type) : Type := jpegReader -> res A * jpegReader.

Definition ret {A} (a : A) : M A := fun jr => (Ok a, jr).

Definition bind {A B} (m : M A) (f : A -> M B) : M B :=
  fun jr =>
    match m jr with
    | (Ok a, jr') => f a jr'
    | (Panic v, jr') => (Panic v, jr')
    end.

Definition lift {A} (r : res A) : M A := fun jr => (r, jr).
Definition get {A} (f : jpegReader -> A) : M A := fun jr => (Ok (f jr), jr).
Definition modify (f : jpegReader -> jpegReader) : M unit :=
  fun jr => (Ok tt, f jr).

Notation "'let*' x := c1 'in' c2" := (bind c1 (fun x => c2))
  (at level 10, x pattern, c1 at level 100, c2 at level 200,
   format "'[v' 'let*'  x  :=  c1  'in' '/' c2 ']'").
Notation "'let?' x := c1 'in' c2" := (res_bind c1 (fun x => c2))
  (at level 10, x pattern, c1 at level 100, c2 at level 200,
   format "'[v' 'let?'  x  :=  c1  'in' '/' c2 ']'").
Notation "c1 ;; c2" := (bind c1 (fun _ => c2))
  (at level 100, c2 at level 200, right associativity).

(** *** Classification of the lookahead window *)

Definition isSOIMarker (buf : slice) : res bool :=
  let? b0 := index buf 0 in
  if decide (b0 = markerFirstByte)
  then let? b1 := index buf 1 in Ok (bool_decide (b1 = markerSOI))
  else Ok false.

Definition isMarkerFirstByte (buf : slice) : res bool :=
  let? b0 := index buf 0 in Ok (bool_decide (b0 = markerFirstByte)).

Definition isPhotoshopPrefix (buf : slice) : res bool :=
  let? s := substring buf 4 14 in Ok (bool_decide (s = photoshopPrefix)).

Definition isICCProfilePrefix (buf : slice) : res bool :=
  let? s := substring buf 4 15 in Ok (bool_decide (s = iccPrefix)).

Definition isXMPPrefix (buf : slice) : res bool :=
  let? s := substring buf 4 33 in Ok (bool_decide (s = xmpPrefix)).

Definition isXMPPrefixExt (buf : slice) : res bool :=
  let? s := substring buf 4 38 in Ok (bool_decide (s = xmpPrefixExt)).

Definition isExifPrefix (buf : slice) : res bool :=
  let? s := substring buf 4 10 in Ok (bool_decide (s = exifPrefix)).

Definition isJFIFPrefix (buf : slice) : res bool :=
  let? s := substring buf 4 9 in Ok (bool_decide (s = jfifPrefix)).

Definition isJFIFPrefixExt (buf : slice) : res bool :=
  let? s := substring buf 4 9 in Ok (bool_decide (s = jfifPrefixExt)).

(** [markerLength] reads Marker Header Length *)
Definition markerLength (buf : slice) : res Z :=
  let? b := reslice buf 2 4 in binary.Uint16 jpegEndian b.

(** [jfifHeader] returns the length of JFIF header *)
Definition jfifHeader (buf : slice) : res Z :=
  let? j := isJFIFPrefix buf in
  if j then markerLength buf else Ok 0.


(** *** Marker names *)

Definition mapMarkerString : gmap byte string :=
  list_to_map [
    (markerSOF0, "SOF0"); (markerSOF1, "SOF1"); (markerSOF2, "SOF2");
    (markerSOF3, "SOF3"); (markerSOF5, "SOF5"); (markerSOF6, "SOF6");
    (markerSOF7, "SOF7"); (markerSOF9, "SOF9"); (markerSOF10, "SOF10");
    (markerSOF11, "SOF11"); (markerDHT, "DHT"); (markerSOI, "SOI");
    (markerEOI, "EOI"); (markerDQT, "DQT"); (markerDRI, "DRI");
    (markerAPP0, "APP0"); (markerAPP1, "APP1"); (markerAPP2, "APP2");
    (markerAPP7, "APP7"); (markerAPP8, "APP8"); (markerAPP9, "APP9");
    (markerAPP10, "APP10"); (markerAPP13, "APP13"); (markerAPP14, "APP14")
  ].

(** A hexadecimal digit, in lower case. *)
Definition hexDigit (d : Z) : string :=
  String.substring (Z.to_nat d) 1 "0123456789abcdef".

(** [fmt.Sprintf("%x", uint8(m))]: lower-case hexadecimal, no leading
    zero. *)
Definition formatHex (m : byte) : string :=
  if b2z m <? 16 then hexDigit (b2z m)
  else String.append (hexDigit (b2z m / 16)) (hexDigit (b2z m mod 16)).

(** [markerString] returns the string name of the second byte of a JPEG
    marker *)
Definition markerString (m : byte) : string :=
  match mapMarkerString !! m with
  | Some str => str
  | None => String.append "Unknown marker " (formatHex m)
  end.

(** *** Reading and discarding *)

(** [peek] returns the next n bytes without advancing the underlying
    bufio.Reader *)
Definition peek (n : nat) : M (slice * option error) :=
  fun jr => (Ok (bufio.Peek (br jr) n), jr).

(** [discard] adds to [discarded] and discards from the underlying
    bufio.Reader *)
Definition discard (i : Z) : M (option error) :=
  fun jr =>
    if i =? 0 then (Ok None, jr)
    else
      let '((k, err), r') := bufio.Discard (br jr) i in
      (Ok err, set_discarded (wrap32 (discarded jr + wrap32 k)) (set_br r' jr)).

(** [ignoreMarker] reads the Marker Header length and then discards the said
    marker and its header length *)
Definition ignoreMarker (buf : slice) : M (option error) :=
  let* len := lift (markerLength buf) in
  discard (len + 2).

(** [jr.ExifReader(jr.br, exifHeader)]: the callback reads from the scanner's
    own reader. *)
Definition callExif (f : ExifCallback) (h : meta.ExifHeader)
  : M (option error) :=
  fun jr =>
    let visible := bufio.rest (br jr) in
    let r := f visible h in
    (cbOut r,
     add_call (CallExif visible h)
       (set_br (bufio.advance (Nat.min (cbRead r) (length visible)) (br jr)) jr)).

(** [r := io.LimitReader(jr.br, remain); jr.XMPReader(r)]: the callback
    reads through a reader that stops after [remain] bytes (at once when
    [remain] is not positive).  The result carries [r.N], the part of the
    limit left unread. *)
Definition callXMP (f : XMPCallback) (remain : Z) : M (option error * Z) :=
  fun jr =>
    let visible := take (Z.to_nat remain) (bufio.rest (br jr)) in
    let r := f visible in
    let k := Nat.min (cbRead r) (length visible) in
    (let? err := cbOut r in Ok (err, remain - Z.of_nat k),
     add_call (CallXMP visible) (set_br (bufio.advance k (br jr)) jr)).

(** [readExif] reads the Exif header/component with the attached metadata
    ExifDecodeFn. If the function is nil it discards the exif length. *)
Definition readExif (buf : slice) : M (option error) :=
  (* Read the length of the Exif Information *)
  let* len := lift (markerLength buf) in
  let remain := len - exifPrefixLength in
  (* Discard App Marker bytes and Exif header bytes *)
  let* err := discard (2 + exifPrefixLength) in
  match err with
  | Some e => ret (Some e)
  | None =>
    (* Peek at TiffHeader information *)
    let* (buf, err) := peek (Z.to_nat exifPrefixLength) in
    match err with
    | Some e => ret (Some e)
    | None =>
      let* exifReader := get ExifReader in
      match exifReader with
      | Some f =>
        (* Create a TiffHeader from the Tiff directory ByteOrder, root IFD
           Offset, the tiff Header Offset, and the length of the exif
           information.  [byteOrder.Uint32] on a nil byte order is a nil
           dereference. *)
        let* byteOrder := lift (meta.BinaryOrder buf) in
        match byteOrder with
        | None => lift (Panic nilDereference)
        | Some o =>
          let* b48 := lift (reslice buf 4 8) in
          let* firstIfdOffset := lift (binary.Uint32 o b48) in
          let exifLength := wrap32 remain in
          let* tiffHeaderOffset := get discarded in
          (* Set Tiff Header *)
          let exifHeader :=
            meta.NewExifHeader o firstIfdOffset tiffHeaderOffset exifLength
                               imagetype.ImageJPEG in
          let* err := callExif f exifHeader in
          match err with
          | Some e => ret (Some e)
          | None =>
            (* Discard remaining bytes: remain = 0 *)
            discard 0
          end
        end
      | None =>
        (* Discard remaining bytes *)
        discard remain
      end
    end
  end.

(** [readXMP] reads the XMP header/component with the attached metadata
    XmpDecodeFn. If the function is nil it discards the length. *)
Definition readXMP (buf : slice) : M (option error) :=
  (* Read the length of the XMPHeader *)
  let* len := lift (markerLength buf) in
  let remain := len - 2 - xmpPrefixLength in
  (* Discard App Marker bytes and header length bytes *)
  let* err := discard (4 + xmpPrefixLength) in
  match err with
  | Some e => ret (Some e)
  | None =>
    let* xmpReader := get XMPReader in
    match xmpReader with
    | Some f =>
      let* (err, n) := callXMP f remain in
      match err with
      | Some e => ret (Some e)
      | None => discard n
      end
    | None => discard remain
    end
  end.

(** [readAPP1] *)
Definition readAPP1 (buf : slice) : M (option error) :=
  (* APP1 Exif Marker *)
  let* isExif := lift (isExifPrefix buf) in
  if isExif then readExif buf
  else
    (* APP1 XMP Marker *)
    let* isXMP := lift (isXMPPrefix buf) in
    if isXMP then readXMP buf
    else
      (* APP1 XMP Extension marker (NOT SUPPORTED) *)
      let* isExt := lift (isXMPPrefixExt buf) in
      if isExt then ignoreMarker buf
      else ignoreMarker buf.

(** [readSOF] reads a JPEG Start of file with the uint16 width, height, and
    components of the JPEG image. *)
Definition readSOF (buf : slice) : M (option error) :=
  let* len := lift (markerLength buf) in
  let* height := lift (let? b := reslice buf 5 7 in binary.Uint16 jpegEndian b) in
  let* width := lift (let? b := reslice buf 7 9 in binary.Uint16 jpegEndian b) in
  let* comp := lift (let? b := index buf 9 in Ok (b2z b)) in
  let header := mkSofHeader height width comp in
  let* p := get pos in
  (if p =? 1 then modify (set_sof header) else ret tt) ;;
  discard (len + 2).


(** *** The scan loop *)

(** How one pass through the body of the [for] loop ends: [continue], or
    the function returns [err].  A pass that reaches the [break] at the end
    of the body returns the current [err], which is [nil] there: either the
    window was peeked without error and no case assigned [err], or the
    case's error was [nil] (a non-nil one has just been returned). *)
Inductive step : Type :=
| Continue
| Return (err : option error).

(** The [switch buf[1]] of [ScanJPEG], entered when [jr.pos > 0].  The
    calls to the logging hook are left out: they only read. *)
Definition scanSwitch (buf : slice) (m : byte) : M step :=
  match m with
  | markerSOF0 | markerSOF1 | markerSOF2 | markerSOF3 | markerSOF5
  | markerSOF6 | markerSOF7 | markerSOF9 | markerSOF10 =>
      let* err := readSOF buf in ret (Return err)
  | markerDHT =>
      (* Artificial End Of Image for DHT Marker.
         This is done to improve performance. *)
      let* p := get pos in
      if p =? 1 then ret (Return (Some ErrEndOfImage))
      else
        (* Ignore DHT Markers *)
        let* err := ignoreMarker buf in ret (Return err)
  | markerSOI =>
      let* p := get pos in
      modify (set_pos (wrap8 (p + 1))) ;;
      let* err := discard 2 in ret (Return err)
  | markerEOI =>
      let* p := get pos in
      modify (set_pos (wrap8 (p - 1))) ;;
      (* Return EndOfImage *)
      let* p := get pos in
      if p =? 1 then ret (Return (Some ErrEndOfImage))
      else let* err := discard 2 in ret (Return err)
  | markerDQT =>
      (* Ignore DQT Markers and close parsing *)
      ignoreMarker buf ;; ret Continue
  | markerDRI =>
      let* err := discard 6 in ret (Return err)
  | markerAPP0 =>
      (* Is JFIF Marker *)
      let* jfif := lift (isJFIFPrefix buf) in
      let* isJFIF := lift (if jfif then Ok true else isJFIFPrefixExt buf) in
      (if isJFIF
       then let* l := lift (jfifHeader buf) in discard (l + 2)
       else ignoreMarker buf) ;;
      ret Continue
  | markerAPP1 =>
      readAPP1 buf ;; ret Continue
  | markerAPP2 =>
      let* icc := lift (isICCProfilePrefix buf) in
      if icc
      then (* Ignore ICC Profile Marker *) ignoreMarker buf ;; ret Continue
      else ignoreMarker buf ;; ret Continue
  | markerAPP7 | markerAPP8 | markerAPP9 | markerAPP10 =>
      let* err := ignoreMarker buf in ret (Return err)
  | markerAPP13 =>
      let* ps := lift (isPhotoshopPrefix buf) in
      if ps
      then (* Ignore Photoshop Profile Marker *) ignoreMarker buf ;; ret Continue
      else ignoreMarker buf ;; ret Continue
  | markerAPP14 =>
      let* err := ignoreMarker buf in ret (Return err)
  | _ => ret (Return None)
  end.

(** One pass through the body of the loop, around the [switch]. *)
Definition scanPass (switch : slice -> byte -> M step) : M step :=
  let* (buf, err) := peek 16 in
  match err with
  | Some _ => ret (Return (Some ErrNoJPEGMarker))
  | None =>
    let* first := lift (isMarkerFirstByte buf) in
    if negb first then discard 1 ;; ret Continue
    else
      let* soi := lift (isSOIMarker buf) in
      if soi
      then
        let* p := get pos in
        modify (set_pos (wrap8 (p + 1))) ;;
        discard 2 ;; ret Continue
      else
        let* p := get pos in
        if 0 <? p
        then let* m := lift (index buf 1) in switch buf m
        else ret (Return None)
  end.

Definition scanBody : M step := scanPass scanSwitch.

(** The [for] loop over a body, with a bound on the number of passes;
    [None] when the bound is reached. *)
Fixpoint loop (body : M step) (fuel : nat) (jr : jpegReader)
  : option (res (option error) * jpegReader) :=
  match fuel with
  | O => None
  | S fuel' =>
      match body jr with
      | (Ok Continue, jr') => loop body fuel' jr'
      | (Ok (Return err), jr') => Some (Ok err, jr')
      | (Panic v, jr') => Some (Panic v, jr')
      end
  end.

(** The deferred function of [ScanJPEG]:
    [if state := recover(); state != nil { err = state.(error) }].
    The unchecked type assertion panics in its turn when the recovered
    value is not an error. *)
Definition recover (r : res (option error)) : res (option error) :=
  match r with
  | Ok err => Ok err
  | Panic (PanicError e) => Ok (Some e)
  | Panic (PanicOther v) =>
      Panic (PanicError (RuntimeError "interface conversion: not an error"))
  end.

(** The frame of [ScanJPEG] around the loop body: a fresh scanner, the
    loop, the deferred recovery.  Every pass that continues has consumed a
    byte (see [scan_total] below), so one pass more than there are bytes is
    bound enough.  The scanner's final state is returned next to the
    result. *)
Definition scan (body : M step) (r : bufio.Reader)
    (exifReader : option ExifCallback) (xmpReader : option XMPCallback)
  : option (res (option error) * jpegReader) :=
  match loop body (S (length (bufio.rest r)))
             (newJPEGReader r exifReader xmpReader) with
  | Some (out, jr) => Some (recover out, jr)
  | None => None
  end.

(** [ScanJPEG] scans a reader for JPEG Image markers. exifReader and
    xmpReader are run at their respective positions during the scan. *)
Definition ScanJPEG : bufio.Reader -> option ExifCallback ->
    option XMPCallback -> option (res (option error) * jpegReader) :=
  scan scanBody.

End jpeg.


(** ** Package exif: the parse entry points and the tag accessors *)
Module exif.

(** The resolver's reader: the random-access source and the three fields
    [ParseIfd] re-seeds. *)
Record reader : Type := mkReader {
  source : list byte;
  exifLength : Z;
  exifOffset : Z;
  byteOrder : option binary.ByteOrder
}.

(** [Data] struct contains parsed Exif information *)
Record Data : Type := mkData {
  reader_ : reader;
  tagMap : gmap ifds.Key tag.Tag;
  make : list byte;
  model : list byte;
  width : Z;
  height : Z;
  exifVersion : Z;
  imageType : imagetype.ImageType
}.

Definition set_reader (r : reader) (e : Data) : Data :=
  mkData r (tagMap e) (make e) (model e) (width e) (height e)
         (exifVersion e) (imageType e).

Definition set_FirstIfd (t : ifds.IfdType) (h : meta.ExifHeader)
  : meta.ExifHeader :=
  meta.mkExifHeader (meta.ByteOrder h) t (meta.FirstIfdOffset h)
    (meta.TiffHeaderOffset h) (meta.ExifLength h) (meta.ImageType h).

(** [newData] creates a new initialized Exif object *)
Definition newData (r : reader) (it : imagetype.ImageType) : Data :=
  mkData r ∅ [] [] 0 0 0 it.

(** The value of Go's [interface{}] that [GetTagValue] returns. *)
Inductive value : Type :=
| VNil
| VString (s : list byte)
| VUint16 (v : Z)
| VUint16s (v : list Z)
| VUint32 (v : Z)
| VUint32s (v : list Z)
| VRationals (v : list (Z * Z))
| VSRationals (v : list (Z * Z)).

Section Resolver.

(** The parts of the repository these functions call that are not among
    the sources: the header's validity check, the constructor of the
    resolver's reader, the directory walk, and the typed decoders. *)
Variable IsValid : meta.ExifHeader -> bool.
Variable newReader : list byte -> meta.ExifHeader -> reader.
Variable scanIFD : Data -> ifds.Ifd -> Data * option error.
Variable ParseASCIIValue : Data -> tag.Tag -> list byte * option error.
Variable ParseUint16Value : Data -> tag.Tag -> Z * option error.
Variable ParseUint16Values : Data -> tag.Tag -> list Z * option error.
Variable ParseUint32Value : Data -> tag.Tag -> Z * option error.
Variable ParseUint32Values : Data -> tag.Tag -> list Z * option error.
Variable ParseRationalValues : Data -> tag.Tag -> list (Z * Z) * option error.
Variable ParseSRationalValues : Data -> tag.Tag -> list (Z * Z) * option error.

(** [ParseExif] parses Exif metadata from an io.ReaderAt and a TiffHeader.
    If the header is invalid ParseExif will return ErrInvalidHeader. *)
Definition ParseExif (r : list byte) (header : meta.ExifHeader)
  : option Data * option error :=
  if negb (IsValid header) then (None, Some ErrInvalidHeader)
  else
    let header :=
      if decide (meta.FirstIfd header = ifds.NullIFD)
      then set_FirstIfd ifds.IFD0 header
      else header in
    let reader := newReader r header in
    let e := newData reader (meta.ImageType header) in
    (* Scan the FirstIfd with the FirstIfdOffset from the ExifReader *)
    let '(e, err) :=
      scanIFD e (ifds.NewIFD (meta.FirstIfd header) 0
                             (meta.FirstIfdOffset header)) in
    (Some e, err).

(** [Data.ParseIfd] *)
Definition ParseIfd (e : Data) (header : meta.ExifHeader)
  : Data * option error :=
  if negb (IsValid header) || bool_decide (meta.FirstIfd header = ifds.NullIFD)
  then (e, Some ErrInvalidHeader)
  else
    let r := reader_ e in
    let r := mkReader (source r) (meta.ExifLength header)
                      (meta.TiffHeaderOffset header) (meta.ByteOrder header) in
    scanIFD (set_reader r e)
            (ifds.NewIFD (meta.FirstIfd header) 0 (meta.FirstIfdOffset header)).

(** [GetTag] returns a tag from Exif and returns an error if tag doesn't
    exist.  A method of [*Data]: the result comes with the object as the
    call leaves it. *)
Definition GetTag (e : Data) (ifd : ifds.IfdType) (ifdIndex : Z) (tagID : Z)
  : res (tag.Tag * option error) * Data :=
  match tagMap e !! ifds.NewKey ifd ifdIndex tagID with
  | Some t => (Ok (t, None), e)
  | None => (Ok (tag.zero, Some ErrEmptyTag), e)
  end.

(** [GetTagValue] returns the tag's value as an interface. *)
Definition GetTagValue (e : Data) (t : tag.Tag) : value :=
  let asciiLimit := 64%nat in (* Limit ascii values to length *)
  match tag.type t with
  | tag.TypeASCII | tag.TypeASCIINoNul | tag.TypeByte =>
      let '(str, _) := ParseASCIIValue e t in
      if (asciiLimit <? length str)%nat
      then VString (take asciiLimit str)
      else VString str
  | tag.TypeShort =>
      if 1 <? tag.UnitCount t
      then VUint16s (ParseUint16Values e t).1
      else VUint16 (ParseUint16Value e t).1
  | tag.TypeLong =>
      if 1 <? tag.UnitCount t
      then VUint32s (ParseUint32Values e t).1
      else VUint32 (ParseUint32Value e t).1
  | tag.TypeRational => VRationals (ParseRationalValues e t).1
  | tag.TypeSignedRational => VSRationals (ParseSRationalValues e t).1
  | _ => VNil
  end.

End Resolver.

End exif.


(** ** Package jpeg, the earlier revision (src/jpeg/jpeg.go)

    The state, [discard], [readSOF], [ignoreMarker], [readXMP] and the
    marker constants are those of the latest revision; what differs is
    written out: the signature tests compare byte by byte inside the
    16-byte window, [readExif] computes the payload length in [uint16],
    [readAPP1] tests XMP first and leaves an unmatched segment alone, and
    every APP, DQT and DRI case of [ScanJPEG] returns. *)
Module jpeg_go.
Import jpeg.

(** [buf[i] == p0 && buf[i+1] == p1 && ...], left to right, stopping at the
    first difference. *)
Fixpoint bytesAt (buf : slice) (i : nat) (p : list byte) : res bool :=
  match p with
  | [] => Ok true
  | x :: p' =>
      let? b := index buf i in
      if decide (b = x) then bytesAt buf (S i) p' else Ok false
  end.

Definition isPhotoshopPrefix (buf : slice) : res bool :=
  bytesAt buf 4 [x50; x68; x6f; x74; x6f; x70; x20; x33; x2e; x30; x00].

Definition isICCProfilePrefix (buf : slice) : res bool :=
  bytesAt buf 4 [x49; x43; x43; x5f; x50; x52; x4f; x46; x49; x4c; x45].

Definition isXMPPrefix (buf : slice) : res bool :=
  bytesAt buf 4 [x68; x74; x74; x70; x3a; x2f; x2f; x6e; x73; x2e; x61; x64].

Definition isJpegExifPrefix (buf : slice) : res bool :=
  bytesAt buf 4 [x45; x78; x69; x66; x00; x00].

(** [readExif]; [remain := int(jpegByteOrder.Uint16(buf[2:4]) - exifPrefixLength)]
    is a [uint16] subtraction. *)
Definition readExif (buf : slice) : M (option error) :=
  let* len := lift (markerLength buf) in
  let remain := wrap16 (len - exifPrefixLength) in
  let* err := discard (2 + exifPrefixLength) in
  match err with
  | Some e => ret (Some e)
  | None =>
    let* (buf, err) := peek (Z.to_nat exifPrefixLength) in
    match err with
    | Some e => ret (Some e)
    | None =>
      let* exifReader := get ExifReader in
      match exifReader with
      | Some f =>
        let* byteOrder := lift (meta.BinaryOrder buf) in
        match byteOrder with
        | None => lift (Panic nilDereference)
        | Some o =>
          let* b48 := lift (reslice buf 4 8) in
          let* firstIfdOffset := lift (binary.Uint32 o b48) in
          let exifLength := wrap32 remain in
          let* tiffHeaderOffset := get discarded in
          let exifHeader :=
            meta.NewExifHeader o firstIfdOffset tiffHeaderOffset exifLength
                               imagetype.ImageJPEG in
          let* err := callExif f exifHeader in
          match err with
          | Some e => ret (Some e)
          | None => discard 0
          end
        end
      | None => discard remain
      end
    end
  end.

(** [readAPP1] *)
Definition readAPP1 (buf : slice) : M (option error) :=
  (* APP1 XML Marker *)
  let* isXMP := lift (isXMPPrefix buf) in
  if isXMP then readXMP buf
  else
    (* APP1 Exif Marker *)
    let* isExif := lift (isJpegExifPrefix buf) in
    if isExif then readExif buf
    else ret None.

(** The [switch buf[1]] of [ScanJPEG]. *)
Definition scanSwitch (buf : slice) (m : byte) : M step :=
  match m with
  | markerSOF0 | markerSOF1 | markerSOF2 | markerSOF3 | markerSOF5
  | markerSOF6 | markerSOF7 | markerSOF9 | markerSOF10 =>
      let* err := readSOF buf in ret (Return err)
  | markerDHT =>
      let* p := get pos in
      if p =? 1 then ret (Return (Some ErrEndOfImage))
      else let* err := ignoreMarker buf in ret (Return err)
  | markerSOI =>
      let* p := get pos in
      modify (set_pos (wrap8 (p + 1))) ;;
      let* err := discard 2 in ret (Return err)
  | markerEOI =>
      let* p := get pos in
      modify (set_pos (wrap8 (p - 1))) ;;
      let* p := get pos in
      if p =? 1 then ret (Return (Some ErrEndOfImage))
      else let* err := discard 2 in ret (Return err)
  | markerDQT =>
      let* err := ignoreMarker buf in ret (Return err)
  | markerDRI =>
      let* err := discard 6 in ret (Return err)
  | markerAPP0 =>
      let* err := ignoreMarker buf in ret (Return err)
  | markerAPP2 =>
      let* icc := lift (isICCProfilePrefix buf) in
      if icc
      then let* err := ignoreMarker buf in ret (Return err)
      else let* err := ignoreMarker buf in ret (Return err)
  | markerAPP7 | markerAPP8 | markerAPP9 | markerAPP10 =>
      let* err := ignoreMarker buf in ret (Return err)
  | markerAPP13 =>
      let* ps := lift (isPhotoshopPrefix buf) in
      if ps
      then let* err := ignoreMarker buf in ret (Return err)
      else let* err := ignoreMarker buf in ret (Return err)
  | markerAPP14 =>
      let* err := ignoreMarker buf in ret (Return err)
  | markerAPP1 =>
      let* err := readAPP1 buf in ret (Return err)
  | _ => ret (Return None)
  end.

Definition scanBody : M step := scanPass scanSwitch.

Definition ScanJPEG : bufio.Reader -> option ExifCallback ->
    option XMPCallback -> option (res (option error) * jpegReader) :=
  scan scanBody.

(** [scanMarkers]: a method of the earlier revision that nothing calls.  It
    is the [switch] with every case returning, and a default that discards
    one byte. *)
Definition scanMarkers (buf : slice) : M (option error) :=
  let* m := lift (index buf 1) in
  match m with
  | markerSOF0 | markerSOF1 | markerSOF2 | markerSOF3 | markerSOF5
  | markerSOF6 | markerSOF7 | markerSOF9 | markerSOF10 =>
      readSOF buf
  | markerDHT =>
      let* p := get pos in
      if p =? 1 then ret (Some ErrEndOfImage)
      else ignoreMarker buf
  | markerSOI =>
      let* p := get pos in
      modify (set_pos (wrap8 (p + 1))) ;;
      discard 2
  | markerEOI =>
      let* p := get pos in
      modify (set_pos (wrap8 (p - 1))) ;;
      let* p := get pos in
      if p =? 1 then ret (Some ErrEndOfImage)
      else discard 2
  | markerDQT => ignoreMarker buf
  | markerDRI => discard 6
  | markerAPP0 => ignoreMarker buf
  | markerAPP2 =>
      let* icc := lift (isICCProfilePrefix buf) in
      if icc then ignoreMarker buf else ignoreMarker buf
  | markerAPP7 | markerAPP8 | markerAPP9 | markerAPP10 => ignoreMarker buf
  | markerAPP13 =>
      let* ps := lift (isPhotoshopPrefix buf) in
      if ps then ignoreMarker buf else ignoreMarker buf
  | markerAPP14 => ignoreMarker buf
  | markerAPP1 => readAPP1 buf
  | _ => discard 1
  end.

End jpeg_go.


(** ** The caller's stream behind the buffered reader

    [newJPEGReader] puts a [bufio.Reader] of [bufferSize] bytes around the
    caller's [io.Reader].  (A caller's reader that is itself a
    [bufio.Reader] is used as it is, except, in the latest revision, one of
    fewer than [bufferSize] bytes: [bufio.NewReaderSize] returns its
    argument when that is a buffered reader of the size asked for.)
    [bufio.Reader] above describes the buffered reader by what it delivers.  What it has read
    from the caller's stream is more: [Peek], [Discard] and [Read] fill the
    buffer with what the caller's reader gives, ahead of the bytes they
    deliver.  [held] is the number of bytes the buffer holds that have not
    been consumed (the [b.w - b.r] of [bufio.Reader]); they are the first
    [held] bytes of [bufio.rest], and the caller's stream has been read up
    to offset [bufio.off + held]. *)
Module buffered.

Definition bufferSize : nat := 4096.

Section Caller.

(** How much the caller's reader delivers in one [Read]: asked at offset
    [at] of its stream for at most [room] bytes it delivers [grant at room]
    of them, but at least one and no more than [room] or than it has left
    (a reader over memory or a file delivers all that is asked for; a
    network stream what has arrived).  At the end of the stream it
    delivers nothing, and fails. *)
Variable grant : nat -> nat -> nat.

(** [n, err := b.rd.Read(p)] with [len(p) = room]: the number of bytes
    delivered; [0] stands for an error. *)
Definition delivers (r : bufio.Reader) (held room : nat) : nat :=
  Nat.min (Nat.min room (length (bufio.rest r) - held))
          (Nat.max 1 (grant (bufio.off r + held) room)).

(** [fill] slides the bytes the buffer holds to its start and reads once
    into the room behind them. *)
Definition fill (r : bufio.Reader) (held : nat) : nat :=
  (held + delivers r held (bufferSize - held))%nat.

(** The loop of [Peek(n)]:
    [for b.w-b.r < n && b.w-b.r < len(b.buf) && b.err == nil { b.fill() }].
    A [fill] that brings nothing has set [b.err]. *)
Fixpoint fillUpTo (fuel n : nat) (r : bufio.Reader) (held : nat) : nat :=
  match fuel with
  | O => held
  | S fuel' =>
      if decide (held < n ∧ held < bufferSize)%nat
      then
        let held' := fill r held in
        if decide (held' = held) then held
        else fillUpTo fuel' n r held'
      else held
  end.

(** What the buffer holds after [Peek(n)]. *)
Definition Peek (r : bufio.Reader) (held n : nat) : nat :=
  fillUpTo n n r held.

(** The loop of [Discard(n)] for [n > 0]:
    [skip := b.Buffered(); if skip == 0 { b.fill(); skip = b.Buffered() }],
    then [skip] bytes or the [remain] that are missing are passed over, and
    the loop ends when nothing is missing or [b.err] is set. *)
Fixpoint skipLoop (fuel remain : nat) (r : bufio.Reader) (held : nat) : nat :=
  match fuel with
  | O => held
  | S fuel' =>
      let held1 := if decide (held = 0)%nat then fill r 0 else held in
      let skip := Nat.min held1 remain in
      if decide (remain - skip = 0)%nat then (held1 - skip)%nat
      else if decide (held1 = 0)%nat then 0%nat
      else skipLoop fuel' (remain - skip) (bufio.advance skip r)
                    (held1 - skip)
  end.

(** What the buffer holds after [Discard(n)]; a negative [n] is refused
    before the buffer is touched. *)
Definition Discard (r : bufio.Reader) (held : nat) (n : Z) : nat :=
  if n <=? 0 then held
  else skipLoop (Z.to_nat n) (Z.to_nat n) r held.

(** [Read(p)] with [len(p) = want > 0]: the number of bytes copied to [p]
    and what the buffer holds then.  With an empty buffer a large [p] is
    read into directly; otherwise the buffer is filled by one read of the
    caller's reader, and [p] gets what the buffer holds, as far as it
    goes. *)
Definition Read (r : bufio.Reader) (held want : nat) : nat * nat :=
  if decide (held = 0)%nat then
    if decide (bufferSize ≤ want)%nat
    then (delivers r 0 want, 0%nat)
    else
      let got := delivers r 0 bufferSize in
      (Nat.min want got, (got - Nat.min want got)%nat)
  else (Nat.min want held, (held - Nat.min want held)%nat).

(** A callback that takes [remain] bytes asks for them in one slice, and
    again for what is missing, until it has them or the reader fails (as
    [io.ReadFull] does). *)
Fixpoint readLoop (fuel remain : nat) (r : bufio.Reader) (held : nat) : nat :=
  match fuel with
  | O => held
  | S fuel' =>
      let '(n, held') := Read r held remain in
      if decide (n = 0 ∨ remain - n = 0)%nat then held'
      else readLoop fuel' (remain - n) (bufio.advance n r) held'
  end.

(** What the buffer holds after a callback has read [n] bytes. *)
Definition ReadFull (r : bufio.Reader) (held n : nat) : nat :=
  readLoop n n r held.

End Caller.

End buffered.


(** ** The scanner's methods as scripts

    To follow the buffer through a scan, the methods are written once more
    as scripts: the same text, but as a sequence of the operations on the
    scanner's state instead of a function on it.  [run] executes a script
    on the state; run so, a script is the method ([run_scanBody] etc.
    below). *)
Module script.
Import jpeg.

(** The operations a method performs on the scanner: results of pure
    computations that may panic, reads and writes of its fields, and the
    calls that go to the buffered reader. *)
Inductive op : Type -> Type :=
| Lift {A} (r : res A) : op A
| Get {A} (f : jpegReader -> A) : op A
| SetPos (p : Z) : op unit
| SetSof (h : sofHeader) : op unit
| Peek (n : nat) : op (slice * option error)
| Discard (i : Z) : op (option error)
| CallExif (f : ExifCallback) (h : meta.ExifHeader) : op (option error)
| CallXMP (f : XMPCallback) (remain : Z) : op (option error * Z).

Inductive prog (A : Type) : Type :=
| Ret (a : A)
| Do {X : Type} (o : op X) (k : X -> prog A).
Arguments Ret {A} a.
Arguments Do {A X} o k.

Fixpoint bind {A B} (p : prog A) (f : A -> prog B) : prog B :=
  match p with
  | Ret a => f a
  | Do o k => Do o (fun x => bind (k x) f)
  end.

Definition ret {A} (a : A) : prog A := Ret a.
Definition lift {A} (r : res A) : prog A := Do (Lift r) Ret.
Definition get {A} (f : jpegReader -> A) : prog A := Do (Get f) Ret.
Definition setPos (p : Z) : prog unit := Do (SetPos p) Ret.
Definition setSof (h : sofHeader) : prog unit := Do (SetSof h) Ret.
Definition peek (n : nat) : prog (slice * option error) := Do (Peek n) Ret.
Definition discard (i : Z) : prog (option error) := Do (Discard i) Ret.
Definition callExif (f : ExifCallback) (h : meta.ExifHeader)
  : prog (option error) := Do (CallExif f h) Ret.
Definition callXMP (f : XMPCallback) (remain : Z)
  : prog (option error * Z) := Do (CallXMP f remain) Ret.

Declare Scope script_scope.
Delimit Scope script_scope with script.
Notation "'let*' x := c1 'in' c2" := (bind c1 (fun x => c2))
  (at level 10, x pattern, c1 at level 100, c2 at level 200,
   format "'[v' 'let*'  x  :=  c1  'in' '/' c2 ']'") : script_scope.
Notation "c1 ;; c2" := (bind c1 (fun _ => c2))
  (at level 100, c2 at level 200, right associativity) : script_scope.

(** What an operation does to the scanner's state. *)
Definition exec {X} (o : op X) : M X :=
  match o with
  | Lift r => jpeg.lift r
  | Get f => jpeg.get f
  | SetPos p => jpeg.modify (set_pos p)
  | SetSof h => jpeg.modify (set_sof h)
  | Peek n => jpeg.peek n
  | Discard i => jpeg.discard i
  | CallExif f h => jpeg.callExif f h
  | CallXMP f remain => jpeg.callXMP f remain
  end.

Fixpoint run {A} (p : prog A) : M A :=
  match p with
  | Ret a => jpeg.ret a
  | Do o k => jpeg.bind (exec o) (fun x => run (k x))
  end.

Local Open Scope script_scope.

Definition ignoreMarker (buf : slice) : prog (option error) :=
  let* len := lift (markerLength buf) in
  discard (len + 2).

Definition readExif (buf : slice) : prog (option error) :=
  let* len := lift (markerLength buf) in
  let remain := len - exifPrefixLength in
  let* err := discard (2 + exifPrefixLength) in
  match err with
  | Some e => ret (Some e)
  | None =>
    let* (buf, err) := peek (Z.to_nat exifPrefixLength) in
    match err with
    | Some e => ret (Some e)
    | None =>
      let* exifReader := get ExifReader in
      match exifReader with
      | Some f =>
        let* byteOrder := lift (meta.BinaryOrder buf) in
        match byteOrder with
        | None => lift (Panic nilDereference)
        | Some o =>
          let* b48 := lift (reslice buf 4 8) in
          let* firstIfdOffset := lift (binary.Uint32 o b48) in
          let exifLength := wrap32 remain in
          let* tiffHeaderOffset := get discarded in
          let exifHeader :=
            meta.NewExifHeader o firstIfdOffset tiffHeaderOffset exifLength
                               imagetype.ImageJPEG in
          let* err := callExif f exifHeader in
          match err with
          | Some e => ret (Some e)
          | None => discard 0
          end
        end
      | None => discard remain
      end
    end
  end.

Definition readXMP (buf : slice) : prog (option error) :=
  let* len := lift (markerLength buf) in
  let remain := len - 2 - xmpPrefixLength in
  let* err := discard (4 + xmpPrefixLength) in
  match err with
  | Some e => ret (Some e)
  | None =>
    let* xmpReader := get XMPReader in
    match xmpReader with
    | Some f =>
      let* (err, n) := callXMP f remain in
      match err with
      | Some e => ret (Some e)
      | None => discard n
      end
    | None => discard remain
    end
  end.

Definition readAPP1 (buf : slice) : prog (option error) :=
  let* isExif := lift (isExifPrefix buf) in
  if isExif then readExif buf
  else
    let* isXMP := lift (isXMPPrefix buf) in
    if isXMP then readXMP buf
    else
      let* isExt := lift (isXMPPrefixExt buf) in
      if isExt then ignoreMarker buf
      else ignoreMarker buf.

Definition readSOF (buf : slice) : prog (option error) :=
  let* len := lift (markerLength buf) in
  let* height := lift (let? b := reslice buf 5 7 in binary.Uint16 jpegEndian b) in
  let* width := lift (let? b := reslice buf 7 9 in binary.Uint16 jpegEndian b) in
  let* comp := lift (let? b := index buf 9 in Ok (b2z b)) in
  let header := mkSofHeader height width comp in
  let* p := get pos in
  (if p =? 1 then setSof header else ret tt) ;;
  discard (len + 2).

Definition scanSwitch (buf : slice) (m : byte) : prog step :=
  match m with
  | markerSOF0 | markerSOF1 | markerSOF2 | markerSOF3 | markerSOF5
  | markerSOF6 | markerSOF7 | markerSOF9 | markerSOF10 =>
      let* err := readSOF buf in ret (Return err)
  | markerDHT =>
      let* p := get pos in
      if p =? 1 then ret (Return (Some ErrEndOfImage))
      else
        let* err := ignoreMarker buf in ret (Return err)
  | markerSOI =>
      let* p := get pos in
      setPos (wrap8 (p + 1)) ;;
      let* err := discard 2 in ret (Return err)
  | markerEOI =>
      let* p := get pos in
      setPos (wrap8 (p - 1)) ;;
      let* p := get pos in
      if p =? 1 then ret (Return (Some ErrEndOfImage))
      else let* err := discard 2 in ret (Return err)
  | markerDQT =>
      ignoreMarker buf ;; ret Continue
  | markerDRI =>
      let* err := discard 6 in ret (Return err)
  | markerAPP0 =>
      let* jfif := lift (isJFIFPrefix buf) in
      let* isJFIF := lift (if jfif then Ok true else isJFIFPrefixExt buf) in
      (if isJFIF
       then let* l := lift (jfifHeader buf) in discard (l + 2)
       else ignoreMarker buf) ;;
      ret Continue
  | markerAPP1 =>
      readAPP1 buf ;; ret Continue
  | markerAPP2 =>
      let* icc := lift (isICCProfilePrefix buf) in
      if icc
      then ignoreMarker buf ;; ret Continue
      else ignoreMarker buf ;; ret Continue
  | markerAPP7 | markerAPP8 | markerAPP9 | markerAPP10 =>
      let* err := ignoreMarker buf in ret (Return err)
  | markerAPP13 =>
      let* ps := lift (isPhotoshopPrefix buf) in
      if ps
      then ignoreMarker buf ;; ret Continue
      else ignoreMarker buf ;; ret Continue
  | markerAPP14 =>
      let* err := ignoreMarker buf in ret (Return err)
  | _ => ret (Return None)
  end.

Definition scanPass (switch : slice -> byte -> prog step) : prog step :=
  let* (buf, err) := peek 16 in
  match err with
  | Some _ => ret (Return (Some ErrNoJPEGMarker))
  | None =>
    let* first := lift (isMarkerFirstByte buf) in
    if negb first then discard 1 ;; ret Continue
    else
      let* soi := lift (isSOIMarker buf) in
      if soi
      then
        let* p := get pos in
        setPos (wrap8 (p + 1)) ;;
        discard 2 ;; ret Continue
      else
        let* p := get pos in
        if 0 <? p
        then let* m := lift (index buf 1) in switch buf m
        else ret (Return None)
  end.

Definition scanBody : prog step := scanPass scanSwitch.

End script.

(** The scripts of the earlier revision, where it differs. *)
Module script_go.
Import jpeg script.
Local Open Scope script_scope.

Definition readExif (buf : slice) : prog (option error) :=
  let* len := lift (markerLength buf) in
  let remain := wrap16 (len - exifPrefixLength) in
  let* err := discard (2 + exifPrefixLength) in
  match err with
  | Some e => ret (Some e)
  | None =>
    let* (buf, err) := peek (Z.to_nat exifPrefixLength) in
    match err with
    | Some e => ret (Some e)
    | None =>
      let* exifReader := get ExifReader in
      match exifReader with
      | Some f =>
        let* byteOrder := lift (meta.BinaryOrder buf) in
        match byteOrder with
        | None => lift (Panic nilDereference)
        | Some o =>
          let* b48 := lift (reslice buf 4 8) in
          let* firstIfdOffset := lift (binary.Uint32 o b48) in
          let exifLength := wrap32 remain in
          let* tiffHeaderOffset := get discarded in
          let exifHeader :=
            meta.NewExifHeader o firstIfdOffset tiffHeaderOffset exifLength
                               imagetype.ImageJPEG in
          let* err := callExif f exifHeader in
          match err with
          | Some e => ret (Some e)
          | None => discard 0
          end
        end
      | None => discard remain
      end
    end
  end.

Definition readAPP1 (buf : slice) : prog (option error) :=
  let* isXMP := lift (jpeg_go.isXMPPrefix buf) in
  if isXMP then readXMP buf
  else
    let* isExif := lift (jpeg_go.isJpegExifPrefix buf) in
    if isExif then readExif buf
    else ret None.

Definition scanSwitch (buf : slice) (m : byte) : prog step :=
  match m with
  | markerSOF0 | markerSOF1 | markerSOF2 | markerSOF3 | markerSOF5
  | markerSOF6 | markerSOF7 | markerSOF9 | markerSOF10 =>
      let* err := readSOF buf in ret (Return err)
  | markerDHT =>
      let* p := get pos in
      if p =? 1 then ret (Return (Some ErrEndOfImage))
      else let* err := ignoreMarker buf in ret (Return err)
  | markerSOI =>
      let* p := get pos in
      setPos (wrap8 (p + 1)) ;;
      let* err := discard 2 in ret (Return err)
  | markerEOI =>
      let* p := get pos in
      setPos (wrap8 (p - 1)) ;;
      let* p := get pos in
      if p =? 1 then ret (Return (Some ErrEndOfImage))
      else let* err := discard 2 in ret (Return err)
  | markerDQT =>
      let* err := ignoreMarker buf in ret (Return err)
  | markerDRI =>
      let* err := discard 6 in ret (Return err)
  | markerAPP0 =>
      let* err := ignoreMarker buf in ret (Return err)
  | markerAPP2 =>
      let* icc := lift (jpeg_go.isICCProfilePrefix buf) in
      if icc
      then let* err := ignoreMarker buf in ret (Return err)
      else let* err := ignoreMarker buf in ret (Return err)
  | markerAPP7 | markerAPP8 | markerAPP9 | markerAPP10 =>
      let* err := ignoreMarker buf in ret (Return err)
  | markerAPP13 =>
      let* ps := lift (jpeg_go.isPhotoshopPrefix buf) in
      if ps
      then let* err := ignoreMarker buf in ret (Return err)
      else let* err := ignoreMarker buf in ret (Return err)
  | markerAPP14 =>
      let* err := ignoreMarker buf in ret (Return err)
  | markerAPP1 =>
      let* err := readAPP1 buf in ret (Return err)
  | _ => ret (Return None)
  end.

Definition scanBody : prog step := scanPass scanSwitch.

End script_go.

(** ** The scan with the buffer followed

    A script run on the scanner's state together with the number of bytes
    the buffer holds: every operation does to the state what it does in
    [script.run], and the calls to the buffered reader fill the buffer as
    [bufio.Reader] does. *)
Module counted.
Import jpeg.

Section Caller.
Variable grant : nat -> nat -> nat.

(** What the buffer holds after an operation. *)
Definition tally {X} (o : script.op X) (jr : jpegReader) (held : nat) : nat :=
  match o with
  | script.Peek n => buffered.Peek grant (br jr) held n
  | script.Discard i =>
      if i =? 0 then held else buffered.Discard grant (br jr) held i
  | script.CallExif f h =>
      let visible := bufio.rest (br jr) in
      buffered.ReadFull grant (br jr) held
        (Nat.min (cbRead (f visible h)) (length visible))
  | script.CallXMP f remain =>
      let visible := take (Z.to_nat remain) (bufio.rest (br jr)) in
      buffered.ReadFull grant (br jr) held
        (Nat.min (cbRead (f visible)) (length visible))
  | _ => held
  end.

Fixpoint run {A} (p : script.prog A) (jr : jpegReader) (held : nat)
  : res A * jpegReader * nat :=
  match p with
  | script.Ret a => (Ok a, jr, held)
  | script.Do o k =>
      match script.exec o jr with
      | (Ok x, jr') => run (k x) jr' (tally o jr held)
      | (Panic v, jr') => (Panic v, jr', tally o jr held)
      end
  end.

(** The [for] loop, as [jpeg.loop]. *)
Fixpoint loop (body : script.prog step) (fuel : nat) (jr : jpegReader)
    (held : nat) : option (res (option error) * jpegReader * nat) :=
  match fuel with
  | O => None
  | S fuel' =>
      match run body jr held with
      | (Ok Continue, jr', held') => loop body fuel' jr' held'
      | (Ok (Return err), jr', held') => Some (Ok err, jr', held')
      | (Panic v, jr', held') => Some (Panic v, jr', held')
      end
  end.

(** [newJPEGReader] with the buffer: [bufio.NewReaderSize(r, bufferSize)]
    makes a buffered reader that has read nothing yet from the caller's
    reader [r]. *)
Definition newJPEGReader (r : bufio.Reader)
    (exifReader : option ExifCallback) (xmpReader : option XMPCallback)
  : jpegReader * nat :=
  (jpeg.newJPEGReader r exifReader xmpReader, 0%nat).

(** The frame of [ScanJPEG], as [jpeg.scan]. *)
Definition scan (body : script.prog step) (r : bufio.Reader)
    (exifReader : option ExifCallback) (xmpReader : option XMPCallback)
  : option (res (option error) * jpegReader * nat) :=
  let '(jr, held) := newJPEGReader r exifReader xmpReader in
  match loop body (S (length (bufio.rest r))) jr held with
  | Some (out, jr, held) => Some (recover out, jr, held)
  | None => None
  end.

(** [ScanJPEG] over the caller's stream, in the latest and in the earlier
    revision: the result, the scanner's final state and the number of bytes
    the buffer holds at the end. *)
Definition ScanJPEG : bufio.Reader -> option ExifCallback ->
    option XMPCallback -> option (res (option error) * jpegReader * nat) :=
  scan script.scanBody.


End Caller.


End counted.


(** ** Package jpegmeta (src/meta/jpegmeta/metadata.go)

    An older relative of the scanner's sub-readers: it keeps what it finds
    in the [Metadata] object instead of calling back.  A method of
    [*Metadata] takes the object and returns it next to its result. *)
Module jpegmeta.

(** [jpegByteOrder] - JPEG uses a BigEndian Byte Order. *)
Definition jpegByteOrder : binary.ByteOrder := binary.BigEndian.

(** [SOFHeader] contains height, width and number of components. *)
Record SOFHeader : Type := mkSOFHeader {
  height : Z;
  width : Z;
  components : Z
}.

(** [jpegByteOrder.Uint16(buf[2:4])] *)
Definition segmentLength (buf : slice) : res Z :=
  res_bind (reslice buf 2 4) (binary.Uint16 jpegByteOrder).

Definition makesliceOutOfRange : panicValue :=
  PanicError (RuntimeError "makeslice: len out of range").

Section Package.

(** What the file uses of its own package and of package [tiffmeta] that is
    not among the sources: the header type, its zero value and its
    constructor, the detection of the byte order, the two signature tests
    and the two signature lengths. *)
Variable Header : Type.
Variable zeroHeader : Header.
Variable NewHeader : binary.ByteOrder -> Z -> Z -> Z -> Header.
Variable BinaryOrder : slice -> res (option binary.ByteOrder).
Variable isXMPPrefix : slice -> res bool.
Variable isJpegExifPrefix : slice -> res bool.
Variable exifPrefixLength : Z.
Variable xmpPrefixLength : Z.

(** The number of bytes a [Read] delivers at a given offset (see
    [bufio.Read]). *)
Variable chunk : nat -> nat.

(** [Metadata] from JPEG files *)
Record Metadata : Type := mkMetadata {
  sof : SOFHeader;
  xml : list byte;
  tiffHeader : Header;
  Exif : list byte;
  br : bufio.Reader;
  discarded : Z;
  pos : Z
}.

Definition set_sof (h : SOFHeader) (m : Metadata) : Metadata :=
  mkMetadata h (xml m) (tiffHeader m) (Exif m) (br m) (discarded m) (pos m).
Definition set_xml (x : list byte) (m : Metadata) : Metadata :=
  mkMetadata (sof m) x (tiffHeader m) (Exif m) (br m) (discarded m) (pos m).
Definition set_br (r : bufio.Reader) (m : Metadata) : Metadata :=
  mkMetadata (sof m) (xml m) (tiffHeader m) (Exif m) r (discarded m) (pos m).
Definition set_discarded (d : Z) (m : Metadata) : Metadata :=
  mkMetadata (sof m) (xml m) (tiffHeader m) (Exif m) (br m) d (pos m).

(** [Size] returns the width and height of the JPEG Image *)
Definition Size (m : Metadata) : Z * Z := (width (sof m), height (sof m)).

(** [XML] returns the xml in the JPEG Image as a string *)
Definition XML (m : Metadata) : list byte := xml m.

(** [TiffHeader] returns the tiffmeta.Header from the JPEG Image *)
Definition TiffHeader (m : Metadata) : Header := tiffHeader m.

(** [newMetadata] creates a New metadata object from an io.Reader *)
Definition newMetadata (reader : bufio.Reader) : Metadata :=
  mkMetadata (mkSOFHeader 0 0 0) [] zeroHeader [] reader 0 0.

(** [discard] *)
Definition discard (i : Z) (m : Metadata) : option error * Metadata :=
  let '((k, err), r') := bufio.Discard (br m) i in
  (err, set_discarded (wrap32 (discarded m + wrap32 k)) (set_br r' m)).

(** [setTiffHeader] *)
Definition setTiffHeader (h : Header) (m : Metadata) : Metadata :=
  mkMetadata (sof m) (xml m) h (Exif m) (br m) (discarded m) (pos m).

(** The loop of [readXMP],
    [for i := 0; i < length; { n, err := m.br.Read(xmpBuf[i:]); ... i += n }]:
    [missing] is [length - i] and [got] is [xmpBuf[:i]].  It ends with the
    reader's error as soon as a [Read] fails.  [fuel] bounds the number of
    passes ([None] when it is used up); every pass that goes on has read at
    least one byte, so [missing] passes are enough. *)
Fixpoint fill (fuel missing : nat) (got : list byte) (r : bufio.Reader)
  : option ((list byte * option error) * bufio.Reader) :=
  match missing with
  | O => Some ((got, None), r)
  | S _ =>
      match fuel with
      | O => None
      | S fuel' =>
          let '((bs, err), r') :=
            bufio.Read (chunk (bufio.off r)) r missing in
          match err with
          | Some e => Some ((got, Some e), r')
          | None => fill fuel' (missing - length bs) (got ++ bs) r'
          end
      end
  end.

(** [readXMP]; [make([]byte, length)] panics when [length] is negative. *)
Definition readXMP (buf : slice) (m : Metadata)
  : option (res (option error) * Metadata) :=
  match segmentLength buf with
  | Panic v => Some (Panic v, m)
  | Ok l =>
    (* Read the length of the XMPHeader *)
    let length := l - 2 - xmpPrefixLength in
    (* Discard App Marker bytes and header length bytes *)
    let '(err, m) := discard (4 + xmpPrefixLength) m in
    match err with
    | Some e => Some (Ok (Some e), m)
    | None =>
      if length <? 0 then Some (Panic makesliceOutOfRange, m)
      else
        match fill (Z.to_nat length) (Z.to_nat length) [] (br m) with
        | None => None
        | Some ((_, Some e), r') => Some (Ok (Some e), set_br r' m)
        | Some ((xmpBuf, None), r') =>
            Some (Ok None, set_xml xmpBuf (set_br r' m))
        end
    end
  end.

(** [readAPP1] *)
Definition readAPP1 (buf : slice) (m : Metadata)
  : option (res (option error) * Metadata) :=
  match isXMPPrefix buf with
  | Panic v => Some (Panic v, m)
  | Ok true =>
      (* APP1 XML Marker *)
      readXMP buf m
  | Ok false =>
    match isJpegExifPrefix buf with
    | Panic v => Some (Panic v, m)
    | Ok false => Some (Ok None, m)
    | Ok true =>
      (* APP1 Exif Marker *)
      match segmentLength buf with
      | Panic v => Some (Panic v, m)
      | Ok l =>
        (* Read the length of the Exif Information: a [uint16] *)
        let length := wrap16 (l - exifPrefixLength) in
        (* Discard App Marker bytes and Exif header bytes *)
        let '(err, m) := discard (2 + exifPrefixLength) m in
        match err with
        | Some e => Some (Ok (Some e), m)
        | None =>
          (* Peek at TiffHeader information *)
          let '(buf, err) := bufio.Peek (br m) (Z.to_nat exifPrefixLength) in
          match err with
          | Some e => Some (Ok (Some e), m)
          | None =>
            (* Create a TiffHeader from the Tiff directory ByteOrder, root
               IFD Offset, the tiff Header Offset, and the length of the
               exif information. *)
            match BinaryOrder buf with
            | Panic v => Some (Panic v, m)
            | Ok byteOrder =>
              match reslice buf 4 8 with
              | Panic v => Some (Panic v, m)
              | Ok b48 =>
                match byteOrder with
                | None => Some (Panic nilDereference, m)
                | Some o =>
                  match binary.Uint32 o b48 with
                  | Panic v => Some (Panic v, m)
                  | Ok firstIfdOffset =>
                    let exifLength := wrap32 length in
                    let m :=
                      setTiffHeader
                        (NewHeader o firstIfdOffset (discarded m) exifLength)
                        m in
                    (* Discard Exif information bytes *)
                    let '(err, m) := discard length m in
                    Some (Ok err, m)
                  end
                end
              end
            end
          end
        end
      end
    end
  end.

(** [readSOF] *)
Definition readSOF (buf : slice) (m : Metadata)
  : res (option error) * Metadata :=
  match segmentLength buf with
  | Panic v => (Panic v, m)
  | Ok length =>
    match res_bind (reslice buf 5 7) (binary.Uint16 jpegByteOrder) with
    | Panic v => (Panic v, m)
    | Ok h =>
      match res_bind (reslice buf 7 9) (binary.Uint16 jpegByteOrder) with
      | Panic v => (Panic v, m)
      | Ok w =>
        match index buf 9 with
        | Panic v => (Panic v, m)
        | Ok c =>
          let header := mkSOFHeader h w (b2z c) in
          let m := if pos m =? 1 then set_sof header m else m in
          let '(err, m) := discard (length + 2) m in
          (Ok err, m)
        end
      end
    end
  end.

(** [ignoreMarker] reads the Marker Header length and then discards the
    said marker and its header length *)
Definition ignoreMarker (buf : slice) (m : Metadata)
  : res (option error) * Metadata :=
  match segmentLength buf with
  | Panic v => (Panic v, m)
  | Ok length =>
      let '(err, m) := discard (length + 2) m in
      (Ok err, m)
  end.

End Package.

Arguments mkMetadata {Header}.
Arguments sof {Header}.
Arguments xml {Header}.
Arguments tiffHeader {Header}.
Arguments Exif {Header}.
Arguments br {Header}.
Arguments discarded {Header}.
Arguments pos {Header}.
Arguments set_sof {Header}.
Arguments set_xml {Header}.
Arguments set_br {Header}.
Arguments set_discarded {Header}.
Arguments Size {Header}.
Arguments XML {Header}.
Arguments TiffHeader {Header}.
Arguments newMetadata {Header}.
Arguments discard {Header}.
Arguments setTiffHeader {Header}.
Arguments readXMP {Header}.
Arguments readAPP1 {Header}.
Arguments readSOF {Header}.
Arguments ignoreMarker {Header}.

End jpegmeta.


(** * Notions used in the statements *)

Import jpeg.

(** The marker codes of the first case of the [switch]. *)
Definition isSOF (m : byte) : bool :=
  match m with
  | markerSOF0 | markerSOF1 | markerSOF2 | markerSOF3 | markerSOF5
  | markerSOF6 | markerSOF7 | markerSOF9 | markerSOF10 => true
  | _ => false
  end.

(** From one state to a later one: the callbacks and the stream's error
    are the same, what is left of the stream is a suffix of what was left,
    and the log of callback invocations has only grown. *)
Record forward (jr jr' : jpegReader) : Prop := mkForward {
  fw_exif : ExifReader jr' = ExifReader jr;
  fw_xmp : XMPReader jr' = XMPReader jr;
  fw_rerr : bufio.rerr (br jr') = bufio.rerr (br jr);
  fw_rest : bufio.rest (br jr') `suffix_of` bufio.rest (br jr);
  fw_calls : calls jr `prefix_of` calls jr'
}.

(** The image-size record is the same. *)
Definition sameSof (jr jr' : jpegReader) : Prop := sof jr' = sof jr.

(** A computation keeps a relation between the state it starts from and the
    state it leaves, whatever its outcome. *)
Definition preserves (R : relation jpegReader) {A} (m : M A) : Prop :=
  ∀ jr, R jr (m jr).2.

(** A computation that succeeds has consumed at least one byte, provided
    there was one. *)
Definition advances {A} (m : M A) : Prop :=
  ∀ jr a jr', bufio.rest (br jr) ≠ [] -> m jr = (Ok a, jr') ->
    (length (bufio.rest (br jr')) < length (bufio.rest (br jr)))%nat.

(** A pass that ends in [continue] has consumed at least one byte,
    provided there was one. *)
Definition progressing (m : M step) : Prop :=
  ∀ jr jr', bufio.rest (br jr) ≠ [] -> m jr = (Ok Continue, jr') ->
    (length (bufio.rest (br jr')) < length (bufio.rest (br jr)))%nat.

(** A result that is not a panic with a non-error value. *)
Definition errPanic {A} (r : res A) : Prop :=
  match r with
  | Panic (PanicOther _) => False
  | _ => True
  end.

(** Callbacks whose panics, if any, carry error values. *)
Definition tameExif (E : option ExifCallback) : Prop :=
  ∀ f visible h, E = Some f -> errPanic (cbOut (f visible h)).

Definition tameXMP (X : option XMPCallback) : Prop :=
  ∀ f visible, X = Some f -> errPanic (cbOut (f visible)).

(** With callbacks [E] and [X] installed, the computation never panics with
    a non-error value. *)
Definition sound (E : option ExifCallback) (X : option XMPCallback)
    {A} (m : M A) : Prop :=
  ∀ jr, ExifReader jr = E -> XMPReader jr = X -> errPanic (m jr).1.

(** The only error a discarding method returns is the stream's own. *)
Definition onlyStreamErr (m : M (option error)) : Prop :=
  ∀ jr e jr', m jr = (Ok (Some e), jr') -> e = bufio.rerr (br jr).

(** The only errors a pass returns are the two sentinels and the stream's
    own error. *)
Definition onlyKnownErr (m : M step) : Prop :=
  ∀ jr e jr', m jr = (Ok (Return (Some e)), jr') ->
    e = ErrEndOfImage ∨ e = ErrNoJPEGMarker ∨ e = bufio.rerr (br jr).

(** The state after [n] passes that all ended in [continue]. *)
Fixpoint after (body : M step) (n : nat) (jr : jpegReader)
  : option jpegReader :=
  match n with
  | O => Some jr
  | S n' =>
      match body jr with
      | (Ok Continue, jr') => after body n' jr'
      | _ => None
      end
  end.

(** The 16-byte lookahead window at the scanner's position. *)
Definition lookahead (jr : jpegReader) : slice :=
  mkSlice (take 16 (bufio.rest (br jr)))
          (bufio.slack (br jr) (bufio.off (br jr)) 16).

(** The scanner after [discard] has skipped [k] bytes. *)
Definition skip (k : nat) (jr : jpegReader) : jpegReader :=
  set_discarded (wrap32 (discarded jr + wrap32 (Z.of_nat k)))
                (set_br (bufio.advance k (br jr)) jr).

(** The frame header at the scanner's position, when the lookahead window
    holds a Start-Of-Frame marker: after the marker and the two length
    bytes come the sample precision, the height, the width and the number
    of components. *)
Definition frameAt (jr : jpegReader) : option sofHeader :=
  match bufio.rest (br jr) with
  | b0 :: m :: _ :: _ :: _ :: h1 :: h0 :: w1 :: w0 :: c :: tl =>
      if bool_decide (b0 = xff) && isSOF m && bool_decide (6 ≤ length tl)%nat
      then Some (mkSofHeader (b2z h0 + b2z h1 * 256)
                             (b2z w0 + b2z w1 * 256) (b2z c))
      else None
  | _ => None
  end.

(** What a pass does to the image-size record, in either revision: the
    two [switch]es agree on the Start-Of-Frame case and leave the record
    alone in every other. *)
Definition framing (switch : slice -> byte -> M step) : Prop :=
  (∀ buf m, isSOF m = true ->
     switch buf m = (let* err := readSOF buf in ret (Return err))) ∧
  (∀ buf m, isSOF m = false -> preserves sameSof (switch buf m)).

(** A marker segment as it lies in the stream: the marker, the declared
    length in two big-endian bytes (it counts itself and the payload), the
    payload. *)
Record segment : Type := mkSegment { code : byte; payload : list byte }.

Definition z2b (z : Z) : byte := default x00 (Byte.of_N (Z.to_N z)).

Definition declared (s : segment) : Z := Z.of_nat (length (payload s)) + 2.

Definition encode (s : segment) : list byte :=
  ([xff; code s; z2b (declared s / 256); z2b (declared s mod 256)]
     ++ payload s)%list.

(** The segments the latest revision passes over and goes on scanning:
    quantization tables, a JFIF APP0, APP2, APP13. *)
Definition skipped (s : segment) : bool :=
  match code s with
  | markerDQT | markerAPP2 | markerAPP13 => true
  | markerAPP0 => bool_decide (take 5 (payload s) = jfifPrefix)
  | _ => false
  end.

(** A segment that is skipped and whose length fits the two bytes. *)
Definition skippable (s : segment) : Prop :=
  skipped s = true ∧ declared s < 65536.

(** From [jr] to [jr'] the next [k] bytes of the stream have gone; the
    nesting counter and the log of callback invocations are the same. *)
Definition skippedTo (k : nat) (jr jr' : jpegReader) : Prop :=
  bufio.rest (br jr') = drop k (bufio.rest (br jr)) ∧
  pos jr' = pos jr ∧ calls jr' = calls jr.

(** An invariant carried from a state to a later one. *)
Definition carries (I : jpegReader -> Prop) : relation jpegReader :=
  fun jr jr' => I jr -> I jr'.

(** Callbacks that read nothing from the reader they are handed (they only
    take note of the header, or of the fact that a packet is there). *)
Definition quiet (jr : jpegReader) : Prop :=
  (∀ f v h, ExifReader jr = Some f -> cbRead (f v h) = 0%nat) ∧
  (∀ f v, XMPReader jr = Some f -> cbRead (f v) = 0%nat).

(** The count of discarded bytes is the number of bytes consumed so far
    from a stream of [n] bytes, as a [uint32]. *)
Definition counted (n : nat) (jr : jpegReader) : Prop :=
  discarded jr =
    wrap32 (Z.of_nat n - Z.of_nat (length (bufio.rest (br jr)))).

(** An Exif callback was handed a header whose TIFF origin is the offset,
    in a stream of [n] bytes, of the bytes its reader stood at. *)
Definition stamped (n : nat) (c : call) : Prop :=
  match c with
  | CallExif visible h =>
      ∃ o firstIfdOffset exifLength,
        h = meta.NewExifHeader o firstIfdOffset
              (wrap32 (Z.of_nat n - Z.of_nat (length visible))) exifLength
              imagetype.ImageJPEG
  | CallXMP _ => True
  end.

(** The marker codes the [switch] of [ScanJPEG] has a case for (the same in
    both revisions). *)
Definition listed (m : byte) : bool :=
  match m with
  | markerSOF0 | markerSOF1 | markerSOF2 | markerSOF3 | markerSOF5
  | markerSOF6 | markerSOF7 | markerSOF9 | markerSOF10
  | markerDHT | markerSOI | markerEOI | markerDQT | markerDRI
  | markerAPP0 | markerAPP1 | markerAPP2
  | markerAPP7 | markerAPP8 | markerAPP9 | markerAPP10
  | markerAPP13 | markerAPP14 => true
  | _ => false
  end.

(** The application segments the latest revision discards and then
    returns at. *)
Definition returning (m : byte) : bool :=
  match m with
  | markerAPP7 | markerAPP8 | markerAPP9 | markerAPP10 | markerAPP14 => true
  | _ => false
  end.

(** The log of callback invocations is the same. *)
Definition sameCalls (jr jr' : jpegReader) : Prop := calls jr' = calls jr.

(** At most one callback invocation has been added to the log. *)
Definition oneMoreCall (jr jr' : jpegReader) : Prop :=
  calls jr' = calls jr ∨ ∃ c, calls jr' = (calls jr ++ [c])%list.

(** The stream holds an APP1 marker somewhere: the byte 0xFF followed by
    0xE1. *)
Fixpoint hasAPP1 (l : list byte) : bool :=
  match l with
  | b :: l' =>
      match l' with
      | c :: _ =>
          (bool_decide (b = xff) && bool_decide (c = markerAPP1)) || hasAPP1 l'
      | [] => false
      end
  | [] => false
  end.

(** The invariant of a scan over a stream of [n] bytes with quiet
    callbacks: the count of discarded bytes is the number of bytes consumed,
    and every Exif callback so far was handed the offset of its TIFF
    block. *)
Definition accounted (n : nat) (jr : jpegReader) : Prop :=
  quiet jr ∧ counted n jr ∧ Forall (stamped n) (calls jr).

(** The invariant of a scan over a stream of [n] bytes, whatever the
    callbacks do: until a callback is invoked the count of discarded bytes
    is the number of bytes consumed, and the first callback, if it is the
    Exif callback, was handed the offset of its TIFF block. *)
Definition accountedAtFirst (n : nat) (jr : jpegReader) : Prop :=
  match calls jr with
  | [] => counted n jr
  | c :: _ => stamped n c
  end.

(** What a slice expression on the lookahead window can reach: the 16
    bytes of the window and what the reader's buffer holds behind them. *)
Definition reach (jr : jpegReader) : list byte :=
  (vis (lookahead jr) ++ spare (lookahead jr))%list.

(** A pass that does not end in [continue]. *)
Definition returns (m : M step) : Prop :=
  ∀ jr, (m jr).1 ≠ Ok Continue.

(** The 256 byte values, in order. *)
Definition allBytes : list byte :=
  map (fun n => default x00 (Byte.of_N (N.of_nat n))) (seq 0 256).

(** With callbacks [E] and [X] installed, the computation does not
    panic. *)
Definition calm (E : option ExifCallback) (X : option XMPCallback)
    {A} (m : M A) : Prop :=
  ∀ jr, ExifReader jr = E -> XMPReader jr = X -> ∃ a, (m jr).1 = Ok a.

(** An XMP callback that does not panic. *)
Definition steadyXMP (X : option XMPCallback) : Prop :=
  ∀ f visible, X = Some f -> ∃ err, cbOut (f visible) = Ok err.

(** The cases of the latest revision's [switch] that end the scan with the
    result of a discard: the Start-Of-Frame codes, DHT, EOI, DRI, APP7 to
    APP10 and APP14. *)
Definition ending (m : byte) : bool :=
  match m with
  | markerSOF0 | markerSOF1 | markerSOF2 | markerSOF3 | markerSOF5
  | markerSOF6 | markerSOF7 | markerSOF9 | markerSOF10
  | markerDHT | markerEOI | markerDRI
  | markerAPP7 | markerAPP8 | markerAPP9 | markerAPP10 | markerAPP14 => true
  | _ => false
  end.

(** An error value that one of the callbacks returns. *)
Definition answered (E : option ExifCallback) (X : option XMPCallback)
    (e : error) : Prop :=
  (∃ f visible h, E = Some f ∧ cbOut (f visible h) = Ok (Some e)) ∨
  (∃ f visible, X = Some f ∧ cbOut (f visible) = Ok (Some e)).

(** A discarding method returns an error only when the stream runs out
    under it: the error is the stream's own, and nothing is left. *)
Definition runsOut (m : M (option error)) : Prop :=
  ∀ jr e jr', m jr = (Ok (Some e), jr') ->
    e = bufio.rerr (br jr) ∧ bufio.rest (br jr') = [].

(** A pass returns no error but the end-of-image sentinel and, if [b], the
    error of a stream that ran out under it. *)
Definition endsWith (b : bool) (m : M step) : Prop :=
  ∀ jr e jr', m jr = (Ok (Return (Some e)), jr') ->
    e = ErrEndOfImage ∨
    (b = true ∧ e = bufio.rerr (br jr) ∧ bufio.rest (br jr') = []).

(** The errors the earlier revision can return from state [jr] on. *)
Definition knownGo (jr : jpegReader) (e : error) : Prop :=
  e = ErrEndOfImage ∨ e = ErrNoJPEGMarker ∨ e = bufio.rerr (br jr) ∨
  e = ErrNegativeCount ∨ answered (ExifReader jr) (XMPReader jr) e.

(** A method of the earlier revision returns no other error. *)
Definition errsGo (m : M (option error)) : Prop :=
  ∀ jr e jr', m jr = (Ok (Some e), jr') -> knownGo jr e.

(** A pass of the earlier revision returns no other error. *)
Definition passErrsGo (m : M step) : Prop :=
  ∀ jr e jr', m jr = (Ok (Return (Some e)), jr') -> knownGo jr e.

(** Two computations that do the same from every state. *)
Definition same {A} (m1 m2 : M A) : Prop := ∀ jr, m1 jr = m2 jr.

(** The buffer holds no more than its size, and no more than is left of
    the stream. *)
Definition fits (r : bufio.Reader) (held : nat) : Prop :=
  (held ≤ buffered.bufferSize ∧ held ≤ length (bufio.rest r))%nat.

(** * Sample streams, callbacks and headers *)
Module samples.

Definition SOI : list byte := [xff; xd8].
Definition EOI : list byte := [xff; xd9].

(** A quantization table: length 67, table 0, 64 entries. *)
Definition dqt : segment := mkSegment markerDQT (x00 :: replicate 64 x01).
Definition DQT : list byte :=
  ([xff; xdb; x00; x43; x00] ++ replicate 64 x01)%list.

(** A baseline frame header: length 11, precision 8, height 16, width 32,
    one component. *)
Definition sof0 : segment :=
  mkSegment markerSOF0 [x08; x00; x10; x00; x20; x01; x01; x11; x00].
Definition SOF0 : list byte :=
  [xff; xc0; x00; x0b; x08; x00; x10; x00; x20; x01; x01; x11; x00].

(** The frame header of that image under the marker code [m]. *)
Definition frame (m : byte) : list byte :=
  [xff; m; x00; x0b; x08; x00; x10; x00; x20; x01; x01; x11; x00].

(** A Huffman table: length 20, table 0, one code of length 1. *)
Definition dht : segment :=
  mkSegment markerDHT ([x00; x01] ++ replicate 15 x00 ++ [x00])%list.
Definition DHT : list byte :=
  ([xff; xc4; x00; x14; x00; x01] ++ replicate 15 x00 ++ [x00])%list.

(** Start of scan, with one byte of entropy-coded data. *)
Definition SOS : list byte :=
  [xff; xda; x00; x08; x01; x01; x00; x00; x3f; x00; x7f].

(** An Adobe APP14 segment: length 14. *)
Definition APP14 : list byte :=
  ([xff; xee; x00; x0e] ++ bytes "Adobe"
     ++ [x00; x64; x00; x00; x00; x00; x00])%list.

(** A big-endian TIFF block: [MM], 0x002A, first IFD at offset 8, and an
    empty directory. *)
Definition tiffBlock : list byte :=
  [x4d; x4d; x00; x2a; x00; x00; x00; x08; x00; x00; x00; x00; x00; x00].

(** The same with an unknown byte-order mark. *)
Definition badTiffBlock : list byte :=
  [x58; x58; x00; x2a; x00; x00; x00; x08; x00; x00; x00; x00; x00; x00].

(** An Exif APP1 segment: length 22 = 2 + 6 + 14. *)
Definition exifSegment : list byte :=
  ([xff; xe1; x00; x16] ++ jpeg.exifPrefix ++ tiffBlock)%list.
Definition badExifSegment : list byte :=
  ([xff; xe1; x00; x16] ++ jpeg.exifPrefix ++ badTiffBlock)%list.

(** A JPEG file with one SOI/EOI pair and no APP1 segment, in the usual
    order: tables, frame header, Huffman table, scan, EOI. *)
Definition baseline : list byte :=
  (SOI ++ DQT ++ SOF0 ++ DHT ++ SOS ++ EOI)%list.

(** One with an APP14 segment ahead of the Exif segment. *)
Definition adobeThenExif : list byte :=
  (SOI ++ APP14 ++ exifSegment ++ DQT ++ SOF0 ++ DHT ++ SOS ++ EOI)%list.

(** One with quantization tables ahead of the Exif segment. *)
Definition tablesThenExif : list byte :=
  (SOI ++ DQT ++ exifSegment ++ DQT ++ SOF0 ++ DHT ++ SOS ++ EOI)%list.

(** An Exif callback that only takes note of the header and reads nothing. *)
Definition notesHeader : ExifCallback := fun _ _ => mkCb 0 (Ok None).

(** An Exif callback that reads the ten bytes up to the first directory's
    entry count and returns. *)
Definition readsTen : ExifCallback := fun _ _ => mkCb 10 (Ok None).

(** An Exif callback that panics with a string. *)
Definition panicsWithText : ExifCallback :=
  fun _ _ => mkCb 0 (Panic (PanicOther "unexpected directory")).

(** Modelled from the spec: a header is valid only if its byte order is
    recognized and its offsets are non-negative. *)
Definition IsValid (h : meta.ExifHeader) : bool :=
  bool_decide (is_Some (meta.ByteOrder h))
  && (0 <=? meta.FirstIfdOffset h) && (0 <=? meta.TiffHeaderOffset h).

(** A resolver's reader seeded from the header. *)
Definition newReader (r : list byte) (h : meta.ExifHeader) : exif.reader :=
  exif.mkReader r (meta.ExifLength h) (meta.TiffHeaderOffset h)
                (meta.ByteOrder h).

(** A directory walk over a directory without entries: it adds nothing and
    succeeds. *)
Definition scanEmptyIFD (e : exif.Data) (d : ifds.Ifd)
  : exif.Data * option error := (e, None).

(** A valid header whose first-directory designator is null. *)
Definition nullIfdHeader : meta.ExifHeader :=
  meta.mkExifHeader (Some binary.BigEndian) ifds.NullIFD 8 12 14
                    imagetype.ImageJPEG.

(** A header without byte order. *)
Definition invalidHeader : meta.ExifHeader :=
  meta.mkExifHeader None ifds.IFD0 8 12 14 imagetype.ImageJPEG.

(** A result object holding the camera make (tag 0x010F) of the primary
    directory. *)
Definition makeTag : tag.Tag := tag.mkTag 271 tag.TypeASCII 6 158.
Definition someData : exif.Data :=
  exif.mkData (newReader [] nullIfdHeader)
              {[ ifds.NewKey ifds.IFD0 0 271 := makeTag ]}
              [] [] 0 0 0 imagetype.ImageJPEG.

(** A decoder of ASCII values that yields seventy letters, and one that
    yields five. *)
Definition seventy (e : exif.Data) (t : tag.Tag) : list byte * option error :=
  (replicate 70 x41, None).
Definition five (e : exif.Data) (t : tag.Tag) : list byte * option error :=
  (bytes "Canon", None).

Definition noU16 (e : exif.Data) (t : tag.Tag) : Z * option error :=
  (0, Some ErrEmptyTag).
Definition noU16s (e : exif.Data) (t : tag.Tag) : list Z * option error :=
  ([], Some ErrEmptyTag).
Definition noRationals (e : exif.Data) (t : tag.Tag)
  : list (Z * Z) * option error := ([], Some ErrEmptyTag).

(** An XMP packet and the APP1 segment that carries it: length 43 =
    2 + 29 + 12. *)
Definition xmpPacket : list byte := bytes "<x:xmpmeta/>".
Definition xmpSegment : list byte :=
  ([xff; xe1; x00; x2b] ++ jpeg.xmpPrefix ++ xmpPacket)%list.

(** An XMP callback that reads the first five bytes of the packet and
    returns. *)
Definition readsFive : XMPCallback := fun _ => mkCb 5 (Ok None).


(** An Exif callback that fails. *)
Definition failsWith (e : error) : ExifCallback :=
  fun _ _ => mkCb 0 (Ok (Some e)).

End samples.

(** * Properties of the scanner *)

(** ** The scanner only moves forward *)

#[global] Instance forward_preorder : PreOrder forward.
Proof.
  split.
  - intros jr. by split.
  - intros a b c [] []. split; try congruence; by etrans.
Qed.

#[global] Instance sameSof_preorder : PreOrder sameSof.
Proof. split; unfold sameSof; [done | intros a b c; congruence]. Qed.

Section Preserves.
Context (R : relation jpegReader) `{!PreOrder R}.

Lemma preserves_ret {A} (a : A) : preserves R (ret a).
Proof. intros jr. reflexivity. Qed.

Lemma preserves_lift {A} (r : res A) : preserves R (lift r).
Proof. intros jr. reflexivity. Qed.

Lemma preserves_get {A} (f : jpegReader -> A) : preserves R (get f).
Proof. intros jr. reflexivity. Qed.

Lemma preserves_peek n : preserves R (peek n).
Proof. intros jr. reflexivity. Qed.

Lemma preserves_bind {A B} (m : M A) (f : A -> M B) :
  preserves R m -> (∀ a, preserves R (f a)) -> preserves R (bind m f).
Proof.
  intros Hm Hf jr. unfold bind. specialize (Hm jr).
  destruct (m jr) as [[a|v] jr1]; simpl in *; [|done].
  etrans; [exact Hm | apply Hf].
Qed.

End Preserves.

Ltac preserve :=
  repeat match goal with
  | |- preserves _ (bind _ _) => apply preserves_bind; [apply _| |]
  | |- preserves _ (ret _) => apply preserves_ret; apply _
  | |- preserves _ (lift _) => apply preserves_lift; apply _
  | |- preserves _ (get _) => apply preserves_get; apply _
  | |- preserves _ (peek _) => apply preserves_peek; apply _
  | |- ∀ _, _ => intros
  | |- preserves _ (match ?x with _ => _ end) => destruct x
  | |- preserves _ (if ?b then _ else _) => destruct b
  end.

Lemma Discard_suffix r n :
  bufio.rest (bufio.Discard r n).2 `suffix_of` bufio.rest r ∧
  bufio.rerr (bufio.Discard r n).2 = bufio.rerr r.
Proof.
  unfold bufio.Discard.
  destruct (n <? 0); [done|]. destruct (n =? 0); [done|].
  destruct (n <=? _); simpl; split; auto using suffix_drop.
Qed.

Lemma forward_discard i : preserves forward (discard i).
Proof.
  intros jr. unfold discard. destruct (i =? 0); [reflexivity|].
  pose proof (Discard_suffix (br jr) i) as [Hs He].
  destruct (bufio.Discard (br jr) i) as [[k err] r']. simpl in *.
  by split.
Qed.

Lemma forward_callExif f h : preserves forward (callExif f h).
Proof.
  intros jr. unfold callExif. simpl.
  split; simpl; auto using suffix_drop. by apply prefix_app_r.
Qed.

Lemma forward_callXMP f n : preserves forward (callXMP f n).
Proof.
  intros jr. unfold callXMP. simpl.
  split; simpl; auto using suffix_drop. by apply prefix_app_r.
Qed.

Lemma forward_set_pos p : preserves forward (modify (set_pos p)).
Proof. intros jr. by split. Qed.

Lemma forward_set_sof h : preserves forward (modify (set_sof h)).
Proof. intros jr. by split. Qed.

Create HintDb scanner.

#[local] Hint Resolve forward_discard forward_callExif forward_callXMP
  forward_set_pos forward_set_sof : scanner.

Lemma forward_ignoreMarker buf : preserves forward (ignoreMarker buf).
Proof. unfold ignoreMarker. preserve; auto with scanner. Qed.

Lemma forward_readExif buf : preserves forward (readExif buf).
Proof. unfold readExif. preserve; auto with scanner. Qed.

Lemma forward_readXMP buf : preserves forward (readXMP buf).
Proof. unfold readXMP. preserve; auto with scanner. Qed.

#[local] Hint Resolve forward_ignoreMarker forward_readExif forward_readXMP
  : scanner.

Lemma forward_readAPP1 buf : preserves forward (readAPP1 buf).
Proof. unfold readAPP1. preserve; auto with scanner. Qed.

Lemma forward_readSOF buf : preserves forward (readSOF buf).
Proof. unfold readSOF. preserve; auto with scanner. Qed.

#[local] Hint Resolve forward_readAPP1 forward_readSOF : scanner.

Lemma forward_scanSwitch buf m : preserves forward (scanSwitch buf m).
Proof. unfold scanSwitch. destruct m; preserve; auto with scanner. Qed.

Lemma forward_scanPass switch :
  (∀ buf m, preserves forward (switch buf m)) ->
  preserves forward (scanPass switch).
Proof. intros H. unfold scanPass. preserve; auto with scanner. Qed.

Lemma forward_scanBody : preserves forward scanBody.
Proof. apply forward_scanPass, forward_scanSwitch. Qed.

Lemma forward_go_readExif buf : preserves forward (jpeg_go.readExif buf).
Proof. unfold jpeg_go.readExif. preserve; auto with scanner. Qed.

#[local] Hint Resolve forward_go_readExif : scanner.

Lemma forward_go_readAPP1 buf : preserves forward (jpeg_go.readAPP1 buf).
Proof. unfold jpeg_go.readAPP1. preserve; auto with scanner. Qed.

#[local] Hint Resolve forward_go_readAPP1 : scanner.

Lemma forward_go_scanSwitch buf m : preserves forward (jpeg_go.scanSwitch buf m).
Proof. unfold jpeg_go.scanSwitch. destruct m; preserve; auto with scanner. Qed.

Lemma forward_go_scanBody : preserves forward jpeg_go.scanBody.
Proof. apply forward_scanPass, forward_go_scanSwitch. Qed.

(** ** Only [readSOF] writes the image-size record *)

Lemma sameSof_discard i : preserves sameSof (discard i).
Proof.
  intros jr. unfold discard. destruct (i =? 0); [reflexivity|].
  by destruct (bufio.Discard (br jr) i) as [[k err] r'].
Qed.

Lemma sameSof_callExif f h : preserves sameSof (callExif f h).
Proof. by intros jr. Qed.

Lemma sameSof_callXMP f n : preserves sameSof (callXMP f n).
Proof. by intros jr. Qed.

Lemma sameSof_set_pos p : preserves sameSof (modify (set_pos p)).
Proof. by intros jr. Qed.

#[local] Hint Resolve sameSof_discard sameSof_callExif sameSof_callXMP
  sameSof_set_pos : scanner.

Lemma sameSof_ignoreMarker buf : preserves sameSof (ignoreMarker buf).
Proof. unfold ignoreMarker. preserve; auto with scanner. Qed.

Lemma sameSof_readExif buf : preserves sameSof (readExif buf).
Proof. unfold readExif. preserve; auto with scanner. Qed.

Lemma sameSof_readXMP buf : preserves sameSof (readXMP buf).
Proof. unfold readXMP. preserve; auto with scanner. Qed.

#[local] Hint Resolve sameSof_ignoreMarker sameSof_readExif sameSof_readXMP
  : scanner.

Lemma sameSof_readAPP1 buf : preserves sameSof (readAPP1 buf).
Proof. unfold readAPP1. preserve; auto with scanner. Qed.

Lemma sameSof_go_readExif buf : preserves sameSof (jpeg_go.readExif buf).
Proof. unfold jpeg_go.readExif. preserve; auto with scanner. Qed.

#[local] Hint Resolve sameSof_readAPP1 sameSof_go_readExif : scanner.

Lemma sameSof_go_readAPP1 buf : preserves sameSof (jpeg_go.readAPP1 buf).
Proof. unfold jpeg_go.readAPP1. preserve; auto with scanner. Qed.

#[local] Hint Resolve sameSof_go_readAPP1 : scanner.

(** [readSOF] writes it at nesting 1 and nowhere else. *)
Lemma sameSof_readSOF_nested buf jr :
  pos jr ≠ 1 -> sof (readSOF buf jr).2 = sof jr.
Proof.
  intros Hp. unfold readSOF, bind, lift, get.
  destruct (markerLength buf) as [len|]; [|done].
  destruct (let? b := reslice buf 5 7 in _) as [h|]; [|done].
  destruct (let? b := reslice buf 7 9 in _) as [w|]; [|done].
  destruct (let? b := index buf 9 in _) as [c|]; [|done].
  destruct (pos jr =? 1) eqn:E; [by apply Z.eqb_eq in E|].
  unfold ret. apply (sameSof_discard (len + 2) jr).
Qed.

Lemma sameSof_scanSwitch buf m :
  isSOF m = false -> preserves sameSof (scanSwitch buf m).
Proof.
  intros Hm. unfold scanSwitch.
  destruct m; try discriminate Hm; preserve; auto with scanner.
Qed.

Lemma sameSof_go_scanSwitch buf m :
  isSOF m = false -> preserves sameSof (jpeg_go.scanSwitch buf m).
Proof.
  intros Hm. unfold jpeg_go.scanSwitch.
  destruct m; try discriminate Hm; preserve; auto with scanner.
Qed.

(** ** Every pass that continues consumes a byte; the scan terminates *)

Lemma forward_length jr jr' :
  forward jr jr' ->
  (length (bufio.rest (br jr')) ≤ length (bufio.rest (br jr)))%nat.
Proof. intros [_ _ _ H _]. by apply suffix_length. Qed.

Lemma advances_bind_l {A B} (m : M A) (f : A -> M B) :
  advances m -> (∀ a, preserves forward (f a)) -> advances (bind m f).
Proof.
  intros Hm Hf jr b jr' Hne. unfold bind.
  destruct (m jr) as [[a|v] jr1] eqn:E; [|done]. intros Hb.
  specialize (Hm _ _ _ Hne E).
  pose proof (forward_length _ _ (Hf a jr1)) as Hl. rewrite Hb in Hl.
  simpl in Hl. lia.
Qed.

Lemma advances_lift_bind {A B} (r : res A) (f : A -> M B) :
  (∀ a, r = Ok a -> advances (f a)) -> advances (bind (lift r) f).
Proof.
  intros Hf jr b jr' Hne. unfold bind, lift.
  destruct r as [a|v]; [|done]. by apply Hf.
Qed.

Lemma advances_get_bind {A B} (g : jpegReader -> A) (f : A -> M B) :
  (∀ a, advances (f a)) -> advances (bind (get g) f).
Proof. intros Hf jr b jr' Hne. unfold bind, get. by apply Hf. Qed.

Lemma advances_discard i : 0 < i -> advances (discard i).
Proof.
  intros Hi jr a jr' Hne. unfold discard, bufio.Discard.
  destruct (Z.eqb_spec i 0); [lia|].
  destruct (Z.ltb_spec i 0); [lia|].
  destruct (bufio.rest (br jr)) as [|x l] eqn:El; [done|].
  destruct (Z.leb_spec i (Z.of_nat (length (x :: l))));
    intros [= _ <-]; simpl; rewrite El, length_drop; simpl in *; lia.
Qed.

Lemma markerLength_nonneg buf len : markerLength buf = Ok len -> 0 ≤ len.
Proof.
  unfold markerLength, res_bind, binary.Uint16.
  destruct (reslice buf 2 4) as [b|]; [|done].
  destruct (vis b) as [|b0 [|b1 ?]]; try done.
  intros [= <-]. unfold jpegEndian, b2z. lia.
Qed.

Lemma advances_ignoreMarker buf : advances (ignoreMarker buf).
Proof.
  unfold ignoreMarker. apply advances_lift_bind. intros len Hlen.
  apply advances_discard. apply markerLength_nonneg in Hlen. lia.
Qed.

Lemma advances_readExif buf : advances (readExif buf).
Proof.
  unfold readExif. apply advances_lift_bind. intros len _.
  apply advances_bind_l; [by apply advances_discard|].
  preserve; auto with scanner.
Qed.

Lemma advances_readXMP buf : advances (readXMP buf).
Proof.
  unfold readXMP. apply advances_lift_bind. intros len _.
  apply advances_bind_l; [by apply advances_discard|].
  preserve; auto with scanner.
Qed.

Lemma advances_go_readExif buf : advances (jpeg_go.readExif buf).
Proof.
  unfold jpeg_go.readExif. apply advances_lift_bind. intros len _.
  apply advances_bind_l; [by apply advances_discard|].
  preserve; auto with scanner.
Qed.

Lemma advances_readAPP1 buf : advances (readAPP1 buf).
Proof.
  unfold readAPP1.
  apply advances_lift_bind; intros [] _; [apply advances_readExif|].
  apply advances_lift_bind; intros [] _; [apply advances_readXMP|].
  apply advances_lift_bind; intros [] _; apply advances_ignoreMarker.
Qed.

Lemma progressing_return {A} (m : M A) (f : A -> option error) :
  progressing (bind m (fun a => ret (Return (f a)))).
Proof.
  intros jr jr' _. unfold bind, ret. by destruct (m jr) as [[a|v] jr1].
Qed.

Lemma progressing_continue {A} (m : M A) :
  advances m -> progressing (bind m (fun _ => ret Continue)).
Proof.
  intros Hm jr jr' Hne. unfold bind, ret.
  destruct (m jr) as [[a|v] jr1] eqn:E; [|done].
  intros [= <-]. by eapply Hm.
Qed.

Lemma progressing_lift_bind {A} (r : res A) (f : A -> M step) :
  (∀ a, progressing (f a)) -> progressing (bind (lift r) f).
Proof.
  intros Hf jr jr' Hne. unfold bind, lift.
  destruct r as [a|v]; [|done]. by apply Hf.
Qed.

Lemma progressing_get_bind {A} (g : jpegReader -> A) (f : A -> M step) :
  (∀ a, progressing (f a)) -> progressing (bind (get g) f).
Proof. intros Hf jr jr' Hne. unfold bind, get. by apply Hf. Qed.

Lemma progressing_modify_bind (g : jpegReader -> jpegReader) (k : M step) :
  (∀ jr, br (g jr) = br jr) -> progressing k ->
  progressing (bind (modify g) (fun _ => k)).
Proof.
  intros Hg Hk jr jr' Hne. unfold bind, modify. intros H.
  rewrite <- (Hg jr). apply Hk; [by rewrite Hg | done].
Qed.

Lemma progressing_ret_return e : progressing (ret (Return e)).
Proof. by intros jr jr' _. Qed.

Ltac progressing :=
  repeat match goal with
  | |- progressing (bind _ (fun e => ret (Return e))) =>
      apply (progressing_return _ (fun e => e))
  | |- progressing (bind _ (fun _ => ret Continue)) =>
      apply progressing_continue
  | |- progressing (bind (lift _) _) => apply progressing_lift_bind; intros
  | |- progressing (bind (get _) _) => apply progressing_get_bind; intros
  | |- progressing (bind (modify _) _) =>
      apply progressing_modify_bind; [done|]
  | |- progressing (ret (Return _)) => apply progressing_ret_return
  | |- progressing (if ?b then _ else _) => destruct b
  | |- advances (if ?b then _ else _) => destruct b
  | |- advances (bind (lift _) _) => apply advances_lift_bind; intros
  end.

Lemma progressing_scanSwitch buf m : progressing (scanSwitch buf m).
Proof.
  unfold scanSwitch.
  destruct m; progressing;
    auto using advances_ignoreMarker, advances_readAPP1.
  apply advances_discard.
  match goal with H : jfifHeader _ = Ok _ |- _ =>
    unfold jfifHeader, res_bind in H; repeat case_match; simplify_eq;
    try lia end.
  match goal with H : markerLength _ = Ok _ |- _ =>
    apply markerLength_nonneg in H; lia end.
Qed.

Lemma progressing_go_scanSwitch buf m : progressing (jpeg_go.scanSwitch buf m).
Proof. unfold jpeg_go.scanSwitch. destruct m; progressing. Qed.

(** A pass that continues has consumed a byte. *)
Lemma scanPass_progress switch jr jr' :
  (∀ buf m, progressing (switch buf m)) ->
  scanPass switch jr = (Ok Continue, jr') ->
  (length (bufio.rest (br jr')) < length (bufio.rest (br jr)))%nat.
Proof.
  intros Hsw. unfold scanPass, peek, bufio.Peek. unfold bind at 1.
  case_decide as Hlen; [|done].
  assert (bufio.rest (br jr) ≠ []) as Hne.
  { intros E. rewrite E in Hlen. simpl in Hlen. lia. }
  match goal with |- ?X jr = _ -> _ => assert (progressing X) as HX end.
  { progressing; auto using advances_discard.
    all: by apply advances_discard. }
  by apply HX.
Qed.

Lemma loop_total body :
  (∀ jr jr', body jr = (Ok Continue, jr') ->
     (length (bufio.rest (br jr')) < length (bufio.rest (br jr)))%nat) ->
  ∀ fuel jr, (length (bufio.rest (br jr)) < fuel)%nat ->
    is_Some (loop body fuel jr).
Proof.
  intros Hb. induction fuel as [|fuel IH]; intros jr Hlt; [lia|].
  simpl. destruct (body jr) as [[[|err]|v] jr1] eqn:E; [|done..].
  apply IH. apply Hb in E. lia.
Qed.

(** The loop gives the same result with any larger bound. *)
Lemma loop_fuel body fuel fuel' jr out :
  loop body fuel jr = Some out -> (fuel ≤ fuel')%nat ->
  loop body fuel' jr = Some out.
Proof.
  revert fuel' jr. induction fuel as [|fuel IH]; intros fuel' jr; [done|].
  destruct fuel' as [|fuel']; [lia|]. simpl.
  destruct (body jr) as [[[|err]|v] jr1]; [|done..].
  intros H Hle. apply IH; [done|lia].
Qed.

Theorem ScanJPEG_total r exifReader xmpReader :
  is_Some (ScanJPEG r exifReader xmpReader).
Proof.
  unfold ScanJPEG, scan.
  destruct (loop_total scanBody) with
    (fuel := S (length (bufio.rest r)))
    (jr := newJPEGReader r exifReader xmpReader) as [[out jr] ->];
    [|simpl; lia|done].
  intros jr jr'. apply scanPass_progress, progressing_scanSwitch.
Qed.

Theorem ScanJPEG_go_total r exifReader xmpReader :
  is_Some (jpeg_go.ScanJPEG r exifReader xmpReader).
Proof.
  unfold jpeg_go.ScanJPEG, scan.
  destruct (loop_total jpeg_go.scanBody) with
    (fuel := S (length (bufio.rest r)))
    (jr := newJPEGReader r exifReader xmpReader) as [[out jr] ->];
    [|simpl; lia|done].
  intros jr jr'. apply scanPass_progress, progressing_go_scanSwitch.
Qed.

(** ** Panics raised during a scan *)

Lemma errPanic_res_bind {A B} (r : res A) (f : A -> res B) :
  errPanic r -> (∀ a, errPanic (f a)) -> errPanic (res_bind r f).
Proof. destruct r; simpl; auto. Qed.

Lemma errPanic_index buf i : errPanic (index buf i).
Proof. unfold index. by case_match. Qed.

Lemma errPanic_reslice buf lo hi : errPanic (reslice buf lo hi).
Proof. unfold reslice. by case_decide. Qed.

Lemma errPanic_substring buf lo hi : errPanic (substring buf lo hi).
Proof.
  unfold substring. apply errPanic_res_bind; [apply errPanic_reslice|done].
Qed.

Lemma errPanic_Uint16 o b : errPanic (binary.Uint16 o b).
Proof. unfold binary.Uint16. by repeat case_match. Qed.

Lemma errPanic_Uint32 o b : errPanic (binary.Uint32 o b).
Proof. unfold binary.Uint32. by repeat case_match. Qed.

Lemma errPanic_bytesAt buf p : ∀ i, errPanic (jpeg_go.bytesAt buf i p).
Proof.
  induction p as [|x p IH]; intros i; simpl; [done|].
  apply errPanic_res_bind; [apply errPanic_index|].
  intros b. by case_decide.
Qed.

Create HintDb pure.
#[local] Hint Resolve errPanic_index errPanic_reslice errPanic_substring
  errPanic_Uint16 errPanic_Uint32 errPanic_bytesAt : pure.

Ltac pure_tame :=
  repeat first
    [ apply errPanic_res_bind; [|intros]
    | progress auto with pure
    | match goal with |- errPanic (if ?b then _ else _) => destruct b end
    | exact I ].

Lemma errPanic_markerLength buf : errPanic (markerLength buf).
Proof. unfold markerLength. pure_tame. Qed.

Lemma errPanic_isSOIMarker buf : errPanic (isSOIMarker buf).
Proof. unfold isSOIMarker. pure_tame. Qed.

Lemma errPanic_isMarkerFirstByte buf : errPanic (isMarkerFirstByte buf).
Proof. unfold isMarkerFirstByte. pure_tame. Qed.

Lemma errPanic_isPhotoshopPrefix buf : errPanic (isPhotoshopPrefix buf).
Proof. unfold isPhotoshopPrefix. pure_tame. Qed.

Lemma errPanic_isICCProfilePrefix buf : errPanic (isICCProfilePrefix buf).
Proof. unfold isICCProfilePrefix. pure_tame. Qed.

Lemma errPanic_isXMPPrefix buf : errPanic (isXMPPrefix buf).
Proof. unfold isXMPPrefix. pure_tame. Qed.

Lemma errPanic_isXMPPrefixExt buf : errPanic (isXMPPrefixExt buf).
Proof. unfold isXMPPrefixExt. pure_tame. Qed.

Lemma errPanic_isExifPrefix buf : errPanic (isExifPrefix buf).
Proof. unfold isExifPrefix. pure_tame. Qed.

Lemma errPanic_isJFIFPrefix buf : errPanic (isJFIFPrefix buf).
Proof. unfold isJFIFPrefix. pure_tame. Qed.

Lemma errPanic_isJFIFPrefixExt buf : errPanic (isJFIFPrefixExt buf).
Proof. unfold isJFIFPrefixExt. pure_tame. Qed.

#[local] Hint Resolve errPanic_markerLength errPanic_isSOIMarker
  errPanic_isMarkerFirstByte errPanic_isPhotoshopPrefix
  errPanic_isICCProfilePrefix errPanic_isXMPPrefix errPanic_isXMPPrefixExt
  errPanic_isExifPrefix errPanic_isJFIFPrefix errPanic_isJFIFPrefixExt : pure.

Lemma errPanic_jfifHeader buf : errPanic (jfifHeader buf).
Proof. unfold jfifHeader. pure_tame. Qed.

Lemma errPanic_BinaryOrder buf : errPanic (meta.BinaryOrder buf).
Proof. unfold meta.BinaryOrder. pure_tame. Qed.

#[local] Hint Resolve errPanic_jfifHeader errPanic_BinaryOrder : pure.

Section Sound.
Context (E : option ExifCallback) (X : option XMPCallback).
Hypothesis HE : tameExif E.
Hypothesis HX : tameXMP X.

Lemma sound_ret {A} (a : A) : sound E X (ret a).
Proof. by intros jr _ _. Qed.

Lemma sound_lift {A} (r : res A) : errPanic r -> sound E X (lift r).
Proof. by intros Hr jr _ _. Qed.

Lemma sound_get {A} (g : jpegReader -> A) : sound E X (get g).
Proof. by intros jr _ _. Qed.

Lemma sound_modify g : sound E X (modify g).
Proof. by intros jr _ _. Qed.

Lemma sound_peek n : sound E X (peek n).
Proof. by intros jr _ _. Qed.

Lemma sound_discard i : sound E X (discard i).
Proof.
  intros jr _ _. unfold discard. destruct (i =? 0); [done|].
  by destruct (bufio.Discard (br jr) i) as [[k err] r'].
Qed.

Lemma sound_bind {A B} (m : M A) (f : A -> M B) :
  preserves forward m -> sound E X m -> (∀ a, sound E X (f a)) ->
  sound E X (bind m f).
Proof.
  intros Hfw Hm Hf jr HjE HjX. unfold bind.
  specialize (Hm jr HjE HjX). specialize (Hfw jr).
  destruct (m jr) as [[a|v] jr1]; simpl in *; [|done].
  destruct Hfw as [H1 H2 _ _ _]. apply Hf; congruence.
Qed.

Lemma sound_get_ExifReader {B} (f : option ExifCallback -> M B) :
  sound E X (f E) -> sound E X (bind (get ExifReader) f).
Proof. intros Hf jr HjE HjX. unfold bind, get. rewrite HjE. by apply Hf. Qed.

Lemma sound_get_XMPReader {B} (f : option XMPCallback -> M B) :
  sound E X (f X) -> sound E X (bind (get XMPReader) f).
Proof. intros Hf jr HjE HjX. unfold bind, get. rewrite HjX. by apply Hf. Qed.

Lemma sound_callExif f h : E = Some f -> sound E X (callExif f h).
Proof. intros Hf jr _ _. unfold callExif. simpl. by eapply HE. Qed.

Lemma sound_callXMP f n : X = Some f -> sound E X (callXMP f n).
Proof.
  intros Hf jr _ _. unfold callXMP. simpl.
  specialize (HX f (take (Z.to_nat n) (bufio.rest (br jr))) Hf).
  by destruct (cbOut _) as [|[]].
Qed.

End Sound.

Ltac sound :=
  repeat match goal with
  | |- sound _ _ (bind (get ExifReader) _) => apply sound_get_ExifReader
  | |- sound _ _ (bind (get XMPReader) _) => apply sound_get_XMPReader
  | |- sound _ _ (bind _ _) =>
      apply sound_bind; [by (preserve; auto with scanner)| |]
  | |- sound _ _ (ret _) => apply sound_ret
  | |- sound _ _ (lift _) => apply sound_lift; pure_tame
  | |- sound _ _ (get _) => apply sound_get
  | |- sound _ _ (modify _) => apply sound_modify
  | |- sound _ _ (peek _) => apply sound_peek
  | |- sound _ _ (discard _) => apply sound_discard
  | |- ∀ _, _ => intros
  | |- sound _ _ (match ?x with _ => _ end) => destruct x eqn:?
  | |- sound _ _ (if ?b then _ else _) => destruct b
  end.

Section SoundScan.
Context (E : option ExifCallback) (X : option XMPCallback).
Hypothesis HE : tameExif E.
Hypothesis HX : tameXMP X.

Lemma sound_ignoreMarker buf : sound E X (ignoreMarker buf).
Proof. unfold ignoreMarker. sound. Qed.

Lemma sound_readSOF buf : sound E X (readSOF buf).
Proof. unfold readSOF. sound. Qed.

Lemma sound_readExif buf : sound E X (readExif buf).
Proof. unfold readExif. sound. by apply sound_callExif. Qed.

Lemma sound_go_readExif buf : sound E X (jpeg_go.readExif buf).
Proof. unfold jpeg_go.readExif. sound. by apply sound_callExif. Qed.

Lemma sound_readXMP buf : sound E X (readXMP buf).
Proof. unfold readXMP. sound. by apply sound_callXMP. Qed.

Lemma sound_readAPP1 buf : sound E X (readAPP1 buf).
Proof.
  unfold readAPP1. sound;
    auto using sound_readExif, sound_readXMP, sound_ignoreMarker.
Qed.

Lemma sound_go_readAPP1 buf : sound E X (jpeg_go.readAPP1 buf).
Proof.
  unfold jpeg_go.readAPP1, jpeg_go.isXMPPrefix, jpeg_go.isJpegExifPrefix.
  sound; auto using sound_go_readExif, sound_readXMP.
Qed.

Lemma sound_scanSwitch buf m : sound E X (scanSwitch buf m).
Proof.
  unfold scanSwitch.
  destruct m; sound;
    auto using sound_readSOF, sound_ignoreMarker, sound_readAPP1.
Qed.

Lemma sound_go_scanSwitch buf m : sound E X (jpeg_go.scanSwitch buf m).
Proof.
  unfold jpeg_go.scanSwitch, jpeg_go.isICCProfilePrefix,
    jpeg_go.isPhotoshopPrefix.
  destruct m; sound;
    auto using sound_readSOF, sound_ignoreMarker, sound_go_readAPP1.
Qed.

Lemma sound_scanPass switch :
  (∀ buf m, preserves forward (switch buf m)) ->
  (∀ buf m, sound E X (switch buf m)) -> sound E X (scanPass switch).
Proof. intros Hfw Hs. unfold scanPass. sound; auto. Qed.

Lemma sound_loop body :
  preserves forward body -> sound E X body ->
  ∀ fuel jr out jr', ExifReader jr = E -> XMPReader jr = X ->
    loop body fuel jr = Some (out, jr') -> errPanic out.
Proof.
  intros Hfw Hs. induction fuel as [|fuel IH]; intros jr out jr' HjE HjX;
    [done|].
  simpl. specialize (Hs jr HjE HjX). specialize (Hfw jr).
  destruct (body jr) as [[[|err]|v] jr1]; simpl in *.
  - destruct Hfw as [H1 H2 _ _ _]. apply IH; congruence.
  - by intros [= <- _].
  - by intros [= <- _].
Qed.

Lemma recover_errPanic out :
  errPanic out -> ∃ err, recover out = Ok err.
Proof. destruct out as [err|[e|v]]; simpl; [eauto..|done]. Qed.

Lemma sound_scan body r :
  preserves forward body -> sound E X body ->
  ∀ out jr, scan body r E X = Some (out, jr) -> ∃ err, out = Ok err.
Proof.
  intros Hfw Hs out jr. unfold scan.
  destruct (loop body _ _) as [[out0 jr0]|] eqn:El; [|done].
  intros [= <- <-]. apply recover_errPanic.
  eapply (sound_loop body Hfw Hs); [| |exact El]; done.
Qed.

End SoundScan.

(** ** The errors a scan returns *)

Lemma onlyStreamErr_discard i : 0 ≤ i -> onlyStreamErr (discard i).
Proof.
  intros Hi jr e jr'. unfold discard, bufio.Discard.
  destruct (Z.eqb_spec i 0); [done|].
  destruct (Z.ltb_spec i 0); [lia|].
  destruct (Z.leb_spec i (Z.of_nat (length (bufio.rest (br jr))))); [done|].
  by intros [= <- _].
Qed.

Lemma onlyStreamErr_ignoreMarker buf : onlyStreamErr (ignoreMarker buf).
Proof.
  intros jr e jr'. unfold ignoreMarker, bind, lift.
  destruct (markerLength buf) as [len|] eqn:El; [|done].
  apply onlyStreamErr_discard. apply markerLength_nonneg in El. lia.
Qed.

Lemma onlyStreamErr_readSOF buf : onlyStreamErr (readSOF buf).
Proof.
  intros jr e jr'. unfold readSOF, bind, lift, get.
  destruct (markerLength buf) as [len|] eqn:El; [|done].
  destruct (let? b := reslice buf 5 7 in _) as [h|]; [|done].
  destruct (let? b := reslice buf 7 9 in _) as [w|]; [|done].
  destruct (let? b := index buf 9 in _) as [c|]; [|done].
  apply markerLength_nonneg in El.
  destruct (pos jr =? 1); unfold modify, ret; intros H;
    apply onlyStreamErr_discard in H; (done || lia).
Qed.

Lemma onlyKnownErr_return (m : M (option error)) :
  onlyStreamErr m -> onlyKnownErr (bind m (fun e => ret (Return e))).
Proof.
  intros Hm jr e jr'. unfold bind, ret.
  destruct (m jr) as [[a|v] jr1] eqn:E; [|done].
  intros [= -> <-]. right; right. by eapply Hm.
Qed.

Lemma onlyKnownErr_continue {A} (m : M A) :
  onlyKnownErr (bind m (fun _ => ret Continue)).
Proof. intros jr e jr'. unfold bind, ret. by destruct (m jr) as [[a|v] jr1]. Qed.

Lemma onlyKnownErr_lift_bind {A} (r : res A) (f : A -> M step) :
  (∀ a, onlyKnownErr (f a)) -> onlyKnownErr (bind (lift r) f).
Proof.
  intros Hf jr e jr'. unfold bind, lift.
  destruct r as [a|v]; [|done]. by apply Hf.
Qed.

Lemma onlyKnownErr_get_bind {A} (g : jpegReader -> A) (f : A -> M step) :
  (∀ a, onlyKnownErr (f a)) -> onlyKnownErr (bind (get g) f).
Proof. intros Hf jr e jr'. unfold bind, get. by apply Hf. Qed.

Lemma onlyKnownErr_modify_bind (g : jpegReader -> jpegReader) (k : M step) :
  (∀ jr, br (g jr) = br jr) -> onlyKnownErr k ->
  onlyKnownErr (bind (modify g) (fun _ => k)).
Proof.
  intros Hg Hk jr e jr'. unfold bind, modify. intros H.
  rewrite <- (Hg jr). by eapply Hk.
Qed.

Lemma onlyKnownErr_ret_nil : onlyKnownErr (ret (Return None)).
Proof. by intros jr e jr'. Qed.

Lemma onlyKnownErr_ret_EndOfImage :
  onlyKnownErr (ret (Return (Some ErrEndOfImage))).
Proof. intros jr e jr' [= <- _]. by left. Qed.

Lemma onlyKnownErr_ret_NoJPEGMarker :
  onlyKnownErr (ret (Return (Some ErrNoJPEGMarker))).
Proof. intros jr e jr' [= <- _]. right. by left. Qed.

Ltac known_errs :=
  repeat match goal with
  | |- onlyKnownErr (bind _ (fun e => ret (Return e))) =>
      apply onlyKnownErr_return
  | |- onlyKnownErr (bind _ (fun _ => ret Continue)) =>
      apply onlyKnownErr_continue
  | |- onlyKnownErr (bind (lift _) _) => apply onlyKnownErr_lift_bind; intros
  | |- onlyKnownErr (bind (get _) _) => apply onlyKnownErr_get_bind; intros
  | |- onlyKnownErr (bind (modify _) _) =>
      apply onlyKnownErr_modify_bind; [done|]
  | |- onlyKnownErr (ret (Return None)) => apply onlyKnownErr_ret_nil
  | |- onlyKnownErr (ret (Return (Some ErrEndOfImage))) =>
      apply onlyKnownErr_ret_EndOfImage
  | |- onlyKnownErr (ret (Return (Some ErrNoJPEGMarker))) =>
      apply onlyKnownErr_ret_NoJPEGMarker
  | |- onlyKnownErr (if ?b then _ else _) => destruct b
  | |- onlyKnownErr (match ?x with _ => _ end) => destruct x
  end.

Lemma onlyKnownErr_scanSwitch buf m : onlyKnownErr (scanSwitch buf m).
Proof.
  unfold scanSwitch.
  destruct m; known_errs;
    auto using onlyStreamErr_readSOF, onlyStreamErr_ignoreMarker,
      onlyStreamErr_discard.
  all: by apply onlyStreamErr_discard.
Qed.

Lemma onlyKnownErr_scanBody : onlyKnownErr scanBody.
Proof.
  unfold scanBody, scanPass, peek. intros jr e jr'. unfold bind at 1.
  destruct (bufio.Peek (br jr) 16) as [buf [e0|]].
  - apply onlyKnownErr_ret_NoJPEGMarker.
  - revert jr e jr'.
    match goal with |- ∀ jr e jr', ?X jr = _ -> _ =>
      change (onlyKnownErr X) end.
    known_errs; auto using onlyKnownErr_scanSwitch.
Qed.

Lemma loop_known_errs fuel : ∀ jr e jr',
  loop scanBody fuel jr = Some (Ok (Some e), jr') ->
  e = ErrEndOfImage ∨ e = ErrNoJPEGMarker ∨ e = bufio.rerr (br jr).
Proof.
  induction fuel as [|fuel IH]; intros jr e jr'; [done|]. simpl.
  pose proof (forward_scanBody jr) as Hfw.
  destruct (scanBody jr) as [[[|err]|v] jr1] eqn:E; simpl in *.
  - intros H. apply IH in H. destruct Hfw as [_ _ <- _ _]. exact H.
  - intros [= -> <-]. by eapply onlyKnownErr_scanBody.
  - done.
Qed.

(** ** Runs of continuing passes *)

Lemma loop_after body n : ∀ jr0 jr fuel,
  after body n jr0 = Some jr ->
  loop body (n + fuel) jr0 = loop body fuel jr.
Proof.
  induction n as [|n IH]; intros jr0 jr fuel; simpl; [by intros [= ->]|].
  destruct (body jr0) as [[[|err]|v] jr1]; [|done..]. apply IH.
Qed.

Lemma after_length body n : ∀ jr0 jr,
  (∀ jr jr', body jr = (Ok Continue, jr') ->
     (length (bufio.rest (br jr')) < length (bufio.rest (br jr)))%nat) ->
  after body n jr0 = Some jr ->
  (n + length (bufio.rest (br jr)) ≤ length (bufio.rest (br jr0)))%nat.
Proof.
  intros jr0 jr Hb. revert jr0.
  induction n as [|n IH]; intros jr0; simpl; [intros [= ->]; lia|].
  destruct (body jr0) as [[[|err]|v] jr1] eqn:E; [|done..].
  intros H. apply IH in H. apply Hb in E. lia.
Qed.

(** The scan's result is the result of the pass that follows a run of
    continuing passes, if that pass returns. *)
Lemma scan_after body r E X n jr err jr' :
  (∀ jr jr', body jr = (Ok Continue, jr') ->
     (length (bufio.rest (br jr')) < length (bufio.rest (br jr)))%nat) ->
  after body n (newJPEGReader r E X) = Some jr ->
  body jr = (Ok (Return err), jr') ->
  scan body r E X = Some (Ok err, jr').
Proof.
  intros Hb Ha Hr. unfold scan.
  pose proof (after_length _ _ _ _ Hb Ha) as Hl. simpl in Hl.
  replace (S (length (bufio.rest r)))
    with (n + S (length (bufio.rest r) - n))%nat by lia.
  rewrite (loop_after _ _ _ _ _ Ha). simpl. by rewrite Hr.
Qed.

Lemma after_sameSof body n : ∀ jr0 jr,
  (∀ jr jr', body jr = (Ok Continue, jr') -> sof jr' = sof jr) ->
  after body n jr0 = Some jr -> sof jr = sof jr0.
Proof.
  intros jr0 jr Hb. revert jr0.
  induction n as [|n IH]; intros jr0; simpl; [by intros [= ->]|].
  destruct (body jr0) as [[[|err]|v] jr1] eqn:E; [|done..].
  intros H. apply IH in H. apply Hb in E. congruence.
Qed.

(** ** What a pass does at a given window *)

Lemma discard_enough i jr :
  0 < i -> i ≤ Z.of_nat (length (bufio.rest (br jr))) ->
  discard i jr = (Ok None, skip (Z.to_nat i) jr).
Proof.
  intros H0 Hle. unfold discard, bufio.Discard, skip.
  destruct (Z.eqb_spec i 0); [lia|].
  destruct (Z.ltb_spec i 0); [lia|].
  destruct (Z.leb_spec i (Z.of_nat (length (bufio.rest (br jr))))); [|lia].
  by rewrite Z2Nat.id by lia.
Qed.

Lemma discard_short i jr :
  Z.of_nat (length (bufio.rest (br jr))) < i ->
  discard i jr =
    (Ok (Some (bufio.rerr (br jr))), skip (length (bufio.rest (br jr))) jr).
Proof.
  intros Hlt. unfold discard, bufio.Discard, skip.
  destruct (Z.eqb_spec i 0); [lia|].
  destruct (Z.ltb_spec i 0); [lia|].
  by destruct (Z.leb_spec i (Z.of_nat (length (bufio.rest (br jr))))); [lia|].
Qed.

Lemma peek_enough n jr :
  (n ≤ length (bufio.rest (br jr)))%nat ->
  peek n jr =
    (Ok (mkSlice (take n (bufio.rest (br jr)))
                 (bufio.slack (br jr) (bufio.off (br jr)) n), None), jr).
Proof. intros H. unfold peek, bufio.Peek. by rewrite decide_True. Qed.

Lemma scanPass_short switch jr :
  (length (bufio.rest (br jr)) < 16)%nat ->
  scanPass switch jr = (Ok (Return (Some ErrNoJPEGMarker)), jr).
Proof.
  intros H. unfold scanPass, bind, peek, bufio.Peek.
  by rewrite decide_False by lia.
Qed.

Lemma scanPass_SOI switch jr tl :
  bufio.rest (br jr) = xff :: markerSOI :: tl -> (14 ≤ length tl)%nat ->
  scanPass switch jr = (Ok Continue, skip 2 (set_pos (wrap8 (pos jr + 1)) jr)).
Proof.
  intros Hr Hl. unfold scanPass. unfold bind at 1.
  rewrite peek_enough by (rewrite Hr; simpl; lia).
  rewrite Hr. cbn -[discard wrap8].
  rewrite !bool_decide_eq_true_2, decide_True by done.
  cbn -[discard wrap8]. unfold bind.
  rewrite discard_enough; [done|lia|simpl; rewrite Hr; simpl; lia].
Qed.

Lemma scanPass_marker switch jr c tl :
  bufio.rest (br jr) = xff :: c :: tl -> (14 ≤ length tl)%nat ->
  c ≠ markerSOI -> 0 < pos jr ->
  scanPass switch jr = switch (lookahead jr) c jr.
Proof.
  intros Hr Hl Hc Hp. unfold scanPass. unfold bind at 1.
  rewrite peek_enough by (rewrite Hr; simpl; lia).
  fold (lookahead jr). unfold lookahead at 1 2 4. rewrite Hr.
  unfold isMarkerFirstByte, isSOIMarker, index, bind, lift, get. simpl.
  rewrite bool_decide_eq_false_2 by done.
  destruct (Z.ltb_spec 0 (pos jr)); [|lia].
  unfold lookahead. by rewrite Hr.
Qed.

Lemma markerLength_lookahead jr b0 b1 hi lo tl :
  bufio.rest (br jr) = b0 :: b1 :: hi :: lo :: tl ->
  markerLength (lookahead jr) = Ok (b2z lo + b2z hi * 256).
Proof.
  intros Hr. unfold markerLength, lookahead, reslice. by rewrite Hr.
Qed.

Lemma bind_Ok {A B} (m : M A) (f : A -> M B) jr a jr1 :
  m jr = (Ok a, jr1) -> bind m f jr = f a jr1.
Proof. intros H. unfold bind. by rewrite H. Qed.

Lemma wrap32_wrap32 a k : wrap32 (a + wrap32 k) = wrap32 (a + k).
Proof. unfold wrap32. by rewrite Zplus_mod_idemp_r. Qed.

(** The Exif sub-reader, with a callback installed, the marker and prefix
    bytes and the TIFF header available and the byte order recognised:
    [remain] is the payload length as the revision computes it. *)
Lemma readExif_callback jr f hi lo t0 t1 t2 t3 t4 t5 t6 t7 tl o :
  ExifReader jr = Some f ->
  bufio.rest (br jr) =
    ([xff; markerAPP1; hi; lo] ++ exifPrefix
       ++ [t0; t1; t2; t3; t4; t5; t6; t7] ++ tl)%list ->
  meta.BinaryOrder (ofBytes [t0; t1; t2; t3; t4; t5; t6; t7]) = Ok (Some o) ->
  let len := b2z lo + b2z hi * 256 in
  let tiff := ([t0; t1; t2; t3; t4; t5; t6; t7] ++ tl)%list in
  let at_tiff := skip 10 jr in
  ∀ off, binary.Uint32 o (ofBytes [t4; t5; t6; t7]) = Ok off ->
  let header remain :=
    meta.NewExifHeader o off (discarded at_tiff) (wrap32 remain)
                       imagetype.ImageJPEG in
  (readExif (lookahead jr) jr =
     callExif f (header (len - exifPrefixLength)) at_tiff) ∧
  (jpeg_go.readExif (lookahead jr) jr =
     callExif f (header (wrap16 (len - exifPrefixLength))) at_tiff).
Proof.
  intros Hf Hr Ho len tiff at_tiff off Hoff header.
  change exifPrefix with [x45; x78; x69; x66; x00; x00] in Hr.
  change exifPrefixLength with 8 in *.
  cbn [app] in Hr.
  assert (discard (2 + 8) jr = (Ok None, at_tiff)) as Hd.
  { apply discard_enough; [done|]. rewrite Hr. cbn [length]. lia. }
  assert (peek (Z.to_nat 8) at_tiff =
    (Ok (mkSlice [t0; t1; t2; t3; t4; t5; t6; t7]
           (bufio.slack (br jr) (bufio.off (br jr) + 10) 8), None), at_tiff))
    as Hp.
  { unfold at_tiff, skip, peek, bufio.Peek. simpl. by rewrite Hr. }
  assert (∀ sp, meta.BinaryOrder
            (mkSlice [t0; t1; t2; t3; t4; t5; t6; t7] sp) = Ok (Some o)) as Hbo.
  { intros sp. revert Ho. unfold meta.BinaryOrder, reslice. by simpl. }
  assert (∀ sp, reslice (mkSlice [t0; t1; t2; t3; t4; t5; t6; t7] sp) 4 8
                = Ok (mkSlice [t4; t5; t6; t7] sp)) as Hre by done.
  assert (∀ sp, binary.Uint32 o (mkSlice [t4; t5; t6; t7] sp) = Ok off)
    as Hu by done.
  assert (∀ h, (let* err := callExif f h in
                match err with
                | Some e => ret (Some e)
                | None => discard 0
                end) at_tiff = callExif f h at_tiff) as Hc.
  { intros h. unfold bind, callExif, ret, discard.
    by destruct (cbOut _) as [[e|]|v]. }
  change (Z.to_nat 8) with 8%nat in Hp.
  split.
  - unfold readExif. rewrite (markerLength_lookahead _ _ _ _ _ _ Hr).
    unfold bind at 1, lift at 1. cbn beta iota.
    change exifPrefixLength with 8.
    unfold bind at 1. rewrite Hd. cbn beta iota.
    unfold bind at 1. change (Z.to_nat 8) with 8%nat. rewrite Hp.
    cbn beta iota.
    unfold bind at 1, get at 1. change (ExifReader at_tiff) with (ExifReader jr).
    rewrite Hf. cbn beta iota.
    unfold bind at 1, lift at 1. rewrite Hbo. cbn beta iota.
    unfold bind at 1, lift at 1. rewrite Hre. cbn beta iota.
    unfold bind at 1, lift at 1. rewrite Hu. cbn beta iota.
    unfold bind at 1, get at 1. apply Hc.
  - unfold jpeg_go.readExif. rewrite (markerLength_lookahead _ _ _ _ _ _ Hr).
    unfold bind at 1, lift at 1. cbn beta iota.
    change exifPrefixLength with 8.
    unfold bind at 1. rewrite Hd. cbn beta iota.
    unfold bind at 1. change (Z.to_nat 8) with 8%nat. rewrite Hp.
    cbn beta iota.
    unfold bind at 1, get at 1. change (ExifReader at_tiff) with (ExifReader jr).
    rewrite Hf. cbn beta iota.
    unfold bind at 1, lift at 1. rewrite Hbo. cbn beta iota.
    unfold bind at 1, lift at 1. rewrite Hre. cbn beta iota.
    unfold bind at 1, lift at 1. rewrite Hu. cbn beta iota.
    unfold bind at 1, get at 1. apply Hc.
Qed.

(** The ways a pass can go, by what the lookahead window shows. *)
Lemma scanPass_cases switch jr :
  ((length (bufio.rest (br jr)) < 16)%nat ∧
     scanPass switch jr = (Ok (Return (Some ErrNoJPEGMarker)), jr)) ∨
  (∃ b tl, bufio.rest (br jr) = b :: tl ∧ b ≠ xff ∧
     scanPass switch jr = (Ok Continue, skip 1 jr)) ∨
  (∃ tl, bufio.rest (br jr) = xff :: markerSOI :: tl ∧
     scanPass switch jr =
       (Ok Continue, skip 2 (set_pos (wrap8 (pos jr + 1)) jr))) ∨
  (∃ c tl, bufio.rest (br jr) = xff :: c :: tl ∧ c ≠ markerSOI ∧
     (14 ≤ length tl)%nat ∧
     ((0 < pos jr ∧ scanPass switch jr = switch (lookahead jr) c jr) ∨
      (pos jr ≤ 0 ∧ scanPass switch jr = (Ok (Return None), jr)))).
Proof.
  destruct (decide (length (bufio.rest (br jr)) < 16)%nat) as [Hs|Hl].
  { left. split; [done|]. by apply scanPass_short. }
  right.
  destruct (bufio.rest (br jr)) as [|b [|c tl]] eqn:Hr;
    [simpl in Hl; lia..|]. simpl in Hl.
  destruct (decide (b = xff)) as [->|Hb].
  - right. destruct (decide (c = markerSOI)) as [->|Hc].
    + left. exists tl. split; [done|]. apply (scanPass_SOI _ _ tl); [done|lia].
    + right. exists c, tl. split_and!; [done..|lia|].
      destruct (decide (0 < pos jr)) as [Hp|Hp].
      * left. split; [done|]. apply (scanPass_marker _ _ c tl); [done|lia|done..].
      * right. split; [lia|].
        unfold scanPass. unfold bind at 1.
        rewrite peek_enough by (rewrite Hr; simpl; lia). rewrite Hr.
        unfold isMarkerFirstByte, isSOIMarker, index, bind, lift, get. simpl.
        rewrite (bool_decide_eq_false_2 _ Hc).
        destruct (Z.ltb_spec 0 (pos jr)); [lia|]. reflexivity.
  - left. exists b, (c :: tl). split_and!; [done..|].
    unfold scanPass. unfold bind at 1.
    rewrite peek_enough by (rewrite Hr; simpl; lia). rewrite Hr.
    unfold isMarkerFirstByte, index, bind, lift. simpl.
    rewrite (bool_decide_eq_false_2 _ Hb). simpl. unfold bind.
    rewrite discard_enough; [done|lia|rewrite Hr; simpl; lia].
Qed.

(** At a Start-Of-Frame window the pass is [readSOF], which records the
    frame at nesting 1 only, and returns. *)
Lemma readSOF_frame jr h :
  frameAt jr = Some h ->
  ∃ err jr', readSOF (lookahead jr) jr = (Ok err, jr') ∧
    sof jr' = (if pos jr =? 1 then h else sof jr).
Proof.
  unfold frameAt.
  destruct (bufio.rest (br jr))
    as [|b0 [|m [|l1 [|l0 [|p [|h1 [|h0 [|w1 [|w0 [|c tl]]]]]]]]]] eqn:Hr;
    try done.
  destruct (bool_decide (b0 = xff) && isSOF m && bool_decide (6 ≤ length tl)%nat);
    [|done].
  intros [= <-].
  unfold readSOF. rewrite (markerLength_lookahead _ _ _ _ _ _ Hr).
  unfold lookahead. rewrite Hr. unfold bind, lift, get, reslice, index. simpl.
  destruct (pos jr =? 1); unfold modify, ret.
  - pose proof (sameSof_discard (b2z l0 + b2z l1 * 256 + 2)
      (set_sof (mkSofHeader (b2z h0 + b2z h1 * 256) (b2z w0 + b2z w1 * 256)
                            (b2z c)) jr)) as Hs.
    destruct (discard _ _) as [[err|v] jr'] eqn:Ed.
    + by exists err, jr'.
    + unfold discard in Ed. destruct (_ =? 0); [done|].
      by destruct (bufio.Discard _ _) as [[??]?].
  - pose proof (sameSof_discard (b2z l0 + b2z l1 * 256 + 2) jr) as Hs.
    destruct (discard _ _) as [[err|v] jr'] eqn:Ed.
    + by exists err, jr'.
    + unfold discard in Ed. destruct (_ =? 0); [done|].
      by destruct (bufio.Discard _ _) as [[??]?].
Qed.

Lemma frameAt_window jr h :
  frameAt jr = Some h ->
  ∃ m tl, bufio.rest (br jr) = xff :: m :: tl ∧ isSOF m = true ∧
    (14 ≤ length tl)%nat.
Proof.
  unfold frameAt.
  destruct (bufio.rest (br jr))
    as [|b0 [|m [|l1 [|l0 [|p [|h1 [|h0 [|w1 [|w0 [|c tl]]]]]]]]]] eqn:Hr;
    try done.
  destruct (bool_decide_reflect (b0 = xff)) as [->|]; [|done].
  destruct (isSOF m) eqn:Em; [|done].
  destruct (bool_decide_reflect (6 ≤ length tl)%nat); [|done].
  intros _. eexists _, _. split_and!; [done..|simpl; lia].
Qed.

Lemma frameAt_None jr c tl :
  bufio.rest (br jr) = xff :: c :: tl -> (14 ≤ length tl)%nat ->
  frameAt jr = None -> isSOF c = false.
Proof.
  intros Hr Hl. unfold frameAt. rewrite Hr.
  destruct tl as [|l1 [|l0 [|p [|h1 [|h0 [|w1 [|w0 [|c0 tl]]]]]]]];
    [simpl in Hl; lia..|].
  rewrite bool_decide_eq_true_2 by done. simpl in Hl.
  rewrite (bool_decide_eq_true_2 (6 ≤ length tl)%nat) by lia.
  by destruct (isSOF c).
Qed.

Lemma scanSwitch_SOF buf m : isSOF m = true ->
  scanSwitch buf m = (let* err := readSOF buf in ret (Return err)) ∧
  jpeg_go.scanSwitch buf m = (let* err := readSOF buf in ret (Return err)).
Proof. by destruct m. Qed.

Lemma framing_scanSwitch : framing scanSwitch.
Proof.
  split; [intros buf m Hm; by apply scanSwitch_SOF|apply sameSof_scanSwitch].
Qed.

Lemma framing_go_scanSwitch : framing jpeg_go.scanSwitch.
Proof.
  split; [intros buf m Hm; by apply scanSwitch_SOF|apply sameSof_go_scanSwitch].
Qed.

Lemma scanPass_sof switch jr :
  framing switch ->
  match frameAt jr with
  | Some h =>
      ∃ err jr', scanPass switch jr = (Ok (Return err), jr') ∧
        sof jr' = (if pos jr =? 1 then h else sof jr)
  | None => sof (scanPass switch jr).2 = sof jr
  end.
Proof.
  intros [Hsof Hother].
  destruct (scanPass_cases switch jr)
    as [[Hlen Hs]|[(b & tl & Hr & Hb & Hs)|[(tl & Hr & Hs)
        |(c & tl & Hr & Hc & Hl & [[Hp Hs]|[Hp Hs]])]]].
  - rewrite Hs. destruct (frameAt jr) as [h|] eqn:Ef; [|done].
    destruct (frameAt_window _ _ Ef) as (m & tl & Hr & _ & Hl).
    rewrite Hr in Hlen. simpl in Hlen. lia.
  - rewrite Hs. unfold frameAt. rewrite Hr.
    destruct tl as [|? [|? [|? [|? [|? [|? [|? [|? [|? ?]]]]]]]]]; try done.
    by rewrite bool_decide_eq_false_2.
  - rewrite Hs. unfold frameAt. rewrite Hr.
    by destruct tl as [|? [|? [|? [|? [|? [|? [|? [|? ?]]]]]]]].
  - destruct (frameAt jr) as [h|] eqn:Ef.
    + destruct (frameAt_window _ _ Ef) as (m & tl' & Hr' & Hm & _).
      rewrite Hr in Hr'. injection Hr' as -> ->.
      destruct (readSOF_frame _ _ Ef) as (err & jr' & Hrd & Hrec).
      exists err, jr'. split; [|done].
      rewrite Hs, (Hsof _ _ Hm). unfold bind. by rewrite Hrd.
    + rewrite Hs. apply Hother. by eapply frameAt_None.
  - rewrite Hs. destruct (frameAt jr) as [h|]; [|done].
    exists None, jr. split; [done|].
    by destruct (Z.eqb_spec (pos jr) 1); [lia|].
Qed.

Lemma scanPass_continue_sof switch jr jr' :
  framing switch ->
  scanPass switch jr = (Ok Continue, jr') -> sof jr' = sof jr.
Proof.
  intros Hf Hc. pose proof (scanPass_sof switch jr Hf) as H.
  destruct (frameAt jr) as [h|].
  - destruct H as (err & jr1 & Hr & _). congruence.
  - by rewrite Hc in H.
Qed.

(** The record a scan leaves when it arrives at a Start-Of-Frame window. *)
Lemma scan_frame switch r E X n jr h :
  framing switch -> (∀ buf m, progressing (switch buf m)) ->
  after (scanPass switch) n (newJPEGReader r E X) = Some jr ->
  frameAt jr = Some h ->
  ∃ err jr', scan (scanPass switch) r E X = Some (Ok err, jr') ∧
    scanPass switch jr = (Ok (Return err), jr') ∧
    sof jr' = (if pos jr =? 1 then h else mkSofHeader 0 0 0).
Proof.
  intros Hf Hp Ha Hh.
  pose proof (scanPass_sof switch jr Hf) as H. rewrite Hh in H.
  destruct H as (err & jr' & Hr & Hs).
  exists err, jr'. split_and!; [|done|].
  - eapply scan_after; [|done..]. intros ??. by apply scanPass_progress.
  - rewrite Hs.
    rewrite (after_sameSof _ _ _ _
               (fun a b => scanPass_continue_sof switch a b Hf) Ha).
    done.
Qed.

(** ** Segments that are skipped *)

Lemma b2z_z2b z : 0 ≤ z < 256 -> b2z (z2b z) = z.
Proof.
  intros Hz. unfold b2z, z2b.
  pose proof (Byte.to_of_N_option_map (Z.to_N z)) as H.
  destruct (N.leb_spec (Z.to_N z) 255); [|lia].
  destruct (Byte.of_N (Z.to_N z)) as [b|]; [|done].
  simpl in *. injection H as ->. lia.
Qed.

Lemma declared_bytes s :
  declared s < 65536 ->
  b2z (z2b (declared s mod 256)) + b2z (z2b (declared s / 256)) * 256
    = declared s.
Proof.
  intros H. assert (0 ≤ declared s) by (unfold declared; lia).
  rewrite !b2z_z2b.
  - pose proof (Z.div_mod (declared s) 256). lia.
  - split; [apply Z.div_pos; lia|apply Z.div_lt_upper_bound; lia].
  - apply Z.mod_pos_bound. lia.
Qed.

Lemma length_encode s : length (encode s) = (4 + length (payload s))%nat.
Proof. done. Qed.

Lemma substring_lookahead jr lo hi :
  (16 ≤ length (bufio.rest (br jr)))%nat -> (lo ≤ hi ≤ 16)%nat ->
  ∃ s, substring (lookahead jr) lo hi = Ok s.
Proof.
  intros Hl Hh. unfold substring, reslice, lookahead. simpl.
  rewrite decide_True; [by eexists|].
  rewrite length_app, length_take. lia.
Qed.

Lemma rest_skip k jr :
  bufio.rest (br (skip k jr)) = drop k (bufio.rest (br jr)).
Proof. done. Qed.

(** One pass over a skippable segment: it is discarded by its declared
    length, marker included, and the scan continues. *)
Lemma scanBody_skips s jr following :
  skippable s ->
  bufio.rest (br jr) = (encode s ++ following)%list ->
  (12 ≤ length (payload s ++ following))%nat ->
  0 < pos jr ->
  scanBody jr = (Ok Continue, skip (length (encode s)) jr).
Proof.
  intros [Hs Hd] Hr Hl Hp. unfold encode in Hr. cbn [app] in Hr.
  assert (16 ≤ length (bufio.rest (br jr)))%nat as Hl16.
  { rewrite Hr. cbn [length]. lia. }
  assert (code s ≠ markerSOI) as Hc.
  { intros E. unfold skipped in Hs. by rewrite E in Hs. }
  unfold scanBody. rewrite (scanPass_marker _ _ _ _ Hr); [|cbn [length]; lia|done..].
  assert (markerLength (lookahead jr) = Ok (declared s)) as Hm.
  { rewrite (markerLength_lookahead _ _ _ _ _ _ Hr). f_equal.
    by apply declared_bytes. }
  assert (discard (declared s + 2) jr
            = (Ok None, skip (length (encode s)) jr)) as Hdis.
  { rewrite discard_enough.
    - do 2 f_equal. rewrite length_encode. unfold declared. lia.
    - unfold declared. lia.
    - rewrite Hr. cbn [length]. rewrite length_app. unfold declared. lia. }
  assert (ignoreMarker (lookahead jr) jr
            = (Ok None, skip (length (encode s)) jr)) as Hi.
  { unfold ignoreMarker, bind, lift. by rewrite Hm. }
  unfold skipped in Hs. unfold scanSwitch.
  destruct (code s) eqn:Ec; try discriminate Hs.
  - (* DQT *) unfold bind. by rewrite Hi.
  - (* APP0, JFIF *)
    apply bool_decide_eq_true_1 in Hs.
    assert (isJFIFPrefix (lookahead jr) = Ok true) as Hj.
    { unfold isJFIFPrefix, substring, reslice, lookahead. rewrite Hr.
      destruct (payload s) as [|j0 [|j1 [|j2 [|j3 [|j4 p]]]]]; try done.
      simpl in *. injection Hs as -> -> -> -> ->. done. }
    unfold bind at 1, lift at 1. rewrite Hj. cbn beta iota.
    unfold bind at 1, lift at 1. cbn beta iota.
    unfold jfifHeader. rewrite Hj. cbn [res_bind]. rewrite Hm.
    unfold bind, lift. by rewrite Hdis.
  - (* APP2 *)
    destruct (substring_lookahead jr 4 15) as [x Hx]; [done|lia|].
    unfold isICCProfilePrefix, bind, lift. rewrite Hx. cbn [res_bind].
    destruct (bool_decide _); by rewrite Hi.
  - (* APP13 *)
    destruct (substring_lookahead jr 4 14) as [x Hx]; [done|lia|].
    unfold isPhotoshopPrefix, bind, lift. rewrite Hx. cbn [res_bind].
    destruct (bool_decide _); by rewrite Hi.
Qed.

(** A run of skippable segments is passed over, one pass each. *)
Lemma after_skips segs : ∀ jr following,
  Forall skippable segs ->
  bufio.rest (br jr) = (concat (map encode segs) ++ following)%list ->
  (16 ≤ length following)%nat ->
  0 < pos jr ->
  ∃ jr', after scanBody (length segs) jr = Some jr' ∧
    skippedTo (length (concat (map encode segs))) jr jr'.
Proof.
  induction segs as [|s segs IH]; intros jr following Hall Hr Hl Hp.
  { exists jr. split; [done|]. by split. }
  apply Forall_cons in Hall as [Hs Hall]. cbn [map concat] in Hr.
  rewrite <- app_assoc in Hr.
  assert (scanBody jr = (Ok Continue, skip (length (encode s)) jr)) as Hb.
  { eapply scanBody_skips; [done|exact Hr| |done].
    rewrite !length_app. lia. }
  destruct (IH (skip (length (encode s)) jr) following Hall) as
    (jr' & Ha & Hrest & Hpos & Hcalls); [|done..|].
  { by rewrite rest_skip, Hr, drop_app_length. }
  exists jr'. split; [simpl; by rewrite Hb|].
  split_and!; [|done..].
  rewrite Hrest, rest_skip, drop_drop. f_equal.
  cbn [map concat]. by rewrite length_app.
Qed.

Lemma readSOF_enough jr len :
  (16 ≤ length (bufio.rest (br jr)))%nat ->
  markerLength (lookahead jr) = Ok len ->
  len + 2 ≤ Z.of_nat (length (bufio.rest (br jr))) ->
  ∃ jr', readSOF (lookahead jr) jr = (Ok None, jr') ∧ calls jr' = calls jr.
Proof.
  intros Hl Hm Hfit. pose proof (markerLength_nonneg _ _ Hm) as H0.
  unfold readSOF. rewrite Hm. unfold lookahead.
  destruct (bufio.rest (br jr))
    as [|b0 [|m [|l1 [|l0 [|p [|h1 [|h0 [|w1 [|w0 [|c tl]]]]]]]]]] eqn:Hr;
    try (simpl in Hl; lia).
  unfold bind, lift, get, reslice, index. simpl.
  destruct (pos jr =? 1); unfold modify, ret;
    (rewrite discard_enough;
       [by eexists|lia|simpl; rewrite Hr; simpl in *; lia]).
Qed.

(** Whatever a scan leaves in the record was put there by its last pass,
    at a Start-Of-Frame window with the nesting counter at 1. *)
Lemma sof_written_by_last_pass switch fuel : ∀ jr out jr',
  framing switch ->
  loop (scanPass switch) fuel jr = Some (out, jr') ->
  sof jr' = sof jr ∨
  ∃ n jr1, after (scanPass switch) n jr = Some jr1 ∧ sof jr1 = sof jr ∧
    pos jr1 = 1 ∧ frameAt jr1 = Some (sof jr').
Proof.
  induction fuel as [|fuel IH]; intros jr out jr' Hfr; [done|]. simpl.
  pose proof (scanPass_sof switch jr Hfr) as Hs.
  destruct (scanPass switch jr) as [[[|err]|v] jr1] eqn:Eb.
  - intros Hl. assert (sof jr1 = sof jr) as Hk.
    { by eapply scanPass_continue_sof. }
    destruct (IH _ _ _ Hfr Hl) as [H|(n & jr2 & Ha & Hs2 & Hp & Hf)].
    + left. congruence.
    + right. exists (S n), jr2. simpl. rewrite Eb. split_and!; congruence.
  - intros [= <- <-]. destruct (frameAt jr) as [h|] eqn:Ef; [|by left].
    destruct Hs as (err' & jr2 & [= <- <-] & Hrec).
    destruct (Z.eqb_spec (pos jr) 1) as [Hp|]; [|by left].
    right. exists 0%nat, jr. split_and!; [done..|congruence].
  - intros [= <- <-]. destruct (frameAt jr) as [h|] eqn:Ef; [|by left].
    by destruct Hs as (err' & jr2 & [=] & Hrec).
Qed.

Lemma scan_sof_written_once switch r E X out jr' :
  framing switch ->
  scan (scanPass switch) r E X = Some (out, jr') ->
  sof jr' = mkSofHeader 0 0 0 ∨
  ∃ n jr, after (scanPass switch) n (newJPEGReader r E X) = Some jr ∧
    pos jr = 1 ∧ frameAt jr = Some (sof jr').
Proof.
  intros Hfr. unfold scan.
  destruct (loop _ _ _) as [[out0 jr0]|] eqn:El; [|done].
  intros [= _ <-].
  destruct (sof_written_by_last_pass _ _ _ _ _ Hfr El)
    as [H|(n & jr & Ha & _ & Hp & Hf)]; [by left|].
  right. by exists n, jr.
Qed.

(** ** The same segments in the earlier revision *)

Lemma bytesAt_spec buf p : ∀ i,
  (i + length p ≤ length (vis buf))%nat ->
  jpeg_go.bytesAt buf i p
    = Ok (bool_decide (take (length p) (drop i (vis buf)) = p)).
Proof.
  induction p as [|x p IH]; intros i Hl; simpl.
  { done. }
  simpl in Hl. unfold index.
  destruct (vis buf !! i) as [b|] eqn:Eb.
  2: { apply lookup_ge_None in Eb. lia. }
  simpl. rewrite (drop_S _ _ _ Eb). simpl.
  case_decide as Hbx.
  - subst b. rewrite IH by lia. f_equal.
    apply bool_decide_ext. split; [by intros ->|by intros [= ->]].
  - f_equal. symmetry. apply bool_decide_eq_false_2. by intros [= ? _].
Qed.

(** In the earlier revision the pass over such a segment discards it in
    the same way, and returns. *)
Lemma go_scanBody_returns_behind s jr following :
  skippable s ->
  bufio.rest (br jr) = (encode s ++ following)%list ->
  (12 ≤ length (payload s ++ following))%nat ->
  0 < pos jr ->
  jpeg_go.scanBody jr = (Ok (Return None), skip (length (encode s)) jr).
Proof.
  intros [Hs Hd] Hr Hl Hp. unfold encode in Hr. cbn [app] in Hr.
  assert (16 ≤ length (bufio.rest (br jr)))%nat as Hl16.
  { rewrite Hr. cbn [length]. lia. }
  assert (length (vis (lookahead jr)) = 16%nat) as Hv.
  { unfold lookahead. cbn [vis]. rewrite length_take. lia. }
  assert (code s ≠ markerSOI) as Hc.
  { intros E. unfold skipped in Hs. by rewrite E in Hs. }
  unfold jpeg_go.scanBody.
  rewrite (scanPass_marker _ _ _ _ Hr); [|cbn [length]; lia|done..].
  assert (markerLength (lookahead jr) = Ok (declared s)) as Hm.
  { rewrite (markerLength_lookahead _ _ _ _ _ _ Hr). f_equal.
    by apply declared_bytes. }
  assert (ignoreMarker (lookahead jr) jr
            = (Ok None, skip (length (encode s)) jr)) as Hi.
  { unfold ignoreMarker, bind, lift. rewrite Hm.
    rewrite discard_enough.
    - do 2 f_equal. rewrite length_encode. unfold declared. lia.
    - unfold declared. lia.
    - rewrite Hr. cbn [length]. rewrite length_app. unfold declared. lia. }
  unfold skipped in Hs. unfold jpeg_go.scanSwitch.
  destruct (code s) eqn:Ec; try discriminate Hs.
  - (* DQT *) unfold bind. by rewrite Hi.
  - (* APP0 *) unfold bind. by rewrite Hi.
  - (* APP2 *)
    unfold jpeg_go.isICCProfilePrefix. rewrite bytesAt_spec by (rewrite Hv; simpl; lia).
    unfold bind, lift. destruct (bool_decide _); by rewrite Hi.
  - (* APP13 *)
    unfold jpeg_go.isPhotoshopPrefix. rewrite bytesAt_spec by (rewrite Hv; simpl; lia).
    unfold bind, lift. destruct (bool_decide _); by rewrite Hi.
Qed.

(** [readSOF] on a frame header that is there in full: the segment is
    discarded by its declared length, marker included. *)
Lemma readSOF_skips jr len :
  (16 ≤ length (bufio.rest (br jr)))%nat ->
  markerLength (lookahead jr) = Ok len ->
  len + 2 ≤ Z.of_nat (length (bufio.rest (br jr))) ->
  ∃ jr', readSOF (lookahead jr) jr = (Ok None, jr') ∧ calls jr' = calls jr ∧
    bufio.rest (br jr') = drop (Z.to_nat (len + 2)) (bufio.rest (br jr)).
Proof.
  intros Hl Hm Hfit. pose proof (markerLength_nonneg _ _ Hm) as H0.
  unfold readSOF. rewrite Hm. unfold lookahead.
  destruct (bufio.rest (br jr))
    as [|b0 [|m [|l1 [|l0 [|p [|h1 [|h0 [|w1 [|w0 [|c tl]]]]]]]]]] eqn:Hr;
    try (simpl in Hl; lia).
  unfold bind, lift, get, reslice, index. simpl.
  destruct (pos jr =? 1); unfold modify, ret;
    (rewrite discard_enough;
       [eexists; split_and!; [reflexivity|done|];
          rewrite rest_skip; cbn [br set_sof]; by rewrite Hr
       |lia|simpl; rewrite Hr; simpl in *; lia]).
Qed.

Lemma skippable_not_DHT s : skippable s -> code s ≠ markerDHT.
Proof. intros [Hs _] E. unfold skipped in Hs. by rewrite E in Hs. Qed.

(** ** Where the errors of a scan come from *)

Lemma after_forward body n :
  preserves forward body ->
  ∀ jr jr', after body n jr = Some jr' -> forward jr jr'.
Proof.
  intros Hb. induction n as [|n IH]; intros jr jr'; simpl.
  { by intros [= ->]. }
  pose proof (Hb jr) as H.
  destruct (body jr) as [[[|err]|v] jr1]; simpl in H; [|done..].
  intros Ha. etrans; [exact H|]. by apply IH.
Qed.

(** A scan's result is the result of its last pass. *)
Lemma loop_last body fuel : ∀ jr out jr',
  loop body fuel jr = Some (out, jr') ->
  ∃ n jr0, after body n jr = Some jr0 ∧
    body jr0 = (match out with
                | Ok err => Ok (Return err)
                | Panic v => Panic v
                end, jr').
Proof.
  induction fuel as [|fuel IH]; intros jr out jr'; [done|]. simpl.
  destruct (body jr) as [[[|err]|v] jr1] eqn:Eb.
  - intros Hl. destruct (IH _ _ _ Hl) as (n & jr0 & Ha & Hb).
    exists (S n), jr0. simpl. by rewrite Eb.
  - intros [= <- <-]. by exists 0%nat, jr.
  - intros [= <- <-]. by exists 0%nat, jr.
Qed.

Lemma runsOut_discard i : 0 ≤ i -> runsOut (discard i).
Proof.
  intros Hi jr e jr'. unfold discard, bufio.Discard.
  destruct (Z.eqb_spec i 0); [done|].
  destruct (Z.ltb_spec i 0); [lia|].
  destruct (Z.leb_spec i (Z.of_nat (length (bufio.rest (br jr))))); [done|].
  intros [= <- <-]. split; [done|]. simpl. by rewrite drop_all.
Qed.

Lemma runsOut_ignoreMarker buf : runsOut (ignoreMarker buf).
Proof.
  intros jr e jr'. unfold ignoreMarker, bind, lift.
  destruct (markerLength buf) as [len|] eqn:El; [|done].
  apply runsOut_discard. apply markerLength_nonneg in El. lia.
Qed.

Lemma runsOut_readSOF buf : runsOut (readSOF buf).
Proof.
  intros jr e jr'. unfold readSOF, bind, lift, get.
  destruct (markerLength buf) as [len|] eqn:El; [|done].
  destruct (let? b := reslice buf 5 7 in _) as [h|]; [|done].
  destruct (let? b := reslice buf 7 9 in _) as [w|]; [|done].
  destruct (let? b := index buf 9 in _) as [c|]; [|done].
  apply markerLength_nonneg in El.
  destruct (pos jr =? 1); unfold modify, ret; intros H;
    apply runsOut_discard in H; (done || lia).
Qed.

Lemma endsWith_return (m : M (option error)) :
  runsOut m -> endsWith true (bind m (fun e => ret (Return e))).
Proof.
  intros Hm jr e jr'. unfold bind, ret.
  destruct (m jr) as [[a|v] jr1] eqn:E; [|done].
  intros [= -> <-]. right. split; [done|]. by eapply Hm.
Qed.

Lemma endsWith_continue b {A} (m : M A) :
  endsWith b (bind m (fun _ => ret Continue)).
Proof. intros jr e jr'. unfold bind, ret. by destruct (m jr) as [[a|v] jr1]. Qed.

Lemma endsWith_lift_bind b {A} (r : res A) (f : A -> M step) :
  (∀ a, endsWith b (f a)) -> endsWith b (bind (lift r) f).
Proof.
  intros Hf jr e jr'. unfold bind, lift.
  destruct r as [a|v]; [|done]. by apply Hf.
Qed.

Lemma endsWith_get_bind b {A} (g : jpegReader -> A) (f : A -> M step) :
  (∀ a, endsWith b (f a)) -> endsWith b (bind (get g) f).
Proof. intros Hf jr e jr'. unfold bind, get. by apply Hf. Qed.

Lemma endsWith_modify_bind b (g : jpegReader -> jpegReader) (k : M step) :
  (∀ jr, br (g jr) = br jr) -> endsWith b k ->
  endsWith b (bind (modify g) (fun _ => k)).
Proof.
  intros Hg Hk jr e jr'. unfold bind, modify. intros H.
  rewrite <- (Hg jr). by eapply Hk.
Qed.

Lemma endsWith_ret_nil b : endsWith b (ret (Return None)).
Proof. by intros jr e jr'. Qed.

Lemma endsWith_ret_EndOfImage b :
  endsWith b (ret (Return (Some ErrEndOfImage))).
Proof. intros jr e jr' [= <- _]. by left. Qed.

Ltac ends_with :=
  repeat match goal with
  | |- endsWith true (bind _ (fun e => ret (Return e))) =>
      apply endsWith_return
  | |- endsWith _ (bind _ (fun _ => ret Continue)) =>
      apply endsWith_continue
  | |- endsWith _ (bind (lift _) _) => apply endsWith_lift_bind; intros
  | |- endsWith _ (bind (get _) _) => apply endsWith_get_bind; intros
  | |- endsWith _ (bind (modify _) _) =>
      apply endsWith_modify_bind; [done|]
  | |- endsWith _ (ret (Return None)) => apply endsWith_ret_nil
  | |- endsWith _ (ret (Return (Some ErrEndOfImage))) =>
      apply endsWith_ret_EndOfImage
  | |- endsWith _ (if ?b then _ else _) => destruct b
  | |- endsWith _ (match ?x with _ => _ end) => destruct x
  end.

(** In the latest revision an error other than the sentinel leaves the
    [switch] only from a case that ends the scan, when the stream has run
    out under its discard. *)
Lemma endsWith_scanSwitch buf m :
  m ≠ markerSOI -> endsWith (ending m) (scanSwitch buf m).
Proof.
  intros Hm. unfold scanSwitch.
  destruct m; try done; cbn [ending]; ends_with;
    auto using runsOut_readSOF, runsOut_ignoreMarker.
  all: by apply runsOut_discard.
Qed.

Lemma scanBody_error_origin jr e jr' :
  scanBody jr = (Ok (Return (Some e)), jr') ->
  e = ErrEndOfImage ∨ e = ErrNoJPEGMarker ∨
  (e = bufio.rerr (br jr) ∧ bufio.rest (br jr') = [] ∧
   ∃ m tl, bufio.rest (br jr) = xff :: m :: tl ∧ ending m = true).
Proof.
  unfold scanBody.
  destruct (scanPass_cases scanSwitch jr)
    as [[_ ->]|[(b & tl & _ & _ & ->)|[(tl & _ & ->)
        |(c & tl & Hr & Hc & _ & [[_ ->]|[_ ->]])]]]; try done.
  - intros [= <- _]. auto.
  - intros H. apply (endsWith_scanSwitch _ _ Hc) in H.
    destruct H as [->|(Hend & -> & Hrest)]; [by left|].
    right; right. split_and!; [done..|]. by exists c, tl.
Qed.

(** ** The errors the earlier revision returns *)

Lemma knownGo_forward jr jr' e :
  forward jr jr' -> knownGo jr' e -> knownGo jr e.
Proof.
  intros [He Hx Hr _ _]. unfold knownGo. by rewrite He, Hx, Hr.
Qed.

Lemma errsGo_discard i : errsGo (discard i).
Proof.
  intros jr e jr'. unfold discard, bufio.Discard, knownGo.
  destruct (Z.eqb_spec i 0); [done|].
  destruct (Z.ltb_spec i 0); [intros [= <- _]; auto|].
  destruct (Z.leb_spec i (Z.of_nat (length (bufio.rest (br jr))))); [done|].
  intros [= <- _]. auto.
Qed.

Lemma errsGo_ignoreMarker buf : errsGo (ignoreMarker buf).
Proof.
  intros jr e jr'. unfold ignoreMarker, bind, lift.
  destruct (markerLength buf) as [len|]; [|done]. apply errsGo_discard.
Qed.

Lemma errsGo_readSOF buf : errsGo (readSOF buf).
Proof.
  intros jr e jr'. unfold readSOF, bind, lift, get.
  destruct (markerLength buf) as [len|]; [|done].
  destruct (let? b := reslice buf 5 7 in _) as [h|]; [|done].
  destruct (let? b := reslice buf 7 9 in _) as [w|]; [|done].
  destruct (let? b := index buf 9 in _) as [c|]; [|done].
  destruct (pos jr =? 1); unfold modify, ret; intros H;
    by apply errsGo_discard in H.
Qed.

(** What is computed behind a discard sees the same callbacks and the same
    stream error. *)
Lemma errsGo_behind_discard i (k : M (option error)) :
  errsGo k ->
  errsGo (bind (discard i)
            (fun err => match err with Some e => ret (Some e) | None => k end)).
Proof.
  intros Hk jr e jr'. unfold bind.
  pose proof (forward_discard i jr) as Hf.
  destruct (discard i jr) as [[[e1|]|v] jr1] eqn:Ed; simpl in Hf; [| |done].
  - intros [= <- _]. by eapply errsGo_discard.
  - intros H. eapply knownGo_forward; [exact Hf|]. by eapply Hk.
Qed.

Lemma errsGo_readXMP buf : errsGo (readXMP buf).
Proof.
  unfold readXMP. intros jr e jr'. unfold bind at 1, lift at 1.
  destruct (markerLength buf) as [len|]; [|done]. revert jr e jr'.
  apply errsGo_behind_discard. intros jr e jr'. unfold bind at 1, get at 1.
  destruct (XMPReader jr) as [f|] eqn:Ef; [|apply errsGo_discard].
  unfold bind, callXMP.
  destruct (cbOut (f _)) as [[e1|]|v] eqn:Ec; cbn [res_bind]; [| |done].
  - intros [= <- _]. unfold knownGo, answered. do 4 right. right.
    exists f. eexists. by split.
  - intros H. apply errsGo_discard in H. revert H. unfold knownGo. simpl. tauto.
Qed.

Lemma errsGo_go_readExif buf : errsGo (jpeg_go.readExif buf).
Proof.
  unfold jpeg_go.readExif. intros jr e jr'. unfold bind at 1, lift at 1.
  destruct (markerLength buf) as [len|]; [|done]. revert jr e jr'.
  apply errsGo_behind_discard. intros jr e jr'.
  unfold bind at 1, peek at 1, bufio.Peek.
  case_decide as Hn.
  2: { intros [= <- _]. unfold knownGo. auto. }
  unfold bind at 1, get at 1.
  destruct (ExifReader jr) as [f|] eqn:Ef; [|apply errsGo_discard].
  unfold bind at 1, lift at 1.
  destruct (meta.BinaryOrder _) as [[o|]|]; [|done..].
  unfold bind at 1, lift at 1. destruct (reslice _ 4 8) as [b48|]; [|done].
  unfold bind at 1, lift at 1. destruct (binary.Uint32 o b48) as [off|]; [|done].
  unfold bind at 1, get at 1. unfold bind, callExif.
  destruct (cbOut (f _ _)) as [[e1|]|v] eqn:Ec; [| |done].
  - intros [= <- _]. unfold knownGo, answered. do 4 right. left.
    exists f. eexists _, _. by split.
  - intros H. by apply errsGo_discard in H.
Qed.

Lemma errsGo_go_readAPP1 buf : errsGo (jpeg_go.readAPP1 buf).
Proof.
  unfold jpeg_go.readAPP1. intros jr e jr'. unfold bind at 1, lift at 1.
  destruct (jpeg_go.isXMPPrefix buf) as [[|]|]; [apply errsGo_readXMP| |done].
  unfold bind at 1, lift at 1.
  destruct (jpeg_go.isJpegExifPrefix buf) as [[|]|];
    [apply errsGo_go_readExif|done..].
Qed.

Lemma passErrsGo_return (m : M (option error)) :
  errsGo m -> passErrsGo (bind m (fun e => ret (Return e))).
Proof.
  intros Hm jr e jr'. unfold bind, ret.
  destruct (m jr) as [[a|v] jr1] eqn:E; [|done].
  intros [= -> <-]. by eapply Hm.
Qed.

Lemma passErrsGo_lift_bind {A} (r : res A) (f : A -> M step) :
  (∀ a, passErrsGo (f a)) -> passErrsGo (bind (lift r) f).
Proof.
  intros Hf jr e jr'. unfold bind, lift.
  destruct r as [a|v]; [|done]. by apply Hf.
Qed.

Lemma passErrsGo_get_bind {A} (g : jpegReader -> A) (f : A -> M step) :
  (∀ a, passErrsGo (f a)) -> passErrsGo (bind (get g) f).
Proof. intros Hf jr e jr'. unfold bind, get. by apply Hf. Qed.

Lemma passErrsGo_set_pos p (k : M step) :
  passErrsGo k -> passErrsGo (bind (modify (set_pos p)) (fun _ => k)).
Proof. intros Hk jr e jr'. unfold bind, modify. intros H. by apply Hk in H. Qed.

Lemma passErrsGo_ret_nil : passErrsGo (ret (Return None)).
Proof. by intros jr e jr'. Qed.

Lemma passErrsGo_ret_EndOfImage :
  passErrsGo (ret (Return (Some ErrEndOfImage))).
Proof. intros jr e jr' [= <- _]. by left. Qed.

Ltac go_errs :=
  repeat match goal with
  | |- passErrsGo (bind _ (fun e => ret (Return e))) =>
      apply passErrsGo_return
  | |- passErrsGo (bind (lift _) _) => apply passErrsGo_lift_bind; intros
  | |- passErrsGo (bind (get _) _) => apply passErrsGo_get_bind; intros
  | |- passErrsGo (bind (modify (set_pos _)) _) => apply passErrsGo_set_pos
  | |- passErrsGo (ret (Return None)) => apply passErrsGo_ret_nil
  | |- passErrsGo (ret (Return (Some ErrEndOfImage))) =>
      apply passErrsGo_ret_EndOfImage
  | |- passErrsGo (if ?b then _ else _) => destruct b
  | |- passErrsGo (match ?x with _ => _ end) => destruct x
  end.

Lemma passErrsGo_scanSwitch buf m : passErrsGo (jpeg_go.scanSwitch buf m).
Proof.
  unfold jpeg_go.scanSwitch.
  destruct m; go_errs;
    auto using errsGo_readSOF, errsGo_ignoreMarker, errsGo_discard,
      errsGo_go_readAPP1.
Qed.

Lemma passErrsGo_scanBody : passErrsGo jpeg_go.scanBody.
Proof.
  intros jr e jr'. unfold jpeg_go.scanBody.
  destruct (scanPass_cases jpeg_go.scanSwitch jr)
    as [[_ ->]|[(b & tl & _ & _ & ->)|[(tl & _ & ->)
        |(c & tl & Hr & Hc & _ & [[_ ->]|[_ ->]])]]]; try done.
  - intros [= <- _]. unfold knownGo. auto.
  - apply passErrsGo_scanSwitch.
Qed.

Lemma loop_known_errs_go fuel : ∀ jr e jr',
  loop jpeg_go.scanBody fuel jr = Some (Ok (Some e), jr') -> knownGo jr e.
Proof.
  induction fuel as [|fuel IH]; intros jr e jr'; [done|]. simpl.
  pose proof (forward_go_scanBody jr) as Hfw.
  destruct (jpeg_go.scanBody jr) as [[[|err]|v] jr1] eqn:E; simpl in *.
  - intros H. apply IH in H. by eapply knownGo_forward.
  - intros [= -> <-]. by eapply passErrsGo_scanBody.
  - done.
Qed.


(** * The scan over the caller's stream *)

(** ** The scripts are the methods *)

#[global] Instance same_equivalence {A} : Equivalence (@same A).
Proof.
  split.
  - by intros m jr.
  - intros m1 m2 H jr. by rewrite H.
  - intros m1 m2 m3 H1 H2 jr. by rewrite H1, H2.
Qed.


















(** ** The buffer during a scan *)

Section Buffer.
Context (grant : nat -> nat -> nat).

(** Run with the buffer followed, a script does to the scanner what it
    does without. *)
Lemma counted_run {A} (p : script.prog A) : ∀ jr held,
  (counted.run grant p jr held).1 = script.run p jr.
Proof.
  induction p as [a|X o k IH]; intros jr held; simpl; [done|].
  unfold bind. destruct (script.exec o jr) as [[x|v] jr1]; [apply IH|done].
Qed.

Lemma delivers_le r held room :
  (buffered.delivers grant r held room ≤ room ∧
   buffered.delivers grant r held room ≤ length (bufio.rest r) - held)%nat.
Proof. unfold buffered.delivers. lia. Qed.

Lemma delivers_pos r held room :
  (0 < room)%nat -> (held < length (bufio.rest r))%nat ->
  (0 < buffered.delivers grant r held room)%nat.
Proof. unfold buffered.delivers. lia. Qed.

Lemma fill_fits r held :
  fits r held -> fits r (buffered.fill grant r held).
Proof.
  intros [Hs Hr]. unfold fits, buffered.fill.
  pose proof (delivers_le r held (buffered.bufferSize - held)). lia.
Qed.

Lemma fillUpTo_fits fuel n r : ∀ held,
  fits r held ->
  fits r (buffered.fillUpTo grant fuel n r held) ∧
  (held ≤ buffered.fillUpTo grant fuel n r held)%nat.
Proof.
  induction fuel as [|fuel IH]; intros held Hf; simpl; [done|].
  case_decide as Hc; [|done]. case_decide as Hd; [done|].
  destruct (IH _ (fill_fits _ _ Hf)) as [H1 H2]. split; [done|].
  unfold buffered.fill in *. lia.
Qed.



Lemma length_rest_advance k r :
  length (bufio.rest (bufio.advance k r)) = (length (bufio.rest r) - k)%nat.
Proof. unfold bufio.advance. simpl. by rewrite length_drop. Qed.

Lemma skipLoop_fits fuel : ∀ remain r held,
  fits r held -> (0 < remain ≤ fuel)%nat ->
  (buffered.skipLoop grant fuel remain r held ≤ buffered.bufferSize ∧
   buffered.skipLoop grant fuel remain r held
     ≤ length (bufio.rest r) - remain)%nat.
Proof.
  induction fuel as [|fuel IH]; intros remain r held [Hs Hr] Hrem; [lia|].
  simpl.
  pose proof (delivers_le r 0 (buffered.bufferSize - 0)) as Hd.
  pose proof (delivers_pos r 0 (buffered.bufferSize - 0)) as Hp.
  set (held1 := if decide (held = 0%nat) then buffered.fill grant r 0
                else held).
  assert (held1 ≤ buffered.bufferSize ∧ held1 ≤ length (bufio.rest r))%nat
    as [Hs1 Hr1].
  { unfold held1, buffered.fill. case_decide; lia. }
  assert (held1 = 0 -> length (bufio.rest r) = 0)%nat as Hz.
  { unfold held1, buffered.fill, buffered.bufferSize in *.
    case_decide; lia. }
  case_decide as Hdone; [lia|]. case_decide as Hnone; [lia|].
  destruct (IH (remain - Nat.min held1 remain)%nat
               (bufio.advance (Nat.min held1 remain) r)
               (held1 - Nat.min held1 remain)%nat) as [H1 H2].
  - unfold fits. rewrite length_rest_advance. lia.
  - lia.
  - rewrite length_rest_advance in H2. lia.
Qed.

Lemma Read_fits r held want :
  fits r held -> (0 < want)%nat ->
  let '(n, held') := buffered.Read grant r held want in
  (n ≤ want ∧ n ≤ length (bufio.rest r) ∧
   held' ≤ buffered.bufferSize ∧ held' ≤ length (bufio.rest r) - n ∧
   (n = 0 -> held' = 0 ∧ length (bufio.rest r) = 0))%nat.
Proof.
  intros [Hs Hr] Hw. unfold buffered.Read.
  pose proof (delivers_le r 0 want).
  pose proof (delivers_pos r 0 want).
  pose proof (delivers_le r 0 buffered.bufferSize).
  pose proof (delivers_pos r 0 buffered.bufferSize).
  unfold buffered.bufferSize in *.
  repeat case_decide; lia.
Qed.

Lemma readLoop_fits fuel : ∀ remain r held,
  fits r held -> (0 < remain ≤ fuel)%nat ->
  (buffered.readLoop grant fuel remain r held ≤ buffered.bufferSize ∧
   buffered.readLoop grant fuel remain r held
     ≤ length (bufio.rest r) - remain)%nat.
Proof.
  induction fuel as [|fuel IH]; intros remain r held Hf Hrem; [lia|].
  simpl. pose proof (Read_fits r held remain Hf) as HR.
  destruct (buffered.Read grant r held remain) as [n held'].
  destruct HR as (H1 & H2 & H3 & H4 & H5); [lia|].
  case_decide as Hdone; [lia|].
  destruct (IH (remain - n)%nat (bufio.advance n r) held') as [H6 H7].
  - unfold fits. rewrite length_rest_advance. lia.
  - lia.
  - rewrite length_rest_advance in H7. lia.
Qed.

Lemma ReadFull_fits r held n :
  fits r held -> (n ≤ length (bufio.rest r))%nat ->
  fits (bufio.advance n r) (buffered.ReadFull grant r held n).
Proof.
  intros Hf Hn. unfold buffered.ReadFull, fits.
  rewrite length_rest_advance.
  destruct n as [|n]; [simpl; destruct Hf; lia|].
  apply readLoop_fits; [done|lia].
Qed.

(** Every operation leaves the buffer with no more than its size and no
    more than is left of the stream. *)
Lemma tally_fits {X} (o : script.op X) jr held :
  fits (br jr) held ->
  fits (br (script.exec o jr).2) (counted.tally grant o jr held).
Proof.
  intros Hf. destruct o; simpl; try done.
  - by apply fillUpTo_fits.
  - unfold discard, bufio.Discard, buffered.Discard.
    destruct (Z.eqb_spec i 0); [done|].
    destruct (Z.ltb_spec i 0).
    { destruct (Z.leb_spec i 0); [done|lia]. }
    destruct (Z.leb_spec i 0); [lia|].
    pose proof (skipLoop_fits (Z.to_nat i) (Z.to_nat i) (br jr) held Hf)
      as [H1 H2]; [lia|].
    destruct (Z.leb_spec i (Z.of_nat (length (bufio.rest (br jr)))));
      simpl; unfold fits; rewrite length_rest_advance; lia.
  - apply ReadFull_fits; [done|lia].
  - apply ReadFull_fits; [done|]. rewrite length_take. lia.
Qed.

Lemma run_fits {A} (p : script.prog A) : ∀ jr held,
  fits (br jr) held ->
  fits (br (counted.run grant p jr held).1.2) (counted.run grant p jr held).2.
Proof.
  induction p as [a|X o k IH]; intros jr held Hf; simpl; [done|].
  pose proof (tally_fits o jr held Hf) as Ht.
  destruct (script.exec o jr) as [[x|v] jr1]; simpl in *; [by apply IH|done].
Qed.




(** With the buffer followed the scan returns what it returns without, in
    the same state; and at its end the buffer holds no more than its size
    and no more than is left of the stream. *)
Lemma counted_loop_is_loop body shallow fuel :
  same (script.run body) shallow ->
  ∀ jr held, fits (br jr) held ->
  match counted.loop grant body fuel jr held with
  | Some (out, jr', held') =>
      loop shallow fuel jr = Some (out, jr') ∧ fits (br jr') held'
  | None => loop shallow fuel jr = None
  end.
Proof.
  intros Hs. induction fuel as [|fuel IH]; intros jr held Hf; simpl; [done|].
  pose proof (counted_run body jr held) as Hrun.
  pose proof (run_fits body jr held Hf) as Hfit.
  rewrite <- Hs, <- Hrun.
  destruct (counted.run grant body jr held) as [[out jr1] held1].
  simpl in *. destruct out as [[|err]|v]; [by apply IH|done..].
Qed.

Lemma counted_scan_is_scan body shallow r E X :
  same (script.run body) shallow ->
  match counted.scan grant body r E X with
  | Some (out, jr, held) =>
      scan shallow r E X = Some (out, jr) ∧ fits (br jr) held
  | None => scan shallow r E X = None
  end.
Proof.
  intros Hs. unfold counted.scan, counted.newJPEGReader, scan.
  pose proof (counted_loop_is_loop body shallow (S (length (bufio.rest r)))
                Hs (newJPEGReader r E X) 0%nat) as H.
  destruct (counted.loop _ _ _ _ _) as [[[out jr] held]|].
  - destruct H as [-> Hf]; [split; simpl; lia|]. done.
  - rewrite H; [done|]. split; simpl; lia.
Qed.


End Buffer.



(** * The claims about the scanner *)

(** The result of a scan, without the final state. *)
Abbreviation result s := (fst <$> s) (only parsing).

(** C1 (as amended).  At an Exif APP1 segment whose ten marker-and-prefix
    bytes and eight TIFF-header bytes are there and whose byte-order mark is
    recognised, with an Exif callback installed, [readExif] computes the
    payload length as the declared length minus [exifPrefixLength], discards
    the ten marker and prefix bytes, reads byte order and first-IFD offset
    (in that order) from the peeked TIFF header, and calls the callback on
    the reader standing at the TIFF block, with a header whose origin is the
    count of bytes discarded so far and whose length is the payload length.
    Its result is the callback's; after the callback it discards nothing:
    the reader stays where the callback left it and the count of discarded
    bytes stays at the TIFF block's origin. *)
Theorem C1_readExif_hands_over_tiff_block
    jr f hi lo t0 t1 t2 t3 t4 t5 t6 t7 tl o off :
  ExifReader jr = Some f ->
  bufio.rest (br jr) =
    ([xff; markerAPP1; hi; lo] ++ exifPrefix
       ++ [t0; t1; t2; t3; t4; t5; t6; t7] ++ tl)%list ->
  meta.BinaryOrder (ofBytes [t0; t1; t2; t3; t4; t5; t6; t7]) = Ok (Some o) ->
  binary.Uint32 o (ofBytes [t4; t5; t6; t7]) = Ok off ->
  let len := b2z lo + b2z hi * 256 in
  let tiff := ([t0; t1; t2; t3; t4; t5; t6; t7] ++ tl)%list in
  let h := meta.NewExifHeader o off (wrap32 (discarded jr + 10))
             (wrap32 (len - exifPrefixLength)) imagetype.ImageJPEG in
  let consumed := Nat.min (cbRead (f tiff h)) (length tiff) in
  ∃ jr', readExif (lookahead jr) jr = (cbOut (f tiff h), jr') ∧
    calls jr' = (calls jr ++ [CallExif tiff h])%list ∧
    bufio.rest (br jr') = drop consumed tiff ∧
    discarded jr' = wrap32 (discarded jr + 10).
Proof.
  intros Hf Hr Ho Hoff len tiff h consumed.
  destruct (readExif_callback jr f hi lo t0 t1 t2 t3 t4 t5 t6 t7 tl o
              Hf Hr Ho off Hoff) as [H _].
  rewrite H. unfold callExif.
  assert (bufio.rest (br (skip 10 jr)) = tiff) as Ht.
  { rewrite rest_skip, Hr. done. }
  rewrite Ht. eexists. split; [reflexivity|]. simpl. by rewrite Hr.
Qed.

(** The earlier revision differs in the payload length only, which it
    computes in 16 bits. *)
Lemma readExif_go_hands_over_tiff_block
    jr f hi lo t0 t1 t2 t3 t4 t5 t6 t7 tl o off :
  ExifReader jr = Some f ->
  bufio.rest (br jr) =
    ([xff; markerAPP1; hi; lo] ++ exifPrefix
       ++ [t0; t1; t2; t3; t4; t5; t6; t7] ++ tl)%list ->
  meta.BinaryOrder (ofBytes [t0; t1; t2; t3; t4; t5; t6; t7]) = Ok (Some o) ->
  binary.Uint32 o (ofBytes [t4; t5; t6; t7]) = Ok off ->
  let len := b2z lo + b2z hi * 256 in
  let tiff := ([t0; t1; t2; t3; t4; t5; t6; t7] ++ tl)%list in
  let h := meta.NewExifHeader o off (wrap32 (discarded jr + 10))
             (wrap32 (wrap16 (len - exifPrefixLength))) imagetype.ImageJPEG in
  let consumed := Nat.min (cbRead (f tiff h)) (length tiff) in
  ∃ jr', jpeg_go.readExif (lookahead jr) jr = (cbOut (f tiff h), jr') ∧
    calls jr' = (calls jr ++ [CallExif tiff h])%list ∧
    bufio.rest (br jr') = drop consumed tiff ∧
    discarded jr' = wrap32 (discarded jr + 10).
Proof.
  intros Hf Hr Ho Hoff len tiff h consumed.
  destruct (readExif_callback jr f hi lo t0 t1 t2 t3 t4 t5 t6 t7 tl o
              Hf Hr Ho off Hoff) as [_ H].
  rewrite H. unfold callExif.
  assert (bufio.rest (br (skip 10 jr)) = tiff) as Ht.
  { rewrite rest_skip, Hr. done. }
  rewrite Ht. eexists. split; [reflexivity|]. simpl. by rewrite Hr.
Qed.

(** Without a callback, [readExif] discards the payload by its length. *)
Lemma readExif_nil_discards jr hi lo payload tl :
  ExifReader jr = None ->
  bufio.rest (br jr) =
    ([xff; markerAPP1; hi; lo] ++ exifPrefix ++ payload ++ tl)%list ->
  (8 ≤ length payload)%nat ->
  b2z lo + b2z hi * 256 = Z.of_nat (length payload) + 8 ->
  ∃ jr', readExif (lookahead jr) jr = (Ok None, jr') ∧
    bufio.rest (br jr') = tl ∧ calls jr' = calls jr.
Proof.
  intros Hf Hr Hl Hlen.
  change exifPrefix with [x45; x78; x69; x66; x00; x00] in Hr.
  cbn [app] in Hr.
  unfold readExif. rewrite (markerLength_lookahead _ _ _ _ _ _ Hr).
  unfold bind at 1, lift at 1. cbn beta iota.
  change exifPrefixLength with 8. unfold bind at 1.
  rewrite discard_enough; [|done|rewrite Hr; cbn [length]; lia].
  change (Z.to_nat (2 + 8)) with 10%nat.
  cbn beta iota. unfold bind at 1. change (Z.to_nat 8) with 8%nat.
  assert (drop 10 (bufio.rest (br jr)) = (payload ++ tl)%list) as Hdrop
    by (by rewrite Hr).
  rewrite peek_enough by (rewrite rest_skip, Hdrop, length_app; lia).
  cbn beta iota. unfold bind at 1, get at 1.
  change (ExifReader (skip _ jr)) with (ExifReader jr). rewrite Hf.
  rewrite discard_enough.
  - eexists. split; [reflexivity|]. split; [|done].
    rewrite !rest_skip, Hdrop.
    replace (Z.to_nat (b2z lo + b2z hi * 256 - 8)) with (length payload)
      by lia.
    by rewrite drop_app_length.
  - lia.
  - rewrite rest_skip, Hdrop, length_app. lia.
Qed.

(** C1, the claim as stated fails: with a callback that reads nothing, the
    fourteen payload bytes of the Exif segment are still in the stream when
    [readExif] returns; the scanner has not discarded them. *)
Lemma C1_unconsumed_payload_is_not_discarded :
  let jr := newJPEGReader
              (bufio.ofBytes (samples.exifSegment ++ samples.DQT) EOF)
              (Some samples.notesHeader) None in
  let jr' := (readExif (lookahead jr) jr).2 in
  (readExif (lookahead jr) jr).1 = Ok None ∧
  bufio.rest (br jr') = (samples.tiffBlock ++ samples.DQT)%list ∧
  bufio.rest (br jr') ≠ samples.DQT.
Proof. vm_compute. split_and!; [reflexivity..|discriminate]. Qed.

Lemma C1_witness :
  let jr := newJPEGReader
              (bufio.ofBytes (samples.exifSegment ++ samples.DQT) EOF)
              (Some samples.readsTen) None in
  let h := meta.NewExifHeader binary.BigEndian 8 10 14 imagetype.ImageJPEG in
  ∃ jr', readExif (lookahead jr) jr = (Ok None, jr') ∧
    calls jr' = [CallExif (samples.tiffBlock ++ samples.DQT) h] ∧
    bufio.rest (br jr') = drop 10 (samples.tiffBlock ++ samples.DQT) ∧
    discarded jr' = 10.
Proof.
  intros jr h.
  apply (C1_readExif_hands_over_tiff_block jr samples.readsTen
           x00 x16 x4d x4d x00 x2a x00 x00 x00 x08
           ([x00; x00; x00; x00; x00; x00] ++ samples.DQT)
           binary.BigEndian 8);
    reflexivity.
Defined.

Example encode_dqt : encode samples.dqt = samples.DQT.
Proof. reflexivity. Qed.

Example encode_sof0 : encode samples.sof0 = samples.SOF0.
Proof. reflexivity. Qed.

Example encode_dht : encode samples.dht = samples.DHT.
Proof. reflexivity. Qed.

(** C3 (as amended).  A stream that opens with SOI, goes on with any number
    of segments of the kinds the latest revision skips (quantization tables,
    a JFIF APP0, APP2, APP13: no APP1, so no Exif and no XMP segment) and
    then, with at least 16 bytes left, comes to a Start-Of-Frame or a DHT
    segment, whatever follows (scan data, EOI).  Neither revision invokes a
    callback.  The latest revision terminates at that Start-Of-Frame or DHT
    segment; it returns the end-of-image sentinel if the segment is the
    DHT, and [nil] if it is the Start-Of-Frame.  The earlier revision, in
    which every case of the [switch] returns, terminates at the first
    segment behind SOI, whichever it is: it returns the sentinel if that
    first segment is the DHT, with nothing of it consumed, and [nil]
    otherwise, with that one segment discarded. *)
Theorem C3_scan_ends_at_frame_or_table e slack E X segs f tl :
  Forall skippable segs ->
  declared f < 65536 ->
  isSOF (code f) = true ∨ code f = markerDHT ->
  (16 ≤ length (encode f ++ tl))%nat ->
  let behindSOI := (concat (map encode segs) ++ encode f ++ tl)%list in
  let r := bufio.mkReader 0 ([xff; markerSOI] ++ behindSOI) e slack in
  let first := hd f segs in
  (∃ jr', ScanJPEG r E X =
            Some (Ok (if decide (code f = markerDHT)
                      then Some ErrEndOfImage else None), jr') ∧
          calls jr' = []) ∧
  (∃ jr', jpeg_go.ScanJPEG r E X =
            Some (Ok (if decide (code first = markerDHT)
                      then Some ErrEndOfImage else None), jr') ∧
          calls jr' = [] ∧
          bufio.rest (br jr') =
            (if decide (code first = markerDHT) then behindSOI
             else drop (length (encode first)) behindSOI)).
Proof.
  intros Hsegs Hd Hcode Hl behindSOI r first.
  set (jr0 := newJPEGReader r E X).
  set (jr1 := skip 2 (set_pos (wrap8 (pos jr0 + 1)) jr0)).
  assert (∀ switch, scanPass switch jr0 = (Ok Continue, jr1)) as H1.
  { intros switch. apply (scanPass_SOI _ _ behindSOI); [done|].
    unfold behindSOI. rewrite length_app. lia. }
  assert (∀ c, isSOF c = true ∨ c = markerDHT -> c ≠ markerSOI) as HnSOI.
  { intros c [Hc| ->]; [intros E'; by rewrite E' in Hc|done]. }
  assert (∀ jr,
    bufio.rest (br jr) = (encode f ++ tl)%list -> isSOF (code f) = true ->
    ∃ jr', readSOF (lookahead jr) jr = (Ok None, jr') ∧ calls jr' = calls jr ∧
      bufio.rest (br jr') = drop (length (encode f)) (bufio.rest (br jr)))
    as Hsof.
  { intros jr Hr Hs.
    destruct (readSOF_skips jr (declared f)) as (jr' & Hrd & Hc' & Hr').
    - rewrite Hr. done.
    - unfold encode in Hr. cbn [app] in Hr.
      rewrite (markerLength_lookahead _ _ _ _ _ _ Hr). f_equal.
      by apply declared_bytes.
    - rewrite Hr, length_app, length_encode. unfold declared. lia.
    - exists jr'. split_and!; [done..|]. rewrite Hr'. f_equal.
      rewrite length_encode. unfold declared. lia. }
  split.
  - (* the latest revision *)
    destruct (after_skips segs jr1 (encode f ++ tl) Hsegs)
      as (jr2 & Ha & Hrest & Hpos & Hcalls); [done..|].
    assert (bufio.rest (br jr2) = (encode f ++ tl)%list) as Hr2.
    { rewrite Hrest. change (bufio.rest (br jr1)) with behindSOI.
      unfold behindSOI. by rewrite drop_app_length. }
    assert (after scanBody (S (length segs)) jr0 = Some jr2) as Ha0.
    { simpl. unfold scanBody at 1. by rewrite H1. }
    assert (∀ err jr', scanBody jr2 = (Ok (Return err), jr') ->
              ScanJPEG r E X = Some (Ok err, jr')) as Hfin.
    { intros err jr' Hb. unfold ScanJPEG. eapply scan_after; [|exact Ha0|done].
      intros ??. apply scanPass_progress, progressing_scanSwitch. }
    assert (scanBody jr2 = scanSwitch (lookahead jr2) (code f) jr2) as Hsw.
    { unfold scanBody. unfold encode in Hr2, Hl. cbn [app] in Hr2, Hl.
      apply (scanPass_marker _ _ _ _ Hr2).
      - cbn [length] in Hl |- *. lia.
      - by apply HnSOI.
      - rewrite Hpos. done. }
    destruct Hcode as [Hs|Hdht].
    + rewrite decide_False by (intros E'; by rewrite E' in Hs).
      destruct (Hsof jr2 Hr2 Hs) as (jr' & Hrd & Hc' & _).
      exists jr'. split; [|by rewrite Hc', Hcalls].
      apply Hfin. rewrite Hsw, (proj1 (scanSwitch_SOF _ _ Hs)).
      unfold bind. by rewrite Hrd.
    + rewrite decide_True by done. exists jr2. split; [|done].
      apply Hfin. rewrite Hsw, Hdht. unfold scanSwitch, bind, get.
      by rewrite Hpos.
  - (* the earlier revision *)
    assert (after jpeg_go.scanBody 1 jr0 = Some jr1) as Ha0.
    { simpl. unfold jpeg_go.scanBody at 1. by rewrite H1. }
    assert (∀ err jr', jpeg_go.scanBody jr1 = (Ok (Return err), jr') ->
              jpeg_go.ScanJPEG r E X = Some (Ok err, jr')) as Hfin.
    { intros err jr' Hb. unfold jpeg_go.ScanJPEG.
      eapply scan_after; [|exact Ha0|done].
      intros ??. apply scanPass_progress, progressing_go_scanSwitch. }
    destruct segs as [|s segs].
    + (* the frame header or the DHT segment comes first *)
      assert (bufio.rest (br jr1) = (encode f ++ tl)%list) as Hr1 by done.
      assert (jpeg_go.scanBody jr1
                = jpeg_go.scanSwitch (lookahead jr1) (code f) jr1) as Hsw.
      { unfold jpeg_go.scanBody. unfold encode in Hr1, Hl.
        cbn [app] in Hr1, Hl. apply (scanPass_marker _ _ _ _ Hr1).
        - cbn [length] in Hl |- *. lia.
        - by apply HnSOI.
        - done. }
      subst first. cbn [hd]. destruct Hcode as [Hs|Hdht].
      * rewrite !decide_False by (intros E'; by rewrite E' in Hs).
        destruct (Hsof jr1 Hr1 Hs) as (jr' & Hrd & Hc' & Hr').
        exists jr'. split_and!; [|by rewrite Hc'|by rewrite Hr'].
        apply Hfin. rewrite Hsw, (proj1 framing_go_scanSwitch _ _ Hs).
        unfold bind. by rewrite Hrd.
      * rewrite !decide_True by done. exists jr1. split_and!; [|done..].
        apply Hfin. rewrite Hsw, Hdht. by unfold jpeg_go.scanSwitch, bind, get.
    + (* a skipped segment comes first: the scan ends behind it *)
      subst first. cbn [hd]. apply Forall_cons in Hsegs as [Hs _].
      rewrite !decide_False by by apply skippable_not_DHT.
      exists (skip (length (encode s)) jr1). split_and!; [|done..].
      apply Hfin.
      apply (go_scanBody_returns_behind s jr1
               (concat (map encode segs) ++ encode f ++ tl)); [done| |  |done].
      * change (bufio.rest (br jr1)) with behindSOI. unfold behindSOI.
        cbn [map concat]. by rewrite <- app_assoc.
      * rewrite length_app in Hl. rewrite !length_app. lia.
Qed.

(** C3, the claim as stated fails: on a JPEG file with one SOI/EOI pair and
    no Exif segment, in the usual order of segments, the scan ends at the
    frame header and returns [nil], not the end-of-image sentinel; so does
    the earlier revision, at the quantization table. *)
Lemma C3_baseline_scan_returns_nil :
  result (ScanJPEG (bufio.ofBytes samples.baseline EOF) None None)
    = Some (Ok None) ∧
  result (ScanJPEG (bufio.ofBytes samples.baseline EOF) None None)
    ≠ Some (Ok (Some ErrEndOfImage)) ∧
  result (jpeg_go.ScanJPEG (bufio.ofBytes samples.baseline EOF) None None)
    = Some (Ok None) ∧
  result (jpeg_go.ScanJPEG (bufio.ofBytes samples.baseline EOF) None None)
    ≠ Some (Ok (Some ErrEndOfImage)).
Proof. by vm_compute. Qed.

Lemma C3_witness :
  let behindSOI :=
    (concat (map encode [samples.dqt]) ++ encode samples.sof0
       ++ samples.DHT ++ samples.SOS ++ samples.EOI)%list in
  let r := bufio.mkReader 0 ([xff; markerSOI] ++ behindSOI) EOF
                          (fun _ _ => []) in
  (∃ jr', ScanJPEG r None None = Some (Ok None, jr') ∧ calls jr' = []) ∧
  (∃ jr', jpeg_go.ScanJPEG r None None = Some (Ok None, jr') ∧
     calls jr' = [] ∧
     bufio.rest (br jr') = drop (length (encode samples.dqt)) behindSOI).
Proof.
  intros behindSOI r.
  apply (C3_scan_ends_at_frame_or_table EOF (fun _ _ => []) None None
           [samples.dqt] samples.sof0
           (samples.DHT ++ samples.SOS ++ samples.EOI)).
  - apply Forall_cons_2; [|apply Forall_nil_2].
    split; [reflexivity|reflexivity].
  - reflexivity.
  - left. reflexivity.
  - vm_compute. lia.
Defined.




(** C5, at the failing input: an APP14 segment ahead of the Exif segment.
    Both revisions discard the APP14 segment by its declared length (the
    Exif segment is what is left of the stream) and return [nil] at once;
    the Exif callback is never invoked.  With quantization tables in that
    place, the latest revision goes on and reaches the Exif segment. *)
Theorem C5_scan_stops_after_APP14 :
  let r := bufio.ofBytes samples.adobeThenExif EOF in
  let after_app14 :=
    (samples.exifSegment ++ samples.DQT ++ samples.SOF0 ++ samples.DHT
       ++ samples.SOS ++ samples.EOI)%list in
  (∃ jr, ScanJPEG r (Some samples.notesHeader) None = Some (Ok None, jr) ∧
     calls jr = [] ∧ bufio.rest (br jr) = after_app14 ∧ discarded jr = 18) ∧
  (∃ jr, jpeg_go.ScanJPEG r (Some samples.notesHeader) None
           = Some (Ok None, jr) ∧
     calls jr = [] ∧ bufio.rest (br jr) = after_app14 ∧ discarded jr = 18) ∧
  (∃ jr visible h,
     ScanJPEG (bufio.ofBytes samples.tablesThenExif EOF)
              (Some samples.notesHeader) None = Some (Ok None, jr) ∧
     calls jr = [CallExif visible h] ∧ meta.TiffHeaderOffset h = 81).
Proof.
  intros r after_app14. split_and!.
  - eexists. split; [vm_compute; reflexivity|]. by split_and!.
  - eexists. split; [vm_compute; reflexivity|]. by split_and!.
  - eexists _, _, _. split; [vm_compute; reflexivity|]. by split_and!.
Qed.

(** For the nine marker codes of the first case of the [switch], the
    image-size record is written at most once in a scan, and only from such
    a marker met while the nesting counter is 1.  First: when the scan
    arrives at one of them (with its lookahead window), that pass is the
    last one, and [ScanJPEG] returns with the record holding that frame's
    height, width and component count if the nesting counter is 1, and with
    the record still blank if it is not; so no later frame header is ever
    looked at, and none can overwrite the record.  Second: whatever record a
    scan ends with is blank or is the frame of such a window at which the
    scan arrived with the nesting counter at 1. *)
Lemma first_frame_is_recorded r E X :
  (∀ n jr h,
     after scanBody n (newJPEGReader r E X) = Some jr ->
     frameAt jr = Some h ->
     ∃ err jr', ScanJPEG r E X = Some (Ok err, jr') ∧
       scanBody jr = (Ok (Return err), jr') ∧
       sof jr' = (if pos jr =? 1 then h else mkSofHeader 0 0 0)) ∧
  (∀ out jr', ScanJPEG r E X = Some (out, jr') ->
     sof jr' = mkSofHeader 0 0 0 ∨
     ∃ n jr, after scanBody n (newJPEGReader r E X) = Some jr ∧
       pos jr = 1 ∧ frameAt jr = Some (sof jr')).
Proof.
  split.
  - intros n jr h.
    apply scan_frame; [apply framing_scanSwitch|apply progressing_scanSwitch].
  - intros out jr'. apply scan_sof_written_once, framing_scanSwitch.
Qed.

(** The same in the earlier revision. *)
Lemma first_frame_is_recorded_go r E X :
  (∀ n jr h,
     after jpeg_go.scanBody n (newJPEGReader r E X) = Some jr ->
     frameAt jr = Some h ->
     ∃ err jr', jpeg_go.ScanJPEG r E X = Some (Ok err, jr') ∧
       jpeg_go.scanBody jr = (Ok (Return err), jr') ∧
       sof jr' = (if pos jr =? 1 then h else mkSofHeader 0 0 0)) ∧
  (∀ out jr', jpeg_go.ScanJPEG r E X = Some (out, jr') ->
     sof jr' = mkSofHeader 0 0 0 ∨
     ∃ n jr, after jpeg_go.scanBody n (newJPEGReader r E X) = Some jr ∧
       pos jr = 1 ∧ frameAt jr = Some (sof jr')).
Proof.
  split.
  - intros n jr h.
    apply scan_frame;
      [apply framing_go_scanSwitch|apply progressing_go_scanSwitch].
  - intros out jr'. apply scan_sof_written_once, framing_go_scanSwitch.
Qed.

(** C6, at the failing input: a file whose frame header is an SOF11 segment
    (marker 0xCB; height 16, width 32, one component), met right after SOI
    with the nesting counter at 1.  The source declares [markerSOF11] among
    its SOF markers and names it, but the [switch] has no case for it: the
    scan ends there with [nil], nothing of the segment consumed, and the
    image-size record is still blank.  Both revisions do so.  With the
    marker of an SOF10 segment on the same bytes the record is written. *)
Theorem C6_SOF11_frame_is_not_recorded :
  let file m :=
    (samples.SOI ++ samples.frame m ++ samples.DHT ++ samples.SOS
       ++ samples.EOI)%list in
  let behind m :=
    (samples.frame m ++ samples.DHT ++ samples.SOS ++ samples.EOI)%list in
  markerString markerSOF11 = "SOF11"%string ∧
  (∃ jr, ScanJPEG (bufio.ofBytes (file markerSOF11) EOF) None None
           = Some (Ok None, jr) ∧
     after scanBody 1 (newJPEGReader (bufio.ofBytes (file markerSOF11) EOF)
                                     None None) = Some jr ∧
     pos jr = 1 ∧ bufio.rest (br jr) = behind markerSOF11 ∧
     sof jr = mkSofHeader 0 0 0) ∧
  (∃ jr, jpeg_go.ScanJPEG (bufio.ofBytes (file markerSOF11) EOF) None None
           = Some (Ok None, jr) ∧
     pos jr = 1 ∧ bufio.rest (br jr) = behind markerSOF11 ∧
     sof jr = mkSofHeader 0 0 0) ∧
  (∃ jr, ScanJPEG (bufio.ofBytes (file markerSOF10) EOF) None None
           = Some (Ok None, jr) ∧
     sof jr = mkSofHeader 16 32 1) ∧
  (∃ jr, jpeg_go.ScanJPEG (bufio.ofBytes (file markerSOF10) EOF) None None
           = Some (Ok None, jr) ∧
     sof jr = mkSofHeader 16 32 1).
Proof.
  intros file behind. split; [reflexivity|]. split_and!.
  - eexists. split; [vm_compute; reflexivity|]. by split_and!.
  - eexists. split; [vm_compute; reflexivity|]. by split_and!.
  - eexists. split; [vm_compute; reflexivity|]. done.
  - eexists. split; [vm_compute; reflexivity|]. done.
Qed.

(** A second frame header at outermost nesting changes nothing: the scan
    has returned at the first. *)
Example second_frame_is_not_recorded :
  let second :=
    [xff; xc0; x00; x0b; x08; x00; x40; x00; x80; x03; x01; x11; x00] in
  sof <$> (snd <$> ScanJPEG
    (bufio.ofBytes (samples.SOI ++ samples.SOF0 ++ second ++ samples.DHT
                      ++ samples.SOS ++ samples.EOI) EOF) None None)
    = Some (mkSofHeader 16 32 1).
Proof. by vm_compute. Qed.

(** A frame header inside a nested image (a thumbnail) is not recorded. *)
Example nested_frame_is_not_recorded :
  sof <$> (snd <$> ScanJPEG
    (bufio.ofBytes (samples.SOI ++ samples.SOI ++ samples.SOF0 ++ samples.DHT
                      ++ samples.SOS ++ samples.EOI) EOF) None None)
    = Some (mkSofHeader 0 0 0).
Proof. by vm_compute. Qed.

(** A panic whose value is an error is recovered.  With callbacks whose
    panics, if any, carry error values, no panic escapes [ScanJPEG],
    whatever the stream: every fault the scanner's own indexing and slicing
    can raise is a runtime error, and the deferred [recover] turns it into
    the returned error. *)
Lemma error_panics_are_recovered r E X :
  tameExif E -> tameXMP X ->
  ∃ err jr, ScanJPEG r E X = Some (Ok err, jr).
Proof.
  intros HE HX.
  destruct (ScanJPEG_total r E X) as [[out jr] Hs].
  destruct (sound_scan E X scanBody r) with (out := out) (jr := jr)
    as [err ->]; [apply forward_scanBody| |done|by exists err, jr].
  apply sound_scanPass; [apply forward_scanSwitch|].
  intros buf m. by apply sound_scanSwitch.
Qed.

Lemma error_panics_are_recovered_go r E X :
  tameExif E -> tameXMP X ->
  ∃ err jr, jpeg_go.ScanJPEG r E X = Some (Ok err, jr).
Proof.
  intros HE HX.
  destruct (ScanJPEG_go_total r E X) as [[out jr] Hs].
  destruct (sound_scan E X jpeg_go.scanBody r) with (out := out) (jr := jr)
    as [err ->]; [apply forward_go_scanBody| |done|by exists err, jr].
  apply sound_scanPass; [apply forward_go_scanSwitch|].
  intros buf m. by apply sound_go_scanSwitch.
Qed.

(** C8, at the failing input: a file with an Exif segment, scanned with an
    Exif callback that panics with a string.  The deferred function
    recovers the panic and runs [err = state.(error)]; the recovered value
    is not an error, the unchecked type assertion panics in its turn, and
    that panic leaves [ScanJPEG]: the caller gets no error value.  Both
    revisions do so.  With a callback that panics with an error value in
    the same place, the panic is recovered and its value returned. *)
Theorem C8_panic_with_text_escapes :
  let r := bufio.ofBytes samples.tablesThenExif EOF in
  let r' := bufio.ofBytes (samples.SOI ++ samples.exifSegment ++ samples.DQT)
                          EOF in
  let panicsWithError : ExifCallback :=
    fun _ _ => mkCb 0 (Panic (PanicError (ErrCustom 7))) in
  result (ScanJPEG r (Some samples.panicsWithText) None)
    = Some (Panic (PanicError
                     (RuntimeError "interface conversion: not an error"))) ∧
  (¬ ∃ err, result (ScanJPEG r (Some samples.panicsWithText) None)
              = Some (Ok err)) ∧
  result (jpeg_go.ScanJPEG r' (Some samples.panicsWithText) None)
    = Some (Panic (PanicError
                     (RuntimeError "interface conversion: not an error"))) ∧
  (¬ ∃ err, result (jpeg_go.ScanJPEG r' (Some samples.panicsWithText) None)
              = Some (Ok err)) ∧
  result (ScanJPEG r (Some panicsWithError) None)
    = Some (Ok (Some (ErrCustom 7))) ∧
  result (jpeg_go.ScanJPEG r' (Some panicsWithError) None)
    = Some (Ok (Some (ErrCustom 7))).
Proof.
  vm_compute. split_and!; try reflexivity.
  - intros [err H]. discriminate H.
  - intros [err H]. discriminate H.
Qed.

(** A fault of the scanner's own that is recovered: an unknown byte-order
    mark leaves the byte order [nil], and reading the first-IFD offset
    through it is a nil dereference. *)
Example unknown_byte_order_is_recovered :
  result (ScanJPEG (bufio.ofBytes
                      (samples.SOI ++ samples.badExifSegment ++ samples.DQT)
                      EOF)
                   (Some samples.notesHeader) None)
    = Some (Ok (Some (RuntimeError
         "invalid memory address or nil pointer dereference"))).
Proof. by vm_compute. Qed.

(** C9 (as amended).  In both revisions, whenever the 16-byte lookahead
    fails, at the start or after any number of continuing passes,
    [ScanJPEG] returns [ErrNoJPEGMarker], whatever error the stream failed
    with.  In the latest revision the stream's own error reaches the caller
    only from a case of the [switch] that ends the scan (Start-Of-Frame,
    DHT, EOI, DRI, APP7 to APP10, APP14), when the stream has run out under
    the discard of that case; an error the latest revision returns is
    [ErrEndOfImage], [ErrNoJPEGMarker], that error, or the value of a
    recovered panic.  An error the earlier revision returns is
    [ErrEndOfImage], [ErrNoJPEGMarker], the stream's own error,
    [ErrNegativeCount], an error a callback returned, or the value of a
    recovered panic. *)
Theorem C9_lookahead_failure_is_NoJPEGMarker r E X :
  let jr0 := newJPEGReader r E X in
  let fuel := S (length (bufio.rest r)) in
  (∀ n jr, after scanBody n jr0 = Some jr ->
     (length (bufio.rest (br jr)) < 16)%nat ->
     ScanJPEG r E X = Some (Ok (Some ErrNoJPEGMarker), jr)) ∧
  (∀ n jr, after jpeg_go.scanBody n jr0 = Some jr ->
     (length (bufio.rest (br jr)) < 16)%nat ->
     jpeg_go.ScanJPEG r E X = Some (Ok (Some ErrNoJPEGMarker), jr)) ∧
  (∀ e jr, ScanJPEG r E X = Some (Ok (Some e), jr) ->
     e = ErrEndOfImage ∨ e = ErrNoJPEGMarker ∨
     (e = bufio.rerr r ∧ bufio.rest (br jr) = [] ∧
      ∃ n jr1 m tl, after scanBody n jr0 = Some jr1 ∧
        bufio.rest (br jr1) = xff :: m :: tl ∧ ending m = true ∧
        scanBody jr1 = (Ok (Return (Some e)), jr)) ∨
     loop scanBody fuel jr0 = Some (Panic (PanicError e), jr)) ∧
  (∀ e jr, jpeg_go.ScanJPEG r E X = Some (Ok (Some e), jr) ->
     e = ErrEndOfImage ∨ e = ErrNoJPEGMarker ∨ e = bufio.rerr r ∨
     e = ErrNegativeCount ∨ answered E X e ∨
     loop jpeg_go.scanBody fuel jr0 = Some (Panic (PanicError e), jr)).
Proof.
  intros jr0 fuel. split_and!.
  - intros n jr Ha Hl. unfold ScanJPEG.
    eapply scan_after; [|exact Ha|by apply scanPass_short].
    intros ??. apply scanPass_progress, progressing_scanSwitch.
  - intros n jr Ha Hl. unfold jpeg_go.ScanJPEG.
    eapply scan_after; [|exact Ha|by apply scanPass_short].
    intros ??. apply scanPass_progress, progressing_go_scanSwitch.
  - intros e jr. unfold ScanJPEG, scan. fold jr0 fuel.
    destruct (loop scanBody _ _) as [[out jr1]|] eqn:El; [|done].
    destruct out as [err|[e0|v]]; simpl; intros [= -> ->]; [|by auto].
    destruct (loop_last _ _ _ _ _ El) as (n & jr1 & Ha & Hb).
    destruct (scanBody_error_origin _ _ _ Hb)
      as [->|[->|(-> & Hrest & m & tl & Hr & Hm)]]; [by auto..|].
    right; right; left. split_and!; [|done|by exists n, jr1, m, tl].
    by destruct (after_forward _ _ forward_scanBody _ _ Ha).
  - intros e jr. unfold jpeg_go.ScanJPEG, scan. fold jr0 fuel.
    destruct (loop jpeg_go.scanBody _ _) as [[out jr1]|] eqn:El; [|done].
    destruct out as [err|[e0|v]]; simpl; intros [= -> ->]; [|by auto 10].
    apply loop_known_errs_go in El. unfold knownGo in El. simpl in El. tauto.
Qed.

(** C9, the claim as stated fails: a stream that fails with an I/O error
    before 16 bytes could be read makes [ScanJPEG] return [ErrNoJPEGMarker],
    not the reader's error, also when the start-of-image marker had been
    read. *)
Lemma C9_stream_failure_is_replaced :
  result (ScanJPEG (bufio.ofBytes [] (ErrCustom 5)) None None)
    = Some (Ok (Some ErrNoJPEGMarker)) ∧
  result (ScanJPEG (bufio.ofBytes [] (ErrCustom 5)) None None)
    ≠ Some (Ok (Some (ErrCustom 5))) ∧
  result (ScanJPEG (bufio.ofBytes (samples.SOI ++ samples.DQT)
                                  (ErrCustom 5)) None None)
    = Some (Ok (Some ErrNoJPEGMarker)) ∧
  result (jpeg_go.ScanJPEG (bufio.ofBytes [] (ErrCustom 5)) None None)
    = Some (Ok (Some ErrNoJPEGMarker)).
Proof. by vm_compute. Qed.

Lemma C9_witness :
  let r := bufio.ofBytes (samples.SOI ++ samples.DQT) (ErrCustom 5) in
  ∃ jr, after scanBody 2 (newJPEGReader r None None) = Some jr ∧
    ScanJPEG r None None = Some (Ok (Some ErrNoJPEGMarker), jr).
Proof.
  intros r. eexists. split; [vm_compute; reflexivity|].
  apply (proj1 (C9_lookahead_failure_is_NoJPEGMarker r None None) 2%nat);
    [vm_compute; reflexivity|vm_compute; lia].
Defined.

(** Where the stream's own error does reach the caller: a frame header
    whose declared length runs past the end of the stream. *)
Example truncated_frame_returns_stream_error :
  result (ScanJPEG
            (bufio.ofBytes (samples.SOI ++ samples.DQT
                              ++ [xff; xc0; x00; x11; x08; x00; x10; x00; x20;
                                  x03; x01; x22; x00; x02; x11; x01; x03])
                           (ErrCustom 5)) None None)
    = Some (Ok (Some (ErrCustom 5))).
Proof. by vm_compute. Qed.

(** What the earlier revision returns besides: the error of a callback, and
    [ErrNegativeCount] at an XMP segment whose declared length is shorter
    than its signature. *)
Example earlier_revision_returns_other_errors :
  result (jpeg_go.ScanJPEG
            (bufio.ofBytes (samples.SOI ++ samples.exifSegment ++ samples.DQT)
                           EOF)
            (Some (samples.failsWith (ErrCustom 7))) None)
    = Some (Ok (Some (ErrCustom 7))) ∧
  result (jpeg_go.ScanJPEG
            (bufio.ofBytes (samples.SOI ++ [xff; xe1; x00; x10] ++ xmpPrefix
                              ++ samples.DQT) EOF)
            None None)
    = Some (Ok (Some ErrNegativeCount)) ∧
  result (ScanJPEG
            (bufio.ofBytes (samples.SOI ++ samples.exifSegment ++ samples.DQT)
                           EOF)
            (Some (samples.failsWith (ErrCustom 7))) None)
    = Some (Ok (Some ErrNoJPEGMarker)).
Proof. by vm_compute. Qed.


(** * The claims about the parse entry points and the accessors *)

(** C2 (as amended).  [ParseExif] returns no result object, with the
    invalid-header error and without starting the directory walk, if and
    only if the header is not valid.  A valid header whose first-directory
    designator is null is not rejected: the walk starts at the primary
    directory.  It is the re-entrant [ParseIfd] that fails with the
    invalid-header error when the header is not valid or the designator is
    null, leaving the result object as it was, and that otherwise re-seeds
    the reader and walks. *)
Theorem C2_invalid_header_is_rejected
    (IsValid : meta.ExifHeader -> bool)
    (newReader : list byte -> meta.ExifHeader -> exif.reader)
    (scanIFD : exif.Data -> ifds.Ifd -> exif.Data * option error)
    (r : list byte) (h : meta.ExifHeader) (e : exif.Data) :
  (exif.ParseExif IsValid newReader scanIFD r h = (None, Some ErrInvalidHeader)
     ↔ IsValid h = false) ∧
  (IsValid h = true -> meta.FirstIfd h = ifds.NullIFD ->
     exif.ParseExif IsValid newReader scanIFD r h =
       let h0 := exif.set_FirstIfd ifds.IFD0 h in
       let '(e', err) :=
         scanIFD (exif.newData (newReader r h0) (meta.ImageType h))
                 (ifds.NewIFD ifds.IFD0 0 (meta.FirstIfdOffset h)) in
       (Some e', err)) ∧
  (IsValid h = false ∨ meta.FirstIfd h = ifds.NullIFD ->
     exif.ParseIfd IsValid scanIFD e h = (e, Some ErrInvalidHeader)) ∧
  (IsValid h = true -> meta.FirstIfd h ≠ ifds.NullIFD ->
     exif.ParseIfd IsValid scanIFD e h =
       scanIFD
         (exif.set_reader
            (exif.mkReader (exif.source (exif.reader_ e)) (meta.ExifLength h)
               (meta.TiffHeaderOffset h) (meta.ByteOrder h)) e)
         (ifds.NewIFD (meta.FirstIfd h) 0 (meta.FirstIfdOffset h))).
Proof.
  unfold exif.ParseExif, exif.ParseIfd. split_and!.
  - destruct (IsValid h); simpl; [|done].
    split; [|done]. by destruct (scanIFD _ _).
  - intros -> ->. done.
  - intros [-> | ->]; [done|]. rewrite bool_decide_eq_true_2 by done.
    by rewrite orb_true_r.
  - intros -> Hn. by rewrite bool_decide_eq_false_2.
Qed.

(** C2, the claim as stated fails: a valid header with the null designator
    is parsed, from the primary directory, and a result object comes back
    without error. *)
Lemma C2_null_designator_is_not_rejected :
  samples.IsValid samples.nullIfdHeader = true ∧
  meta.FirstIfd samples.nullIfdHeader = ifds.NullIFD ∧
  exif.ParseExif samples.IsValid samples.newReader samples.scanEmptyIFD
                 [] samples.nullIfdHeader
    = (Some (exif.newData
               (samples.newReader []
                  (exif.set_FirstIfd ifds.IFD0 samples.nullIfdHeader))
               imagetype.ImageJPEG), None) ∧
  exif.ParseExif samples.IsValid samples.newReader samples.scanEmptyIFD
                 [] samples.nullIfdHeader
    ≠ (None, Some ErrInvalidHeader).
Proof. by vm_compute. Qed.

Lemma C2_witness :
  exif.ParseExif samples.IsValid samples.newReader samples.scanEmptyIFD
                 [] samples.invalidHeader = (None, Some ErrInvalidHeader) ∧
  exif.ParseIfd samples.IsValid samples.scanEmptyIFD samples.someData
                samples.nullIfdHeader
    = (samples.someData, Some ErrInvalidHeader).
Proof.
  destruct (C2_invalid_header_is_rejected samples.IsValid samples.newReader
              samples.scanEmptyIFD [] samples.invalidHeader samples.someData)
    as (H1 & _).
  destruct (C2_invalid_header_is_rejected samples.IsValid samples.newReader
              samples.scanEmptyIFD [] samples.nullIfdHeader samples.someData)
    as (_ & _ & H3 & _).
  split; [apply H1; reflexivity|apply H3; right; reflexivity].
Defined.

(** C7.  For a key that is not in the TagMap, [GetTag] returns the zero tag
    with [ErrEmptyTag], as an ordinary result, and leaves the result object,
    its TagMap included, as it was. *)
Theorem C7_GetTag_miss (e : exif.Data) (ifd : ifds.IfdType) (ifdIndex tagID : Z) :
  exif.tagMap e !! ifds.NewKey ifd ifdIndex tagID = None ->
  exif.GetTag e ifd ifdIndex tagID = (Ok (tag.zero, Some ErrEmptyTag), e).
Proof. intros H. unfold exif.GetTag. by rewrite H. Qed.

Lemma C7_witness :
  exif.GetTag samples.someData ifds.GPSIFD 0 2
    = (Ok (tag.zero, Some ErrEmptyTag), samples.someData).
Proof. apply C7_GetTag_miss. by vm_compute. Defined.

(** A key that is in the map yields its tag and no error. *)
Lemma GetTag_hit (e : exif.Data) (ifd : ifds.IfdType) (ifdIndex tagID : Z) t :
  exif.tagMap e !! ifds.NewKey ifd ifdIndex tagID = Some t ->
  exif.GetTag e ifd ifdIndex tagID = (Ok (t, None), e).
Proof. intros H. unfold exif.GetTag. by rewrite H. Qed.

(** C10.  For a tag of type ASCII, ASCII-without-NUL or byte, [GetTagValue]
    returns the decoded string cut to its first 64 bytes: the whole string
    if it has at most 64, and a string of at most 64 in any case; for a tag
    type outside ASCII, byte, short, long, rational and signed rational it
    returns [nil]. *)
Theorem C10_GetTagValue_limits_strings
    (ParseASCIIValue : exif.Data -> tag.Tag -> list byte * option error)
    (ParseUint16Value : exif.Data -> tag.Tag -> Z * option error)
    (ParseUint16Values : exif.Data -> tag.Tag -> list Z * option error)
    (ParseUint32Value : exif.Data -> tag.Tag -> Z * option error)
    (ParseUint32Values : exif.Data -> tag.Tag -> list Z * option error)
    (ParseRationalValues ParseSRationalValues :
       exif.Data -> tag.Tag -> list (Z * Z) * option error)
    (e : exif.Data) (t : tag.Tag) :
  let GetTagValue :=
    exif.GetTagValue ParseASCIIValue ParseUint16Value ParseUint16Values
      ParseUint32Value ParseUint32Values ParseRationalValues
      ParseSRationalValues in
  let str := (ParseASCIIValue e t).1 in
  (tag.type t = tag.TypeASCII ∨ tag.type t = tag.TypeASCIINoNul
     ∨ tag.type t = tag.TypeByte ->
   GetTagValue e t = exif.VString (take 64 str) ∧
   (length (take 64 str) ≤ 64)%nat ∧
   ((length str ≤ 64)%nat -> GetTagValue e t = exif.VString str)) ∧
  (tag.type t ∉ [tag.TypeASCII; tag.TypeASCIINoNul; tag.TypeByte;
                 tag.TypeShort; tag.TypeLong; tag.TypeRational;
                 tag.TypeSignedRational] ->
   GetTagValue e t = exif.VNil).
Proof.
  intros GetTagValue str. split.
  - intros Ht.
    assert (GetTagValue e t = exif.VString (take 64 str)) as Hv.
    { unfold GetTagValue, exif.GetTagValue, str.
      destruct (ParseASCIIValue e t) as [s err]. simpl.
      destruct (Nat.ltb_spec 64 (length s)) as [Hlt|Hle];
        destruct Ht as [-> | [-> | ->]]; try done;
        by rewrite take_ge. }
    split_and!; [done|rewrite length_take; lia|].
    intros Hle. rewrite Hv. by rewrite take_ge.
  - intros Hn. unfold GetTagValue, exif.GetTagValue.
    destruct (tag.type t); try done; exfalso; apply Hn;
      repeat first [by apply list_elem_of_here | apply list_elem_of_further].
Qed.

Lemma C10_witness :
  let get p := exif.GetTagValue p samples.noU16 samples.noU16s samples.noU16
                 samples.noU16s samples.noRationals samples.noRationals in
  get samples.seventy samples.someData samples.makeTag
    = exif.VString (replicate 64 x41) ∧
  get samples.five samples.someData samples.makeTag
    = exif.VString (bytes "Canon") ∧
  get samples.five samples.someData (tag.mkTag 37500 tag.TypeUndefined 4 0)
    = exif.VNil.
Proof.
  intros get.
  destruct (C10_GetTagValue_limits_strings samples.seventy samples.noU16
    samples.noU16s samples.noU16 samples.noU16s samples.noRationals
    samples.noRationals samples.someData samples.makeTag) as [H70 _].
  destruct (C10_GetTagValue_limits_strings samples.five samples.noU16
    samples.noU16s samples.noU16 samples.noU16s samples.noRationals
    samples.noRationals samples.someData samples.makeTag) as [H5 _].
  destruct (C10_GetTagValue_limits_strings samples.five samples.noU16
    samples.noU16s samples.noU16 samples.noU16s samples.noRationals
    samples.noRationals samples.someData
    (tag.mkTag 37500 tag.TypeUndefined 4 0)) as [_ Hnil].
  split_and!.
  - apply H70. by left.
  - apply H5; [by left|]. vm_compute. lia.
  - apply Hnil. simpl.
    repeat (apply not_elem_of_cons; split; [discriminate|]).
    apply not_elem_of_nil.
Defined.


(** * Further properties of the scanner *)

(** ** Termination *)

Lemma loop_forward body fuel :
  preserves forward body ->
  ∀ jr out jr', loop body fuel jr = Some (out, jr') -> forward jr jr'.
Proof.
  intros Hb. induction fuel as [|fuel IH]; intros jr out jr'; [done|]. simpl.
  pose proof (Hb jr) as H.
  destruct (body jr) as [[[|err]|v] jr1]; simpl in H.
  - intros Hl. etrans; [exact H|]. by eapply IH.
  - by intros [= _ <-].
  - by intros [= _ <-].
Qed.

Lemma scan_forward body r E X out jr' :
  preserves forward body ->
  scan body r E X = Some (out, jr') -> forward (newJPEGReader r E X) jr'.
Proof.
  intros Hb. unfold scan.
  destruct (loop body _ _) as [[out0 jr0]|] eqn:El; [|done].
  intros [= _ <-]. by eapply loop_forward.
Qed.

(** In either revision [ScanJPEG] returns, for every finite stream and
    whatever the callbacks do: a pass that ends in [continue] has consumed
    at least one byte.  What is left of the stream when it returns is a
    suffix of what it was given. *)
Theorem scan_terminates r E X :
  (∃ out jr', ScanJPEG r E X = Some (out, jr') ∧
     bufio.rest (br jr') `suffix_of` bufio.rest r) ∧
  (∃ out jr', jpeg_go.ScanJPEG r E X = Some (out, jr') ∧
     bufio.rest (br jr') `suffix_of` bufio.rest r).
Proof.
  split.
  - destruct (ScanJPEG_total r E X) as [[out jr'] Hs].
    exists out, jr'. split; [done|].
    by destruct (scan_forward _ _ _ _ _ _ forward_scanBody Hs).
  - destruct (ScanJPEG_go_total r E X) as [[out jr'] Hs].
    exists out, jr'. split; [done|].
    by destruct (scan_forward _ _ _ _ _ _ forward_go_scanBody Hs).
Qed.

(** ** The count of discarded bytes *)

#[global] Instance carries_preorder I : PreOrder (carries I).
Proof. split; unfold carries; [by intros jr|intros a b c; auto]. Qed.

Lemma carries_get_bind I {A B} (g : jpegReader -> A) (f : A -> M B) :
  (∀ jr, I jr -> I (f (g jr) jr).2) ->
  preserves (carries I) (bind (get g) f).
Proof. intros H jr Hi. unfold bind, get. by apply H. Qed.

Lemma loop_carries I body fuel :
  preserves (carries I) body ->
  ∀ jr out jr', I jr -> loop body fuel jr = Some (out, jr') -> I jr'.
Proof.
  intros Hb. induction fuel as [|fuel IH]; intros jr out jr' Hi; [done|].
  simpl. pose proof (Hb jr Hi) as H.
  destruct (body jr) as [[[|err]|v] jr1]; simpl in H.
  - by apply IH.
  - by intros [= _ <-].
  - by intros [= _ <-].
Qed.

Lemma wrap32_add_l a b : wrap32 (wrap32 a + b) = wrap32 (a + b).
Proof. unfold wrap32. by rewrite Zplus_mod_idemp_l. Qed.

(** Whatever it returns, [discard] has skipped some of the bytes that
    were left, or done nothing. *)
Lemma advance_0 r : bufio.advance 0 r = r.
Proof. destruct r. unfold bufio.advance. simpl. by rewrite Nat.add_0_r. Qed.

Lemma discard_cases i jr :
  (discard i jr).2 = jr ∨
  ∃ k, (k ≤ length (bufio.rest (br jr)))%nat ∧ (discard i jr).2 = skip k jr.
Proof.
  unfold discard, bufio.Discard.
  destruct (Z.eqb_spec i 0); [by left|]. right.
  destruct (Z.ltb_spec i 0).
  - exists 0%nat. split; [lia|]. unfold skip. simpl. by rewrite advance_0.
  - destruct (Z.leb_spec i (Z.of_nat (length (bufio.rest (br jr))))).
    + exists (Z.to_nat i). split; [lia|]. unfold skip. simpl.
      by rewrite Z2Nat.id by lia.
    + exists (length (bufio.rest (br jr))). split; [lia|]. done.
Qed.

Section Counting.
Context (n : nat).

Lemma accounted_skip k jr :
  (k ≤ length (bufio.rest (br jr)))%nat ->
  accounted n jr -> accounted n (skip k jr).
Proof.
  intros Hk (Hq & Hc & Hs). split_and!; [done| |done].
  unfold counted, skip in *. simpl. rewrite Hc, wrap32_wrap32.
  rewrite wrap32_add_l, length_drop. f_equal. lia.
Qed.

Lemma accounted_discard i : preserves (carries (accounted n)) (discard i).
Proof.
  intros jr Hi. destruct (discard_cases i jr) as [->|(k & Hk & ->)]; [done|].
  by apply accounted_skip.
Qed.

Lemma accounted_set_pos p :
  preserves (carries (accounted n)) (modify (set_pos p)).
Proof. by intros jr Hi. Qed.

Lemma accounted_set_sof h :
  preserves (carries (accounted n)) (modify (set_sof h)).
Proof. by intros jr Hi. Qed.

Lemma accounted_callXMP f remain jr :
  XMPReader jr = Some f ->
  accounted n jr -> accounted n (callXMP f remain jr).2.
Proof.
  intros Hf ([He Hx] & Hc & Hs). unfold callXMP. simpl.
  rewrite (Hx _ _ Hf). simpl. rewrite advance_0.
  split_and!; [done..|]. simpl. apply Forall_app. split; [done|].
  by apply Forall_singleton.
Qed.

Lemma accounted_callExif f o firstIfdOffset exifLength jr :
  ExifReader jr = Some f ->
  accounted n jr ->
  accounted n
    (callExif f (meta.NewExifHeader o firstIfdOffset (discarded jr) exifLength
                   imagetype.ImageJPEG) jr).2.
Proof.
  intros Hf ([He Hx] & Hc & Hs). unfold callExif. simpl.
  rewrite (He _ _ _ Hf). simpl. rewrite advance_0.
  split_and!; [done..|]. simpl. apply Forall_app. split; [done|].
  apply Forall_singleton. exists o, firstIfdOffset, exifLength.
  by rewrite Hc.
Qed.

#[local] Hint Resolve accounted_discard accounted_set_pos accounted_set_sof
  : scanner.

Lemma accounted_ignoreMarker buf :
  preserves (carries (accounted n)) (ignoreMarker buf).
Proof. unfold ignoreMarker. preserve; auto with scanner. Qed.

Lemma accounted_readSOF buf :
  preserves (carries (accounted n)) (readSOF buf).
Proof. unfold readSOF. preserve; auto with scanner. Qed.

Lemma accounted_readXMP buf :
  preserves (carries (accounted n)) (readXMP buf).
Proof.
  unfold readXMP.
  apply preserves_bind; [apply _|preserve|]. intros len.
  apply preserves_bind; [apply _|apply accounted_discard|].
  intros [e|]; [preserve|].
  apply carries_get_bind. intros jr Hi.
  destruct (XMPReader jr) as [f|] eqn:Ef; [|by apply accounted_discard].
  unfold bind. pose proof (accounted_callXMP f (len - 2 - xmpPrefixLength) jr Ef Hi) as H.
  destruct (callXMP f _ jr) as [[[[e|] k]|v] jr1]; simpl in *; [done| |done].
  by apply accounted_discard.
Qed.

Lemma accounted_callExif_discard f o firstIfdOffset exifLength jr :
  ExifReader jr = Some f ->
  accounted n jr ->
  accounted n
    ((let* tiffHeaderOffset := get discarded in
      let* err := callExif f (meta.NewExifHeader o firstIfdOffset
                    tiffHeaderOffset exifLength imagetype.ImageJPEG) in
      match err with
      | Some e => ret (Some e)
      | None => discard 0
      end) jr).2.
Proof.
  intros Ef Hi. unfold bind at 1, get.
  pose proof (accounted_callExif f o firstIfdOffset exifLength jr Ef Hi) as H.
  unfold bind.
  destruct (callExif f _ jr) as [[[e|]|v] jr1]; simpl in *; done.
Qed.

Lemma accounted_readExif buf :
  preserves (carries (accounted n)) (readExif buf).
Proof.
  unfold readExif.
  apply preserves_bind; [apply _|preserve|]. intros len.
  apply preserves_bind; [apply _|apply accounted_discard|].
  intros [e|]; [preserve|].
  apply preserves_bind; [apply _|preserve|]. intros [buf' [e|]]; [preserve|].
  apply carries_get_bind. intros jr Hi.
  destruct (ExifReader jr) as [f|] eqn:Ef; [|by apply accounted_discard].
  unfold bind at 1, lift at 1.
  destruct (meta.BinaryOrder buf') as [[o|]|]; [|done..].
  unfold bind at 1, lift at 1. destruct (reslice buf' 4 8) as [b48|]; [|done].
  unfold bind at 1, lift at 1.
  destruct (binary.Uint32 o b48) as [firstIfdOffset|]; [|done].
  by apply accounted_callExif_discard.
Qed.

Lemma accounted_go_readExif buf :
  preserves (carries (accounted n)) (jpeg_go.readExif buf).
Proof.
  unfold jpeg_go.readExif.
  apply preserves_bind; [apply _|preserve|]. intros len.
  apply preserves_bind; [apply _|apply accounted_discard|].
  intros [e|]; [preserve|].
  apply preserves_bind; [apply _|preserve|]. intros [buf' [e|]]; [preserve|].
  apply carries_get_bind. intros jr Hi.
  destruct (ExifReader jr) as [f|] eqn:Ef; [|by apply accounted_discard].
  unfold bind at 1, lift at 1.
  destruct (meta.BinaryOrder buf') as [[o|]|]; [|done..].
  unfold bind at 1, lift at 1. destruct (reslice buf' 4 8) as [b48|]; [|done].
  unfold bind at 1, lift at 1.
  destruct (binary.Uint32 o b48) as [firstIfdOffset|]; [|done].
  by apply accounted_callExif_discard.
Qed.

#[local] Hint Resolve accounted_ignoreMarker accounted_readSOF
  accounted_readXMP accounted_readExif accounted_go_readExif : scanner.

Lemma accounted_readAPP1 buf :
  preserves (carries (accounted n)) (readAPP1 buf).
Proof. unfold readAPP1. preserve; auto with scanner. Qed.

Lemma accounted_go_readAPP1 buf :
  preserves (carries (accounted n)) (jpeg_go.readAPP1 buf).
Proof. unfold jpeg_go.readAPP1. preserve; auto with scanner. Qed.

#[local] Hint Resolve accounted_readAPP1 accounted_go_readAPP1 : scanner.

Lemma accounted_scanSwitch buf m :
  preserves (carries (accounted n)) (scanSwitch buf m).
Proof. unfold scanSwitch. destruct m; preserve; auto with scanner. Qed.

Lemma accounted_go_scanSwitch buf m :
  preserves (carries (accounted n)) (jpeg_go.scanSwitch buf m).
Proof. unfold jpeg_go.scanSwitch. destruct m; preserve; auto with scanner. Qed.

Lemma accounted_scanPass switch :
  (∀ buf m, preserves (carries (accounted n)) (switch buf m)) ->
  preserves (carries (accounted n)) (scanPass switch).
Proof. intros H. unfold scanPass. preserve; auto with scanner. Qed.

End Counting.

Lemma accounted_scan switch r E X out jr' :
  (∀ n buf m, preserves (carries (accounted n)) (switch buf m)) ->
  quiet (newJPEGReader r E X) ->
  scan (scanPass switch) r E X = Some (out, jr') ->
  accounted (length (bufio.rest r)) jr'.
Proof.
  intros Hsw Hq. unfold scan.
  destruct (loop _ _ _) as [[out0 jr0]|] eqn:El; [|done].
  intros [= _ <-].
  eapply (loop_carries _ _ _ (accounted_scanPass _ switch (Hsw _))); [|exact El].
  split_and!; [done| |by apply Forall_nil].
  unfold counted. simpl. by rewrite Z.sub_diag.
Qed.

(** With callbacks that read nothing from the reader they are handed (or
    with none), the count of discarded bytes [ScanJPEG] ends with is the
    number of bytes it has consumed from the stream, as a [uint32]: every
    byte goes through [discard].  The same in the earlier revision. *)
Theorem discarded_counts_consumed r E X :
  quiet (newJPEGReader r E X) ->
  (∃ out jr', ScanJPEG r E X = Some (out, jr') ∧
     discarded jr' =
       wrap32 (Z.of_nat (length (bufio.rest r))
               - Z.of_nat (length (bufio.rest (br jr'))))) ∧
  (∃ out jr', jpeg_go.ScanJPEG r E X = Some (out, jr') ∧
     discarded jr' =
       wrap32 (Z.of_nat (length (bufio.rest r))
               - Z.of_nat (length (bufio.rest (br jr'))))).
Proof.
  intros Hq. split.
  - destruct (ScanJPEG_total r E X) as [[out jr'] Hs].
    exists out, jr'. split; [done|].
    by destruct (accounted_scan _ _ _ _ _ _ accounted_scanSwitch Hq Hs)
      as (_ & Hc & _).
  - destruct (ScanJPEG_go_total r E X) as [[out jr'] Hs].
    exists out, jr'. split; [done|].
    by destruct (accounted_scan _ _ _ _ _ _ accounted_go_scanSwitch Hq Hs)
      as (_ & Hc & _).
Qed.

Lemma discarded_counts_consumed_witness :
  let r := bufio.ofBytes samples.tablesThenExif EOF in
  ∃ out jr', ScanJPEG r (Some samples.notesHeader) None = Some (out, jr') ∧
    discarded jr' =
      wrap32 (Z.of_nat (length (bufio.rest r))
              - Z.of_nat (length (bufio.rest (br jr')))).
Proof.
  intros r.
  apply (discarded_counts_consumed r (Some samples.notesHeader) None).
  split; [intros f v h [= <-]; reflexivity|intros f v [=]].
Defined.

(** With such callbacks, every header an Exif callback is handed carries,
    as its TIFF origin, the offset in the stream of the TIFF block the
    callback's reader stands at.  The same in the earlier revision. *)
Theorem exif_header_carries_stream_offset r E X :
  quiet (newJPEGReader r E X) ->
  (∃ out jr', ScanJPEG r E X = Some (out, jr') ∧
     ∀ visible h, CallExif visible h ∈ calls jr' ->
       ∃ o firstIfdOffset exifLength,
         h = meta.NewExifHeader o firstIfdOffset
               (wrap32 (Z.of_nat (length (bufio.rest r))
                        - Z.of_nat (length visible)))
               exifLength imagetype.ImageJPEG) ∧
  (∃ out jr', jpeg_go.ScanJPEG r E X = Some (out, jr') ∧
     ∀ visible h, CallExif visible h ∈ calls jr' ->
       ∃ o firstIfdOffset exifLength,
         h = meta.NewExifHeader o firstIfdOffset
               (wrap32 (Z.of_nat (length (bufio.rest r))
                        - Z.of_nat (length visible)))
               exifLength imagetype.ImageJPEG).
Proof.
  intros Hq. split.
  - destruct (ScanJPEG_total r E X) as [[out jr'] Hs].
    exists out, jr'. split; [done|].
    destruct (accounted_scan _ _ _ _ _ _ accounted_scanSwitch Hq Hs)
      as (_ & _ & Hc).
    intros visible h Hin. by apply (proj1 (Forall_forall _ _) Hc _ Hin).
  - destruct (ScanJPEG_go_total r E X) as [[out jr'] Hs].
    exists out, jr'. split; [done|].
    destruct (accounted_scan _ _ _ _ _ _ accounted_go_scanSwitch Hq Hs)
      as (_ & _ & Hc).
    intros visible h Hin. by apply (proj1 (Forall_forall _ _) Hc _ Hin).
Qed.

Lemma exif_header_carries_stream_offset_witness :
  let r := bufio.ofBytes samples.tablesThenExif EOF in
  ∃ out jr', ScanJPEG r (Some samples.notesHeader) None = Some (out, jr') ∧
    ∀ visible h, CallExif visible h ∈ calls jr' ->
      ∃ o firstIfdOffset exifLength,
        h = meta.NewExifHeader o firstIfdOffset
              (wrap32 (Z.of_nat (length (bufio.rest r))
                       - Z.of_nat (length visible)))
              exifLength imagetype.ImageJPEG.
Proof.
  intros r.
  apply (exif_header_carries_stream_offset r (Some samples.notesHeader) None).
  split; [intros f v h [= <-]; reflexivity|intros f v [=]].
Defined.

Section First.
Context (n : nat).

Lemma first_discard i : preserves (carries (accountedAtFirst n)) (discard i).
Proof.
  intros jr Hi. destruct (discard_cases i jr) as [->|(k & Hk & ->)]; [done|].
  unfold accountedAtFirst, skip in *. simpl.
  destruct (calls jr); [|done].
  unfold counted in *. simpl. rewrite Hi, wrap32_wrap32.
  rewrite wrap32_add_l, length_drop. f_equal. lia.
Qed.

Lemma first_set_pos p :
  preserves (carries (accountedAtFirst n)) (modify (set_pos p)).
Proof. by intros jr Hi. Qed.

Lemma first_set_sof h :
  preserves (carries (accountedAtFirst n)) (modify (set_sof h)).
Proof. by intros jr Hi. Qed.

Lemma first_callXMP f remain :
  preserves (carries (accountedAtFirst n)) (callXMP f remain).
Proof.
  intros jr Hi. unfold accountedAtFirst, callXMP in *. simpl.
  by destruct (calls jr).
Qed.

#[local] Hint Resolve first_discard first_set_pos first_set_sof
  first_callXMP : scanner.

Lemma first_ignoreMarker buf :
  preserves (carries (accountedAtFirst n)) (ignoreMarker buf).
Proof. unfold ignoreMarker. preserve; auto with scanner. Qed.

Lemma first_readSOF buf :
  preserves (carries (accountedAtFirst n)) (readSOF buf).
Proof. unfold readSOF. preserve; auto with scanner. Qed.

Lemma first_readXMP buf :
  preserves (carries (accountedAtFirst n)) (readXMP buf).
Proof. unfold readXMP. preserve; auto with scanner. Qed.

Lemma first_callExif_discard f o firstIfdOffset exifLength jr :
  accountedAtFirst n jr ->
  accountedAtFirst n
    ((let* tiffHeaderOffset := get discarded in
      let* err := callExif f (meta.NewExifHeader o firstIfdOffset
                    tiffHeaderOffset exifLength imagetype.ImageJPEG) in
      match err with
      | Some e => ret (Some e)
      | None => discard 0
      end) jr).2.
Proof.
  intros Hi. unfold bind at 1, get.
  assert (accountedAtFirst n
    (callExif f (meta.NewExifHeader o firstIfdOffset (discarded jr)
                   exifLength imagetype.ImageJPEG) jr).2) as H.
  { unfold accountedAtFirst, callExif in *. simpl.
    destruct (calls jr); [|done]. simpl.
    exists o, firstIfdOffset, exifLength. by rewrite Hi. }
  unfold bind.
  destruct (callExif f _ jr) as [[[e|]|v] jr1]; simpl in *; done.
Qed.

Lemma first_readExif buf :
  preserves (carries (accountedAtFirst n)) (readExif buf).
Proof.
  unfold readExif.
  apply preserves_bind; [apply _|preserve|]. intros len.
  apply preserves_bind; [apply _|apply first_discard|].
  intros [e|]; [preserve|].
  apply preserves_bind; [apply _|preserve|]. intros [buf' [e|]]; [preserve|].
  apply carries_get_bind. intros jr Hi.
  destruct (ExifReader jr) as [f|] eqn:Ef; [|by apply first_discard].
  unfold bind at 1, lift at 1.
  destruct (meta.BinaryOrder buf') as [[o|]|]; [|done..].
  unfold bind at 1, lift at 1. destruct (reslice buf' 4 8) as [b48|]; [|done].
  unfold bind at 1, lift at 1.
  destruct (binary.Uint32 o b48) as [firstIfdOffset|]; [|done].
  by apply first_callExif_discard.
Qed.

Lemma first_go_readExif buf :
  preserves (carries (accountedAtFirst n)) (jpeg_go.readExif buf).
Proof.
  unfold jpeg_go.readExif.
  apply preserves_bind; [apply _|preserve|]. intros len.
  apply preserves_bind; [apply _|apply first_discard|].
  intros [e|]; [preserve|].
  apply preserves_bind; [apply _|preserve|]. intros [buf' [e|]]; [preserve|].
  apply carries_get_bind. intros jr Hi.
  destruct (ExifReader jr) as [f|] eqn:Ef; [|by apply first_discard].
  unfold bind at 1, lift at 1.
  destruct (meta.BinaryOrder buf') as [[o|]|]; [|done..].
  unfold bind at 1, lift at 1. destruct (reslice buf' 4 8) as [b48|]; [|done].
  unfold bind at 1, lift at 1.
  destruct (binary.Uint32 o b48) as [firstIfdOffset|]; [|done].
  by apply first_callExif_discard.
Qed.

#[local] Hint Resolve first_ignoreMarker first_readSOF first_readXMP
  first_readExif first_go_readExif : scanner.

Lemma first_readAPP1 buf :
  preserves (carries (accountedAtFirst n)) (readAPP1 buf).
Proof. unfold readAPP1. preserve; auto with scanner. Qed.

Lemma first_go_readAPP1 buf :
  preserves (carries (accountedAtFirst n)) (jpeg_go.readAPP1 buf).
Proof. unfold jpeg_go.readAPP1. preserve; auto with scanner. Qed.

#[local] Hint Resolve first_readAPP1 first_go_readAPP1 : scanner.

Lemma first_scanSwitch buf m :
  preserves (carries (accountedAtFirst n)) (scanSwitch buf m).
Proof. unfold scanSwitch. destruct m; preserve; auto with scanner. Qed.

Lemma first_go_scanSwitch buf m :
  preserves (carries (accountedAtFirst n)) (jpeg_go.scanSwitch buf m).
Proof. unfold jpeg_go.scanSwitch. destruct m; preserve; auto with scanner. Qed.

Lemma first_scanPass switch :
  (∀ buf m, preserves (carries (accountedAtFirst n)) (switch buf m)) ->
  preserves (carries (accountedAtFirst n)) (scanPass switch).
Proof. intros H. unfold scanPass. preserve; auto with scanner. Qed.

End First.

Lemma first_scan switch r E X out jr' :
  (∀ n buf m, preserves (carries (accountedAtFirst n)) (switch buf m)) ->
  scan (scanPass switch) r E X = Some (out, jr') ->
  accountedAtFirst (length (bufio.rest r)) jr'.
Proof.
  intros Hsw. unfold scan.
  destruct (loop _ _ _) as [[out0 jr0]|] eqn:El; [|done].
  intros [= _ <-].
  eapply (loop_carries _ _ _ (first_scanPass _ switch (Hsw _))); [|exact El].
  unfold accountedAtFirst, counted. simpl. by rewrite Z.sub_diag.
Qed.

(** Whatever the callbacks do: if the first callback a scan invokes is the
    Exif callback, the header it is handed carries, as its TIFF origin, the
    offset in the stream of the TIFF block its reader stands at; and a scan
    that invokes no callback ends with the count of discarded bytes equal
    to the number of bytes consumed.  The same in the earlier revision. *)
Theorem first_exif_header_carries_stream_offset r E X :
  (∃ out jr', ScanJPEG r E X = Some (out, jr') ∧
     accountedAtFirst (length (bufio.rest r)) jr') ∧
  (∃ out jr', jpeg_go.ScanJPEG r E X = Some (out, jr') ∧
     accountedAtFirst (length (bufio.rest r)) jr').
Proof.
  split.
  - destruct (ScanJPEG_total r E X) as [[out jr'] Hs].
    exists out, jr'. split; [done|].
    apply (first_scan _ _ _ _ _ _ first_scanSwitch Hs).
  - destruct (ScanJPEG_go_total r E X) as [[out jr'] Hs].
    exists out, jr'. split; [done|].
    apply (first_scan _ _ _ _ _ _ first_go_scanSwitch Hs).
Qed.

(** ** Bytes that are not markers *)

Lemma after_leading switch g : ∀ jr s,
  bufio.rest (br jr) = (g ++ s)%list ->
  Forall (fun b => b ≠ xff) g ->
  (16 ≤ length s)%nat ->
  ∃ jr', after (scanPass switch) (length g) jr = Some jr' ∧
    skippedTo (length g) jr jr' ∧ sof jr' = sof jr ∧
    wrap32 (discarded jr') = wrap32 (discarded jr + Z.of_nat (length g)).
Proof.
  induction g as [|b g IH]; intros jr s Hr Hg Hl.
  { exists jr. split_and!; try done. simpl. by rewrite Z.add_0_r. }
  apply Forall_cons in Hg as [Hb Hg].
  destruct (scanPass_cases switch jr)
    as [[Hlen _]|[(b' & tl & Hr' & _ & Hs)|[(tl & Hr' & _)
        |(c & tl & Hr' & _)]]].
  - rewrite Hr in Hlen. simpl in Hlen. rewrite length_app in Hlen. lia.
  - destruct (IH (skip 1 jr) s) as (jr' & Ha & (Hrest & Hpos & Hcalls) & Hsof & Hd);
      [by rewrite rest_skip, Hr|done..|].
    exists jr'. split; [simpl; by rewrite Hs|].
    split_and!; [split_and!; [|done..]|done|].
    + rewrite Hrest, rest_skip, drop_drop. done.
    + rewrite Hd. unfold skip. simpl. rewrite wrap32_wrap32, wrap32_add_l.
      f_equal. lia.
  - rewrite Hr in Hr'. simpl in Hr'. by injection Hr' as ->.
  - rewrite Hr in Hr'. simpl in Hr'. by injection Hr' as ->.
Qed.

(** Bytes that do not start a marker are passed over one pass each: with a
    run [g] of bytes other than 0xFF ahead and a full lookahead window
    behind it, the next [length g] passes of the loop (in either revision)
    discard exactly [g] and continue; the nesting counter, the image-size
    record and the log of callbacks are untouched, and the count of
    discarded bytes has gone up by [length g]. *)
Theorem scan_passes_over_other_bytes jr g s :
  bufio.rest (br jr) = (g ++ s)%list ->
  Forall (fun b => b ≠ xff) g ->
  (16 ≤ length s)%nat ->
  (∃ jr', after scanBody (length g) jr = Some jr' ∧
     bufio.rest (br jr') = s ∧ pos jr' = pos jr ∧ calls jr' = calls jr ∧
     sof jr' = sof jr ∧
     wrap32 (discarded jr') = wrap32 (discarded jr + Z.of_nat (length g))) ∧
  (∃ jr', after jpeg_go.scanBody (length g) jr = Some jr' ∧
     bufio.rest (br jr') = s ∧ pos jr' = pos jr ∧ calls jr' = calls jr ∧
     sof jr' = sof jr ∧
     wrap32 (discarded jr') = wrap32 (discarded jr + Z.of_nat (length g))).
Proof.
  intros Hr Hg Hl. split.
  - destruct (after_leading scanSwitch g jr s Hr Hg Hl)
      as (jr' & Ha & (Hrest & Hpos & Hcalls) & Hsof & Hd).
    exists jr'. split_and!; try done.
    by rewrite Hrest, Hr, drop_app_length.
  - destruct (after_leading jpeg_go.scanSwitch g jr s Hr Hg Hl)
      as (jr' & Ha & (Hrest & Hpos & Hcalls) & Hsof & Hd).
    exists jr'. split_and!; try done.
    by rewrite Hrest, Hr, drop_app_length.
Qed.

Lemma scan_passes_over_other_bytes_witness :
  let jr := newJPEGReader
              (bufio.ofBytes ([x00; x4a; x46] ++ samples.baseline) EOF)
              None None in
  ∃ jr', after scanBody 3 jr = Some jr' ∧
    bufio.rest (br jr') = samples.baseline ∧ pos jr' = 0 ∧ calls jr' = [] ∧
    sof jr' = mkSofHeader 0 0 0 ∧
    wrap32 (discarded jr') = wrap32 (0 + 3).
Proof.
  intros jr.
  apply (scan_passes_over_other_bytes jr [x00; x4a; x46] samples.baseline).
  - reflexivity.
  - repeat (apply Forall_cons_2; [discriminate|]). apply Forall_nil_2.
  - vm_compute. lia.
Defined.

(** ** Markers that end the scan *)

Lemma scan_after_panic body r E X n jr v jr' :
  (∀ jr jr', body jr = (Ok Continue, jr') ->
     (length (bufio.rest (br jr')) < length (bufio.rest (br jr)))%nat) ->
  after body n (newJPEGReader r E X) = Some jr ->
  body jr = (Panic v, jr') ->
  scan body r E X = Some (recover (Panic v), jr').
Proof.
  intros Hb Ha Hr. unfold scan.
  pose proof (after_length _ _ _ _ Hb Ha) as Hl. simpl in Hl.
  replace (S (length (bufio.rest r)))
    with (n + S (length (bufio.rest r) - n))%nat by lia.
  rewrite (loop_after _ _ _ _ _ Ha). simpl. by rewrite Hr.
Qed.

Lemma scanSwitch_unlisted buf m :
  listed m = false ->
  scanSwitch buf m = ret (Return None) ∧
  jpeg_go.scanSwitch buf m = ret (Return None).
Proof. by destruct m. Qed.

(** A marker the [switch] has no case for (Start-Of-Scan, a comment, a
    fill byte, SOF11 and the other frame types outside its list, APP3 to
    APP6, ...) ends the scan, and so does any marker other than SOI met
    before the first SOI: [ScanJPEG] returns [nil] there, in the state it
    arrived in; nothing of the marker is consumed.  The same in the earlier
    revision. *)
Theorem scan_stops_at_unlisted_marker r E X :
  (∀ n jr m tl,
     after scanBody n (newJPEGReader r E X) = Some jr ->
     bufio.rest (br jr) = xff :: m :: tl -> (14 ≤ length tl)%nat ->
     m ≠ markerSOI -> pos jr = 0 ∨ (0 < pos jr ∧ listed m = false) ->
     ScanJPEG r E X = Some (Ok None, jr)) ∧
  (∀ n jr m tl,
     after jpeg_go.scanBody n (newJPEGReader r E X) = Some jr ->
     bufio.rest (br jr) = xff :: m :: tl -> (14 ≤ length tl)%nat ->
     m ≠ markerSOI -> pos jr = 0 ∨ (0 < pos jr ∧ listed m = false) ->
     jpeg_go.ScanJPEG r E X = Some (Ok None, jr)).
Proof.
  assert (∀ switch n jr m tl,
    (∀ buf m, progressing (switch buf m)) ->
    (∀ buf m, listed m = false -> switch buf m = ret (Return None)) ->
    after (scanPass switch) n (newJPEGReader r E X) = Some jr ->
    bufio.rest (br jr) = xff :: m :: tl -> (14 ≤ length tl)%nat ->
    m ≠ markerSOI -> pos jr = 0 ∨ (0 < pos jr ∧ listed m = false) ->
    scan (scanPass switch) r E X = Some (Ok None, jr)) as H.
  { intros switch n jr m tl Hp Hsw Ha Hr Hl Hm Hc.
    eapply scan_after; [|exact Ha|].
    { intros ??. by apply scanPass_progress. }
    destruct (scanPass_cases switch jr)
      as [[Hlen _]|[(b' & tl' & Hr' & Hb & _)|[(tl' & Hr' & _)
          |(c & tl' & Hr' & _ & _ & [[Hpos Hs]|[Hpos Hs]])]]].
    - rewrite Hr in Hlen. simpl in Hlen. lia.
    - rewrite Hr in Hr'. by injection Hr' as <- _.
    - rewrite Hr in Hr'. by injection Hr' as -> _.
    - rewrite Hr in Hr'. injection Hr' as <- _.
      destruct Hc as [Hc|[_ Hc]]; [lia|]. by rewrite Hs, (Hsw _ _ Hc).
    - done. }
  split; intros n jr m tl.
  - apply H; [apply progressing_scanSwitch|].
    intros buf m' Hm'. by apply scanSwitch_unlisted.
  - apply H; [apply progressing_go_scanSwitch|].
    intros buf m' Hm'. by apply scanSwitch_unlisted.
Qed.

Lemma scan_stops_at_unlisted_marker_witness :
  let r := bufio.ofBytes (samples.SOI ++ samples.SOS ++ samples.DQT) EOF in
  ∃ jr, after scanBody 1 (newJPEGReader r None None) = Some jr ∧
    bufio.rest (br jr) = (samples.SOS ++ samples.DQT)%list ∧
    ScanJPEG r None None = Some (Ok None, jr).
Proof.
  intros r. eexists. split; [vm_compute; reflexivity|].
  split; [reflexivity|].
  apply (proj1 (scan_stops_at_unlisted_marker r None None) 1%nat _ xda
           ([x00; x08; x01; x01; x00; x00; x3f; x00; x7f] ++ samples.DQT));
    [vm_compute; reflexivity|reflexivity|vm_compute; lia|discriminate|].
  right. split; [vm_compute; reflexivity|reflexivity].
Defined.



(** The outermost image's EOI gives [nil], that of a nested image the
    sentinel. *)
Example outermost_EOI_returns_nil :
  result (ScanJPEG (bufio.ofBytes (samples.SOI ++ samples.EOI ++ samples.DQT)
                                  EOF) None None) = Some (Ok None) ∧
  result (ScanJPEG (bufio.ofBytes (samples.SOI ++ samples.SOI ++ samples.EOI
                                     ++ samples.DQT) EOF) None None)
    = Some (Ok (Some ErrEndOfImage)).
Proof. by vm_compute. Qed.

(** In the latest revision an APP7, APP8, APP9, APP10 or APP14 segment is
    discarded by its declared length and the scan returns [nil] right
    behind it; a restart-interval marker makes it return six bytes on.
    Whatever follows is not looked at. *)
Theorem scan_returns_behind_ignored_segment r E X :
  (∀ n jr s following,
     after scanBody n (newJPEGReader r E X) = Some jr ->
     bufio.rest (br jr) = (encode s ++ following)%list ->
     returning (code s) = true -> declared s < 65536 ->
     (12 ≤ length (payload s ++ following))%nat -> 0 < pos jr ->
     ScanJPEG r E X = Some (Ok None, skip (length (encode s)) jr)) ∧
  (∀ n jr tl,
     after scanBody n (newJPEGReader r E X) = Some jr ->
     bufio.rest (br jr) = xff :: markerDRI :: tl ->
     (14 ≤ length tl)%nat -> 0 < pos jr ->
     ScanJPEG r E X = Some (Ok None, skip 6 jr)).
Proof.
  split.
  - intros n jr s following Ha Hr Hc Hd Hl Hp. unfold ScanJPEG.
    eapply scan_after; [|exact Ha|].
    { intros ??. apply scanPass_progress, progressing_scanSwitch. }
    unfold encode in Hr. cbn [app] in Hr.
    unfold scanBody. rewrite (scanPass_marker _ _ _ _ Hr);
      [|cbn [length]; lia|by intros E'; rewrite E' in Hc|done].
    assert (ignoreMarker (lookahead jr) jr
              = (Ok None, skip (length (encode s)) jr)) as Hi.
    { unfold ignoreMarker, bind, lift.
      rewrite (markerLength_lookahead _ _ _ _ _ _ Hr), declared_bytes by done.
      rewrite discard_enough.
      - do 2 f_equal. rewrite length_encode. unfold declared. lia.
      - unfold declared. lia.
      - rewrite Hr. cbn [length]. rewrite length_app in *. unfold declared.
        lia. }
    unfold scanSwitch. destruct (code s); try discriminate Hc;
      unfold bind; by rewrite Hi.
  - intros n jr tl Ha Hr Hl Hp. unfold ScanJPEG.
    eapply scan_after; [|exact Ha|].
    { intros ??. apply scanPass_progress, progressing_scanSwitch. }
    unfold scanBody. rewrite (scanPass_marker _ _ _ _ Hr Hl); [|done..].
    unfold scanSwitch, bind.
    rewrite discard_enough; [done|lia|rewrite Hr; simpl; lia].
Qed.

Lemma scan_returns_behind_ignored_segment_witness :
  let r := bufio.ofBytes samples.adobeThenExif EOF in
  let app14 := mkSegment markerAPP14
                 (bytes "Adobe" ++ [x00; x64; x00; x00; x00; x00; x00]) in
  ∃ jr, after scanBody 1 (newJPEGReader r (Some samples.notesHeader) None)
          = Some jr ∧
    ScanJPEG r (Some samples.notesHeader) None
      = Some (Ok None, skip (length (encode app14)) jr).
Proof.
  intros r app14. eexists. split; [vm_compute; reflexivity|].
  apply (proj1 (scan_returns_behind_ignored_segment r
                  (Some samples.notesHeader) None) 1%nat _ app14
           (samples.exifSegment ++ samples.DQT ++ samples.SOF0 ++ samples.DHT
              ++ samples.SOS ++ samples.EOI));
    [vm_compute; reflexivity|reflexivity|reflexivity|reflexivity|
     vm_compute; lia|vm_compute; reflexivity].
Defined.

(** ** APP0 segments *)

(** In the latest revision an APP0 segment with the JFIF extension
    signature ([JFXX]) loses only its two marker bytes: [jfifHeader] gives
    0 for it, so the pass discards 0 + 2 bytes and continues, and the scan
    goes on inside the segment (where a thumbnail may lie). *)
Theorem JFXX_segment_loses_its_marker_only jr hi lo tl :
  bufio.rest (br jr) =
    ([xff; markerAPP0; hi; lo] ++ jfifPrefixExt ++ tl)%list ->
  (7 ≤ length tl)%nat -> 0 < pos jr ->
  scanBody jr = (Ok Continue, skip 2 jr) ∧
  bufio.rest (br (skip 2 jr)) = ([hi; lo] ++ jfifPrefixExt ++ tl)%list.
Proof.
  intros Hr Hl Hp. split; [|by rewrite rest_skip, Hr].
  change jfifPrefixExt with [x4a; x46; x58; x58; x00] in Hr.
  cbn [app] in Hr. unfold scanBody.
  rewrite (scanPass_marker _ _ _ _ Hr); [|cbn [length]; lia|done..].
  unfold scanSwitch, isJFIFPrefix, isJFIFPrefixExt, jfifHeader, isJFIFPrefix,
    substring, reslice, lookahead.
  rewrite Hr. unfold bind, lift. simpl.
  rewrite discard_enough; [done|lia|rewrite Hr; simpl; lia].
Qed.

Lemma JFXX_segment_loses_its_marker_only_witness :
  let jr := set_pos 1 (newJPEGReader
              (bufio.ofBytes ([xff; xe0; x00; x10] ++ jfifPrefixExt
                                ++ [x10] ++ samples.SOI ++ samples.SOF0) EOF)
              None None) in
  scanBody jr = (Ok Continue, skip 2 jr) ∧
  bufio.rest (br (skip 2 jr)) =
    ([x00; x10] ++ jfifPrefixExt ++ [x10] ++ samples.SOI ++ samples.SOF0)%list.
Proof.
  intros jr.
  apply (JFXX_segment_loses_its_marker_only jr x00 x10
           ([x10] ++ samples.SOI ++ samples.SOF0));
    [reflexivity|vm_compute; lia|reflexivity].
Defined.

(** ** The XMP sub-reader *)

Lemma wrap32_idem a : wrap32 (wrap32 a) = wrap32 a.
Proof. unfold wrap32. by rewrite Zmod_mod. Qed.

Lemma discarded_skip k jr :
  discarded (skip k jr) = wrap32 (discarded jr + Z.of_nat k).
Proof. unfold skip. cbn [discarded set_discarded]. apply wrap32_wrap32. Qed.

Lemma xmp_marker_and_prefix hi lo :
  length ([xff; markerAPP1; hi; lo] ++ xmpPrefix) = 33%nat.
Proof. reflexivity. Qed.

Lemma readXMP_start jr hi lo tl :
  bufio.rest (br jr) = ([xff; markerAPP1; hi; lo] ++ xmpPrefix ++ tl)%list ->
  readXMP (lookahead jr) jr =
    (let remain := b2z lo + b2z hi * 256 - 2 - xmpPrefixLength in
     let* xmpReader := get XMPReader in
     match xmpReader with
     | Some f =>
       let* (err, n) := callXMP f remain in
       match err with
       | Some e => ret (Some e)
       | None => discard n
       end
     | None => discard remain
     end) (skip 33 jr) ∧
  bufio.rest (br (skip 33 jr)) = tl.
Proof.
  intros Hr. split.
  - unfold readXMP. cbn [app] in Hr.
    rewrite (markerLength_lookahead _ _ _ _ _ _ Hr).
    unfold bind at 1, lift at 1. cbn beta iota.
    unfold bind at 1.
    rewrite discard_enough; [done|done|].
    rewrite Hr. cbn [length]. change (length (xmpPrefix ++ tl))
      with (length (xmpPrefix ++ tl)). rewrite length_app.
    change (length xmpPrefix) with 29%nat. change xmpPrefixLength with 29. lia.
  - rewrite rest_skip, Hr, app_assoc.
    by rewrite <- (xmp_marker_and_prefix hi lo), drop_app_length.
Qed.

(** [readXMP] reads nothing of the window but the declared length. *)
Lemma readXMP_packet buf jr f head packet tl :
  XMPReader jr = Some f ->
  markerLength buf = Ok (Z.of_nat (length packet) + 31) ->
  bufio.rest (br jr) = (head ++ packet ++ tl)%list ->
  length head = 33%nat ->
  let out := f packet in
  let k := Nat.min (cbRead out) (length packet) in
  ∃ jr', readXMP buf jr = (cbOut out, jr') ∧
    calls jr' = (calls jr ++ [CallXMP packet])%list ∧
    bufio.rest (br jr') =
      match cbOut out with
      | Ok None => tl
      | _ => (drop k packet ++ tl)%list
      end ∧
    wrap32 (discarded jr') =
      wrap32 (discarded jr + 33 +
              match cbOut out with
              | Ok None => Z.of_nat (length packet - k)
              | _ => 0
              end).
Proof.
  intros Hf Hm Hr Hh out k.
  assert (bufio.rest (br (skip 33 jr)) = (packet ++ tl)%list) as Hrest.
  { by rewrite rest_skip, Hr, <- Hh, drop_app_length. }
  unfold readXMP. rewrite Hm.
  unfold bind at 1, lift at 1. cbn beta iota.
  unfold bind at 1.
  rewrite discard_enough;
    [|done|change (4 + xmpPrefixLength) with 33;
           rewrite Hr, length_app, Hh; lia].
  change (Z.to_nat (4 + xmpPrefixLength)) with 33%nat. cbn beta iota.
  change xmpPrefixLength with 29.
  replace (Z.of_nat (length packet) + 31 - 2 - 29)
    with (Z.of_nat (length packet)) by lia.
  unfold bind at 1, get at 1.
  change (XMPReader (skip 33 jr)) with (XMPReader jr). rewrite Hf.
  unfold bind, callXMP. rewrite Hrest, Nat2Z.id, take_app_length.
  fold out. fold k.
  set (jr1 := add_call (CallXMP packet)
                (set_br (bufio.advance k (br (skip 33 jr))) (skip 33 jr))).
  assert (bufio.rest (br jr1) = (drop k packet ++ tl)%list) as Hr1.
  { change (bufio.rest (br jr1))
      with (drop k (bufio.rest (br (skip 33 jr)))).
    rewrite Hrest. rewrite drop_app_le by lia. done. }
  assert (wrap32 (discarded jr1) = wrap32 (discarded jr + 33)) as Hd1.
  { change (discarded jr1) with (discarded (skip 33 jr)).
    by rewrite discarded_skip, wrap32_idem. }
  destruct (cbOut out) as [[e|]|v]; simpl.
  - exists jr1. split_and!; [done..|]. by rewrite Z.add_0_r.
  - destruct (decide (k = length packet)) as [Hk|Hk].
    + rewrite Hk, Z.sub_diag. exists jr1.
      split_and!; [done..| |].
      * rewrite Hr1, Hk. by rewrite drop_all.
      * rewrite Hd1, Nat.sub_diag. by rewrite Z.add_0_r.
    + assert (k < length packet)%nat by lia.
      rewrite discard_enough;
        [|lia|rewrite Hr1, length_app, length_drop; lia].
      eexists. split_and!; [done..| |].
      * rewrite rest_skip, Hr1.
        replace (Z.to_nat (Z.of_nat (length packet) - Z.of_nat k))
          with (length (drop k packet)) by (rewrite length_drop; lia).
        by rewrite drop_app_length.
      * rewrite discarded_skip, wrap32_idem.
        rewrite <- wrap32_add_l, Hd1, wrap32_add_l. f_equal. lia.
  - exists jr1. split_and!; [done..|]. by rewrite Z.add_0_r.
Qed.

(** At an XMP APP1 segment, with an XMP callback installed, [readXMP]
    discards the marker, the length and the signature (33 bytes) and calls
    the callback on a reader limited to the packet: the callback sees the
    packet and nothing behind it.  The result is the callback's.  When the
    callback returns [nil], [readXMP] discards what the callback left of the
    packet, so that the stream stands right behind the segment however much
    the callback read; the bytes the callback read itself are not in the
    count of discarded bytes.  When the callback fails, nothing more is
    discarded. *)
Theorem readXMP_hands_over_packet jr f hi lo packet tl :
  XMPReader jr = Some f ->
  bufio.rest (br jr) =
    ([xff; markerAPP1; hi; lo] ++ xmpPrefix ++ packet ++ tl)%list ->
  b2z lo + b2z hi * 256 = Z.of_nat (length packet) + 31 ->
  let out := f packet in
  let k := Nat.min (cbRead out) (length packet) in
  ∃ jr', readXMP (lookahead jr) jr = (cbOut out, jr') ∧
    calls jr' = (calls jr ++ [CallXMP packet])%list ∧
    bufio.rest (br jr') =
      match cbOut out with
      | Ok None => tl
      | _ => (drop k packet ++ tl)%list
      end ∧
    wrap32 (discarded jr') =
      wrap32 (discarded jr + 33 +
              match cbOut out with
              | Ok None => Z.of_nat (length packet - k)
              | _ => 0
              end).
Proof.
  intros Hf Hr Hlen out k.
  apply (readXMP_packet (lookahead jr) jr f
           ([xff; markerAPP1; hi; lo] ++ xmpPrefix) packet tl);
    [done| |by rewrite <- app_assoc|done].
  cbn [app] in Hr. rewrite (markerLength_lookahead _ _ _ _ _ _ Hr).
  by rewrite Hlen.
Qed.


Lemma readXMP_hands_over_packet_witness :
  let jr := newJPEGReader
              (bufio.ofBytes (samples.xmpSegment ++ samples.DQT) EOF)
              None (Some samples.readsFive) in
  ∃ jr', readXMP (lookahead jr) jr = (Ok None, jr') ∧
    calls jr' = [CallXMP samples.xmpPacket] ∧
    bufio.rest (br jr') = samples.DQT ∧
    wrap32 (discarded jr') = wrap32 (0 + 33 + 7).
Proof.
  intros jr.
  apply (readXMP_hands_over_packet jr samples.readsFive x00 x2b
           samples.xmpPacket samples.DQT); reflexivity.
Defined.

(** Without an XMP callback [readXMP] discards the 33 bytes of marker,
    length and signature and then the rest of the segment by the declared
    length: the stream stands right behind the segment.  A declared length
    under 31 (less than the signature takes) makes the second [discard]
    fail with [bufio.ErrNegativeCount], with the 33 bytes gone; one that
    runs past the end of the stream makes it fail with the stream's error,
    with the stream used up. *)
Theorem readXMP_without_callback jr hi lo tl :
  XMPReader jr = None ->
  bufio.rest (br jr) = ([xff; markerAPP1; hi; lo] ++ xmpPrefix ++ tl)%list ->
  let remain := b2z lo + b2z hi * 256 - 31 in
  ∃ jr', calls jr' = calls jr ∧
    readXMP (lookahead jr) jr =
      (Ok (if remain <? 0 then Some ErrNegativeCount
           else if remain <=? Z.of_nat (length tl) then None
           else Some (bufio.rerr (br jr))), jr') ∧
    bufio.rest (br jr') = (if remain <? 0 then tl else drop (Z.to_nat remain) tl).
Proof.
  intros Hf Hr remain.
  destruct (readXMP_start jr hi lo tl Hr) as [-> Hrest].
  change xmpPrefixLength with 29. cbn zeta.
  replace (b2z lo + b2z hi * 256 - 2 - 29) with remain by (unfold remain; lia).
  unfold bind at 1, get at 1.
  change (XMPReader (skip 33 jr)) with (XMPReader jr). rewrite Hf.
  destruct (Z.ltb_spec remain 0) as [Hneg|Hpos].
  - unfold discard, bufio.Discard.
    destruct (Z.eqb_spec remain 0); [lia|].
    destruct (Z.ltb_spec remain 0); [|lia].
    eexists. split_and!; [|reflexivity|]; done.
  - destruct (Z.leb_spec remain (Z.of_nat (length tl))) as [Hle|Hgt].
    + destruct (Z.eqb_spec remain 0) as [H0|H0].
      * exists (skip 33 jr). rewrite H0.
        split_and!; [done..|]. by rewrite Hrest.
      * rewrite discard_enough; [|lia|by rewrite Hrest].
        eexists. split_and!; [|reflexivity|]; [done|].
        by rewrite rest_skip, Hrest.
    + rewrite discard_short by (by rewrite Hrest).
      eexists. split_and!; [|reflexivity|]; [done|].
      rewrite rest_skip, Hrest. rewrite !drop_ge; [done|lia|lia].
Qed.

Lemma readXMP_without_callback_witness :
  let jr := newJPEGReader
              (bufio.ofBytes ([xff; xe1; x00; x10] ++ xmpPrefix ++ samples.DQT)
                             EOF) None None in
  ∃ jr', calls jr' = calls jr ∧
    readXMP (lookahead jr) jr = (Ok (Some ErrNegativeCount), jr') ∧
    bufio.rest (br jr') = samples.DQT.
Proof.
  intros jr.
  apply (readXMP_without_callback jr x00 x10 samples.DQT); reflexivity.
Defined.

(** ** The Exif sub-reader without a callback *)

(** The result of [discard] and what it leaves of the stream. *)
Lemma discard_outcome i jr :
  ∃ jr', calls jr' = calls jr ∧
    discard i jr =
      (Ok (if i <? 0 then Some ErrNegativeCount
           else if i <=? Z.of_nat (length (bufio.rest (br jr))) then None
           else Some (bufio.rerr (br jr))), jr') ∧
    bufio.rest (br jr') =
      (if i <? 0 then bufio.rest (br jr)
       else drop (Z.to_nat i) (bufio.rest (br jr))).
Proof.
  destruct (Z.ltb_spec i 0) as [Hneg|Hpos].
  - unfold discard, bufio.Discard.
    destruct (Z.eqb_spec i 0); [lia|].
    destruct (Z.ltb_spec i 0); [|lia].
    eexists. split_and!; [|reflexivity|]; done.
  - destruct (Z.leb_spec i (Z.of_nat (length (bufio.rest (br jr)))))
      as [Hle|Hgt].
    + destruct (Z.eqb_spec i 0) as [->|H0].
      * by exists jr.
      * rewrite discard_enough; [|lia|done].
        eexists. split_and!; [|reflexivity|]; done.
    + rewrite discard_short by done.
      eexists. split_and!; [|reflexivity|]; [done|].
      rewrite rest_skip. rewrite !drop_ge; [done|lia|lia].
Qed.

Lemma readExif_start jr hi lo tl :
  ExifReader jr = None ->
  bufio.rest (br jr) = ([xff; markerAPP1; hi; lo] ++ exifPrefix ++ tl)%list ->
  (8 ≤ length tl)%nat ->
  bufio.rest (br (skip 10 jr)) = tl ∧
  readExif (lookahead jr) jr =
    discard (b2z lo + b2z hi * 256 - 8) (skip 10 jr) ∧
  jpeg_go.readExif (lookahead jr) jr =
    discard (wrap16 (b2z lo + b2z hi * 256 - 8)) (skip 10 jr).
Proof.
  intros Hf Hr Hl.
  change exifPrefix with [x45; x78; x69; x66; x00; x00] in Hr.
  cbn [app] in Hr.
  assert (bufio.rest (br (skip 10 jr)) = tl) as Hrest
    by (by rewrite rest_skip, Hr).
  split; [done|].
  assert (discard (2 + 8) jr = (Ok None, skip 10 jr)) as Hd.
  { apply discard_enough; [done|]. rewrite Hr. cbn [length]. lia. }
  split.
  - unfold readExif. rewrite (markerLength_lookahead _ _ _ _ _ _ Hr).
    unfold bind at 1, lift at 1. cbn beta iota.
    change exifPrefixLength with 8. unfold bind at 1. rewrite Hd.
    cbn beta iota. unfold bind at 1. change (Z.to_nat 8) with 8%nat.
    rewrite peek_enough by (by rewrite Hrest).
    cbn beta iota. unfold bind at 1, get at 1.
    change (ExifReader (skip 10 jr)) with (ExifReader jr). by rewrite Hf.
  - unfold jpeg_go.readExif. rewrite (markerLength_lookahead _ _ _ _ _ _ Hr).
    unfold bind at 1, lift at 1. cbn beta iota.
    change exifPrefixLength with 8. unfold bind at 1. rewrite Hd.
    cbn beta iota. unfold bind at 1. change (Z.to_nat 8) with 8%nat.
    rewrite peek_enough by (by rewrite Hrest).
    cbn beta iota. unfold bind at 1, get at 1.
    change (ExifReader (skip 10 jr)) with (ExifReader jr). by rewrite Hf.
Qed.

(** Without an Exif callback, at an Exif APP1 segment with the eight bytes
    of a TIFF header behind the signature, [readExif] discards the ten
    bytes of marker, length and signature and then the payload by its
    length, the declared length minus 8.  The latest revision computes that
    length as an [int]: a declared length under 8 makes the second
    [discard] fail with [bufio.ErrNegativeCount].  The earlier revision
    computes it as a [uint16]: a declared length under 8 wraps around, and
    up to 65535 bytes behind the signature are discarded. *)
Theorem readExif_without_callback jr hi lo tl :
  ExifReader jr = None ->
  bufio.rest (br jr) = ([xff; markerAPP1; hi; lo] ++ exifPrefix ++ tl)%list ->
  (8 ≤ length tl)%nat ->
  let len := b2z lo + b2z hi * 256 in
  (∃ jr', calls jr' = calls jr ∧
     readExif (lookahead jr) jr =
       (Ok (if len <? 8 then Some ErrNegativeCount
            else if len - 8 <=? Z.of_nat (length tl) then None
            else Some (bufio.rerr (br jr))), jr') ∧
     bufio.rest (br jr') =
       (if len <? 8 then tl else drop (Z.to_nat (len - 8)) tl)) ∧
  (∃ jr', calls jr' = calls jr ∧
     jpeg_go.readExif (lookahead jr) jr =
       (Ok (if wrap16 (len - 8) <=? Z.of_nat (length tl) then None
            else Some (bufio.rerr (br jr))), jr') ∧
     bufio.rest (br jr') = drop (Z.to_nat (wrap16 (len - 8))) tl).
Proof.
  intros Hf Hr Hl len.
  destruct (readExif_start jr hi lo tl Hf Hr Hl) as (Hrest & -> & ->).
  split.
  - destruct (discard_outcome (len - 8) (skip 10 jr)) as (jr' & Hc & Hd & Hr').
    exists jr'. fold len. rewrite Hd, Hr', Hrest.
    by destruct (Z.ltb_spec (len - 8) 0), (Z.ltb_spec len 8); try lia.
  - destruct (discard_outcome (wrap16 (len - 8)) (skip 10 jr))
      as (jr' & Hc & Hd & Hr').
    exists jr'. fold len. rewrite Hd, Hr', Hrest.
    assert (0 ≤ wrap16 (len - 8)) by (apply Z.mod_pos_bound; lia).
    destruct (Z.ltb_spec (wrap16 (len - 8)) 0); [lia|]. done.
Qed.

Lemma readExif_without_callback_witness :
  let jr := newJPEGReader
              (bufio.ofBytes ([xff; xe1; x00; x06] ++ exifPrefix ++ samples.DQT)
                             EOF) None None in
  (∃ jr', calls jr' = calls jr ∧
     readExif (lookahead jr) jr = (Ok (Some ErrNegativeCount), jr') ∧
     bufio.rest (br jr') = samples.DQT) ∧
  (∃ jr', calls jr' = calls jr ∧
     jpeg_go.readExif (lookahead jr) jr = (Ok (Some EOF), jr') ∧
     bufio.rest (br jr') = []).
Proof.
  intros jr.
  apply (readExif_without_callback jr x00 x06 samples.DQT);
    [reflexivity|reflexivity|vm_compute; lia].
Defined.

(** ** APP1 segments that are neither Exif nor XMP *)

Lemma substring_reach jr lo hi :
  substring (lookahead jr) lo hi =
    if decide (lo ≤ hi ∧ hi ≤ length (reach jr))%nat
    then Ok (take (hi - lo) (drop lo (reach jr)))
    else Panic sliceOutOfRange.
Proof. unfold substring, reslice, reach. by case_decide. Qed.

Lemma reach_length jr :
  (16 ≤ length (bufio.rest (br jr)))%nat -> (16 ≤ length (reach jr))%nat.
Proof.
  intros H. unfold reach, lookahead. simpl.
  rewrite length_app, length_take. lia.
Qed.

Lemma readAPP1_out_of_reach jr :
  (16 ≤ length (bufio.rest (br jr)))%nat ->
  take 6 (drop 4 (reach jr)) ≠ exifPrefix ->
  (length (reach jr) < 33)%nat ∨
    ((length (reach jr) < 38)%nat ∧ take 29 (drop 4 (reach jr)) ≠ xmpPrefix) ->
  readAPP1 (lookahead jr) jr = (Panic sliceOutOfRange, jr).
Proof.
  intros Hl He Hx. pose proof (reach_length jr Hl) as Hreach.
  unfold readAPP1, isExifPrefix, isXMPPrefix, isXMPPrefixExt.
  rewrite !substring_reach.
  rewrite decide_True by lia. change (10 - 4)%nat with 6%nat.
  unfold bind at 1, lift at 1. cbn [res_bind].
  rewrite (bool_decide_eq_false_2 _ He).
  destruct Hx as [Hx|[Hx Hn]].
  - by rewrite decide_False by lia.
  - destruct (decide (4 ≤ 33 ∧ 33 ≤ length (reach jr))%nat); [|done].
    change (33 - 4)%nat with 29%nat.
    unfold bind at 1, lift at 1. cbn [res_bind].
    rewrite (bool_decide_eq_false_2 _ Hn).
    by rewrite decide_False by lia.
Qed.

(** In the latest revision the signature tests for XMP slice the lookahead
    window beyond its 16 bytes ([buf[4:33]], [buf[4:38]]), into whatever
    the reader's buffer holds behind it.  When the scan arrives at an APP1
    marker that is not Exif with less than that in reach (the window lies
    near the end of the buffer), the slice expression panics, and
    [ScanJPEG] returns the recovered runtime error, in the state it arrived
    in. *)
Theorem APP1_signature_test_out_of_reach r E X n jr tl :
  after scanBody n (newJPEGReader r E X) = Some jr ->
  bufio.rest (br jr) = xff :: markerAPP1 :: tl -> (14 ≤ length tl)%nat ->
  0 < pos jr ->
  take 6 (drop 4 (reach jr)) ≠ exifPrefix ->
  (length (reach jr) < 33)%nat ∨
    ((length (reach jr) < 38)%nat ∧ take 29 (drop 4 (reach jr)) ≠ xmpPrefix) ->
  ScanJPEG r E X =
    Some (Ok (Some (RuntimeError "slice bounds out of range")), jr).
Proof.
  intros Ha Hr Hl Hp He Hx. unfold ScanJPEG.
  change (Ok (Some (RuntimeError "slice bounds out of range")))
    with (recover (Panic sliceOutOfRange)).
  eapply scan_after_panic; [|exact Ha|].
  { intros ??. apply scanPass_progress, progressing_scanSwitch. }
  unfold scanBody. rewrite (scanPass_marker _ _ _ _ Hr Hl); [|done..].
  unfold scanSwitch, bind.
  rewrite readAPP1_out_of_reach; [done| |done..].
  rewrite Hr. simpl. lia.
Qed.

Lemma APP1_signature_test_out_of_reach_witness :
  let data := (samples.SOI ++ [xff; xe1; x00; x10] ++ replicate 14 x20)%list in
  let r := bufio.mkReader 0 data EOF (fun _ _ => []) in
  ∃ jr, after scanBody 1 (newJPEGReader r None None) = Some jr ∧
    ScanJPEG r None None =
      Some (Ok (Some (RuntimeError "slice bounds out of range")), jr).
Proof.
  intros data r. eexists. split; [vm_compute; reflexivity|].
  apply (APP1_signature_test_out_of_reach r None None 1%nat _
           ([x00; x10] ++ replicate 14 x20));
    [vm_compute; reflexivity|reflexivity|vm_compute; lia|
     vm_compute; reflexivity|discriminate|left; vm_compute; lia].
Defined.

(** With enough in reach, an APP1 segment that carries neither the Exif nor
    the XMP signature is discarded by its declared length and the scan goes
    on, no callback invoked. *)
Theorem other_APP1_segment_is_skipped jr s following :
  bufio.rest (br jr) = (encode s ++ following)%list ->
  code s = markerAPP1 -> declared s < 65536 ->
  (12 ≤ length (payload s ++ following))%nat -> 0 < pos jr ->
  (38 ≤ length (reach jr))%nat ->
  take 6 (drop 4 (reach jr)) ≠ exifPrefix ->
  take 29 (drop 4 (reach jr)) ≠ xmpPrefix ->
  scanBody jr = (Ok Continue, skip (length (encode s)) jr) ∧
  calls (skip (length (encode s)) jr) = calls jr ∧
  bufio.rest (br (skip (length (encode s)) jr)) = following.
Proof.
  intros Hr Hc Hd Hl Hp Hreach He Hx.
  split; [|split; [done|by rewrite rest_skip, Hr, drop_app_length]].
  unfold encode in Hr. rewrite Hc in Hr. cbn [app] in Hr.
  unfold scanBody. rewrite (scanPass_marker _ _ _ _ Hr);
    [|cbn [length]; lia|done..].
  assert (ignoreMarker (lookahead jr) jr
            = (Ok None, skip (length (encode s)) jr)) as Hi.
  { unfold ignoreMarker, bind, lift.
    rewrite (markerLength_lookahead _ _ _ _ _ _ Hr), declared_bytes by done.
    rewrite discard_enough.
    - do 2 f_equal. rewrite length_encode. unfold declared. lia.
    - unfold declared. lia.
    - rewrite Hr. cbn [length]. rewrite length_app in *. unfold declared.
      lia. }
  unfold scanSwitch, readAPP1, isExifPrefix, isXMPPrefix, isXMPPrefixExt.
  rewrite !substring_reach. rewrite !decide_True by lia.
  change (10 - 4)%nat with 6%nat. change (33 - 4)%nat with 29%nat.
  unfold bind at 1. unfold bind at 1, lift at 1. cbn [res_bind].
  rewrite (bool_decide_eq_false_2 _ He).
  unfold bind at 1, lift at 1. cbn [res_bind].
  rewrite (bool_decide_eq_false_2 _ Hx).
  unfold bind at 1, lift at 1. cbn [res_bind].
  destruct (bool_decide _); by rewrite Hi.
Qed.

Lemma other_APP1_segment_is_skipped_witness :
  let s := mkSegment markerAPP1 (bytes "QVCI" ++ replicate 10 x00) in
  let jr := set_pos 1 (newJPEGReader
              (bufio.ofBytes (encode s ++ samples.DQT) EOF) None None) in
  scanBody jr = (Ok Continue, skip (length (encode s)) jr) ∧
  calls (skip (length (encode s)) jr) = calls jr ∧
  bufio.rest (br (skip (length (encode s)) jr)) = samples.DQT.
Proof.
  intros s jr.
  apply (other_APP1_segment_is_skipped jr s samples.DQT);
    [reflexivity|reflexivity|reflexivity|vm_compute; lia|reflexivity|
     vm_compute; lia|discriminate|discriminate].
Defined.

(** ** Callback invocations *)

#[global] Instance sameCalls_preorder : PreOrder sameCalls.
Proof. split; unfold sameCalls; [done | intros a b c; congruence]. Qed.

Lemma sameCalls_discard i : preserves sameCalls (discard i).
Proof.
  intros jr. by destruct (discard_cases i jr) as [->|(k & Hk & ->)].
Qed.

Lemma sameCalls_set_pos p : preserves sameCalls (modify (set_pos p)).
Proof. by intros jr. Qed.

Lemma sameCalls_set_sof h : preserves sameCalls (modify (set_sof h)).
Proof. by intros jr. Qed.

#[local] Hint Resolve sameCalls_discard sameCalls_set_pos sameCalls_set_sof
  : scanner.

Lemma sameCalls_ignoreMarker buf : preserves sameCalls (ignoreMarker buf).
Proof. unfold ignoreMarker. preserve; auto with scanner. Qed.

Lemma sameCalls_readSOF buf : preserves sameCalls (readSOF buf).
Proof. unfold readSOF. preserve; auto with scanner. Qed.

#[local] Hint Resolve sameCalls_ignoreMarker sameCalls_readSOF : scanner.

(** Only the APP1 case invokes a callback. *)
Lemma sameCalls_scanSwitch buf m :
  m ≠ markerAPP1 ->
  preserves sameCalls (scanSwitch buf m) ∧
  preserves sameCalls (jpeg_go.scanSwitch buf m).
Proof.
  intros Hm. unfold scanSwitch, jpeg_go.scanSwitch.
  split; destruct m; try done; preserve; auto with scanner.
Qed.

Lemma hasAPP1_tail b l : hasAPP1 (b :: l) = false -> hasAPP1 l = false.
Proof.
  destruct l as [|c l]; [done|]. cbn [hasAPP1]. intros H.
  by apply orb_false_elim in H as [_ H].
Qed.

Lemma hasAPP1_suffix l' l :
  l' `suffix_of` l -> hasAPP1 l = false -> hasAPP1 l' = false.
Proof.
  intros [k ->]. induction k as [|b k IH]; [done|].
  intros H. apply IH. by apply hasAPP1_tail in H.
Qed.

Lemma pass_without_APP1 switch jr :
  (∀ buf m, m ≠ markerAPP1 -> preserves sameCalls (switch buf m)) ->
  hasAPP1 (bufio.rest (br jr)) = false ->
  calls (scanPass switch jr).2 = calls jr.
Proof.
  intros Hsw Hno.
  destruct (scanPass_cases switch jr)
    as [[_ ->]|[(b & tl & _ & _ & ->)|[(tl & _ & ->)
        |(c & tl & Hr & _ & _ & [[_ ->]|[_ ->]])]]]; try done.
  apply Hsw. intros ->. rewrite Hr in Hno. cbn [hasAPP1] in Hno.
  by rewrite !bool_decide_eq_true_2 in Hno.
Qed.

Lemma loop_without_APP1 switch fuel :
  (∀ buf m, preserves forward (switch buf m)) ->
  (∀ buf m, m ≠ markerAPP1 -> preserves sameCalls (switch buf m)) ->
  ∀ jr out jr', hasAPP1 (bufio.rest (br jr)) = false ->
    loop (scanPass switch) fuel jr = Some (out, jr') -> calls jr' = calls jr.
Proof.
  intros Hfw Hsw. induction fuel as [|fuel IH]; intros jr out jr' Hno; [done|].
  simpl. pose proof (pass_without_APP1 switch jr Hsw Hno) as Hc.
  pose proof (forward_scanPass switch Hfw jr) as Hf.
  destruct (scanPass switch jr) as [[[|err]|v] jr1]; simpl in *.
  - intros Hl. rewrite <- Hc. eapply IH; [|exact Hl].
    eapply hasAPP1_suffix; [|exact Hno]. by destruct Hf.
  - by intros [= _ <-].
  - by intros [= _ <-].
Qed.

(** A callback is invoked only at an APP1 marker: on a stream in which the
    byte 0xFF is nowhere followed by 0xE1, [ScanJPEG] invokes none, in
    either revision. *)
Theorem no_APP1_no_callback r E X :
  hasAPP1 (bufio.rest r) = false ->
  (∃ out jr', ScanJPEG r E X = Some (out, jr') ∧ calls jr' = []) ∧
  (∃ out jr', jpeg_go.ScanJPEG r E X = Some (out, jr') ∧ calls jr' = []).
Proof.
  intros Hno. split.
  - destruct (ScanJPEG_total r E X) as [[out jr'] Hs].
    exists out, jr'. split; [done|].
    unfold ScanJPEG, scan in Hs.
    destruct (loop _ _ _) as [[out0 jr0]|] eqn:El; [|done].
    injection Hs as _ <-.
    eapply (loop_without_APP1 scanSwitch) in El; [done| | |done].
    + apply forward_scanSwitch.
    + intros buf m Hm. by apply sameCalls_scanSwitch.
  - destruct (ScanJPEG_go_total r E X) as [[out jr'] Hs].
    exists out, jr'. split; [done|].
    unfold jpeg_go.ScanJPEG, scan in Hs.
    destruct (loop _ _ _) as [[out0 jr0]|] eqn:El; [|done].
    injection Hs as _ <-.
    eapply (loop_without_APP1 jpeg_go.scanSwitch) in El; [done| | |done].
    + apply forward_go_scanSwitch.
    + intros buf m Hm. by apply sameCalls_scanSwitch.
Qed.

Lemma no_APP1_no_callback_witness :
  ∃ out jr',
    ScanJPEG (bufio.ofBytes samples.baseline EOF)
             (Some samples.panicsWithText) (Some samples.readsFive)
      = Some (out, jr') ∧ calls jr' = [].
Proof.
  apply (no_APP1_no_callback (bufio.ofBytes samples.baseline EOF)
           (Some samples.panicsWithText) (Some samples.readsFive)).
  reflexivity.
Defined.

(** *** The earlier revision stops at the first marker *)

Lemma returns_return {A} (m : M A) (f : A -> option error) :
  returns (bind m (fun a => ret (Return (f a)))).
Proof. intros jr. unfold bind, ret. by destruct (m jr) as [[a|v] jr1]. Qed.

Lemma returns_lift_bind {A} (r : res A) (f : A -> M step) :
  (∀ a, returns (f a)) -> returns (bind (lift r) f).
Proof. intros Hf jr. unfold bind, lift. destruct r as [a|v]; [apply Hf|done]. Qed.

Lemma returns_get_bind {A} (g : jpegReader -> A) (f : A -> M step) :
  (∀ a, returns (f a)) -> returns (bind (get g) f).
Proof. intros Hf jr. unfold bind, get. apply Hf. Qed.

Lemma returns_modify_bind (g : jpegReader -> jpegReader) (k : M step) :
  returns k -> returns (bind (modify g) (fun _ => k)).
Proof. intros Hk jr. unfold bind, modify. apply Hk. Qed.

Lemma returns_ret e : returns (ret (Return e)).
Proof. by intros jr. Qed.

Ltac returning_pass :=
  repeat match goal with
  | |- returns (bind _ (fun e => ret (Return e))) =>
      apply (returns_return _ (fun e => e))
  | |- returns (bind (lift _) _) => apply returns_lift_bind; intros
  | |- returns (bind (get _) _) => apply returns_get_bind; intros
  | |- returns (bind (modify _) _) => apply returns_modify_bind
  | |- returns (ret (Return _)) => apply returns_ret
  | |- returns (if ?b then _ else _) => destruct b
  end.

Lemma returns_go_scanSwitch buf m : returns (jpeg_go.scanSwitch buf m).
Proof. unfold jpeg_go.scanSwitch. destruct m; returning_pass. Qed.

Lemma oneMoreCall_same {A} (m : M A) :
  preserves sameCalls m -> preserves oneMoreCall m.
Proof. intros H jr. left. apply H. Qed.

Lemma oneMoreCall_bind_l {A B} (m : M A) (f : A -> M B) :
  preserves sameCalls m -> (∀ a, preserves oneMoreCall (f a)) ->
  preserves oneMoreCall (bind m f).
Proof.
  intros Hm Hf jr. unfold bind. specialize (Hm jr).
  destruct (m jr) as [[a|v] jr1]; simpl in *; [|by left].
  specialize (Hf a jr1). unfold oneMoreCall, sameCalls in *.
  by rewrite <- Hm.
Qed.

Lemma oneMoreCall_bind_r {A B} (m : M A) (f : A -> M B) :
  preserves oneMoreCall m -> (∀ a, preserves sameCalls (f a)) ->
  preserves oneMoreCall (bind m f).
Proof.
  intros Hm Hf jr. unfold bind. specialize (Hm jr).
  destruct (m jr) as [[a|v] jr1]; simpl in *; [|done].
  specialize (Hf a jr1). unfold oneMoreCall, sameCalls in *.
  by rewrite Hf.
Qed.

Lemma oneMoreCall_callExif f h : preserves oneMoreCall (callExif f h).
Proof. intros jr. right. by eexists. Qed.

Lemma oneMoreCall_callXMP f n : preserves oneMoreCall (callXMP f n).
Proof. intros jr. right. by eexists. Qed.

Ltac one_more_call :=
  repeat match goal with
  | |- preserves oneMoreCall (bind (callExif _ _) _) =>
      apply oneMoreCall_bind_r;
        [apply oneMoreCall_callExif|by (preserve; auto with scanner)]
  | |- preserves oneMoreCall (bind (callXMP _ _) _) =>
      apply oneMoreCall_bind_r;
        [apply oneMoreCall_callXMP|by (preserve; auto with scanner)]
  | |- preserves oneMoreCall (bind _ _) =>
      apply oneMoreCall_bind_l; [by (preserve; auto with scanner)|intros]
  | |- preserves oneMoreCall (match ?x with _ => _ end) => destruct x
  | |- preserves oneMoreCall (if ?b then _ else _) => destruct b
  | |- preserves oneMoreCall _ =>
      apply oneMoreCall_same; by (preserve; auto with scanner)
  end.

Lemma oneMoreCall_go_readExif buf : preserves oneMoreCall (jpeg_go.readExif buf).
Proof. unfold jpeg_go.readExif. one_more_call. Qed.

Lemma oneMoreCall_readXMP buf : preserves oneMoreCall (readXMP buf).
Proof. unfold readXMP. one_more_call. Qed.

Lemma oneMoreCall_go_readAPP1 buf : preserves oneMoreCall (jpeg_go.readAPP1 buf).
Proof.
  unfold jpeg_go.readAPP1.
  apply oneMoreCall_bind_l; [by preserve|]. intros [|].
  { apply oneMoreCall_readXMP. }
  apply oneMoreCall_bind_l; [by preserve|]. intros [|].
  { apply oneMoreCall_go_readExif. }
  apply oneMoreCall_same. by preserve.
Qed.

Lemma oneMoreCall_go_scanSwitch buf m :
  preserves oneMoreCall (jpeg_go.scanSwitch buf m).
Proof.
  destruct (decide (m = markerAPP1)) as [->|Hm].
  - unfold jpeg_go.scanSwitch. apply oneMoreCall_bind_r.
    + apply oneMoreCall_go_readAPP1.
    + intros err. apply preserves_ret. apply _.
  - apply oneMoreCall_same. by apply sameCalls_scanSwitch.
Qed.

Lemma go_pass_calls jr :
  match jpeg_go.scanBody jr with
  | (Ok Continue, jr') => calls jr' = calls jr
  | (_, jr') => oneMoreCall jr jr'
  end.
Proof.
  unfold jpeg_go.scanBody.
  destruct (scanPass_cases jpeg_go.scanSwitch jr)
    as [[_ ->]|[(b & tl & _ & _ & ->)|[(tl & _ & ->)
        |(c & tl & Hr & _ & _ & [[_ ->]|[_ ->]])]]]; try done;
    try by left.
  pose proof (returns_go_scanSwitch (lookahead jr) c jr) as Hret.
  pose proof (oneMoreCall_go_scanSwitch (lookahead jr) c jr) as Hone.
  by destruct (jpeg_go.scanSwitch _ _ _) as [[[|err]|v] jr1].
Qed.

Lemma go_loop_calls fuel : ∀ jr out jr',
  loop jpeg_go.scanBody fuel jr = Some (out, jr') -> oneMoreCall jr jr'.
Proof.
  induction fuel as [|fuel IH]; intros jr out jr'; [done|]. simpl.
  pose proof (go_pass_calls jr) as Hp.
  destruct (jpeg_go.scanBody jr) as [[[|err]|v] jr1].
  - intros Hl. apply IH in Hl. unfold oneMoreCall in *. by rewrite <- Hp.
  - by intros [= _ <-].
  - by intros [= _ <-].
Qed.

(** The earlier revision handles one marker per scan: every case of its
    [switch] returns, so the pass at the first marker other than SOI (an
    APP0 segment, say) is the last, whatever the marker, and a scan invokes
    at most one callback. *)
Theorem earlier_scan_ends_at_first_marker r E X :
  (∀ n jr m tl,
     after jpeg_go.scanBody n (newJPEGReader r E X) = Some jr ->
     bufio.rest (br jr) = xff :: m :: tl -> (14 ≤ length tl)%nat ->
     m ≠ markerSOI ->
     ∃ out, jpeg_go.ScanJPEG r E X = Some (out, (jpeg_go.scanBody jr).2)) ∧
  (∃ out jr', jpeg_go.ScanJPEG r E X = Some (out, jr') ∧
     (length (calls jr') ≤ 1)%nat).
Proof.
  split.
  - intros n jr m tl Ha Hr Hl Hm.
    assert ((jpeg_go.scanBody jr).1 ≠ Ok Continue) as Hret.
    { unfold jpeg_go.scanBody.
      destruct (scanPass_cases jpeg_go.scanSwitch jr)
        as [[_ ->]|[(b & tl' & Hr' & Hb & _)|[(tl' & Hr' & _)
            |(c & tl' & _ & _ & _ & [[_ ->]|[_ ->]])]]]; try done.
      - rewrite Hr in Hr'. by injection Hr' as <- _.
      - rewrite Hr in Hr'. by injection Hr' as -> _.
      - apply returns_go_scanSwitch. }
    destruct (jpeg_go.scanBody jr) as [[[|err]|v] jr1] eqn:Eb; [done| |].
    + exists (Ok err). unfold jpeg_go.ScanJPEG. eapply scan_after; [|exact Ha|done].
      intros ??. apply scanPass_progress, progressing_go_scanSwitch.
    + eexists. unfold jpeg_go.ScanJPEG. eapply scan_after_panic; [|exact Ha|done].
      intros ??. apply scanPass_progress, progressing_go_scanSwitch.
  - destruct (ScanJPEG_go_total r E X) as [[out jr'] Hs].
    exists out, jr'. split; [done|].
    unfold jpeg_go.ScanJPEG, scan in Hs.
    destruct (loop _ _ _) as [[out0 jr0]|] eqn:El; [|done].
    injection Hs as _ <-. apply go_loop_calls in El.
    destruct El as [->|[c ->]]; simpl; lia.
Qed.

Lemma earlier_scan_ends_at_first_marker_witness :
  let r := bufio.ofBytes samples.tablesThenExif EOF in
  ∃ jr out, after jpeg_go.scanBody 1
              (newJPEGReader r (Some samples.notesHeader) None) = Some jr ∧
    bufio.rest (br jr) = drop 2 samples.tablesThenExif ∧
    jpeg_go.ScanJPEG r (Some samples.notesHeader) None
      = Some (out, (jpeg_go.scanBody jr).2).
Proof.
  intros r. eexists.
  assert (∀ (P Q : Prop) (R : res (option error) -> Prop),
            P -> Q -> (P -> ∃ out, R out) -> ∃ out, P ∧ Q ∧ R out) as H.
  { intros P Q R HP HQ [out HR]; [done|]. by exists out. }
  apply H; [vm_compute; reflexivity|reflexivity|]. intros Ha.
  apply (proj1 (earlier_scan_ends_at_first_marker r
                  (Some samples.notesHeader) None) 1%nat _ xdb
           (drop 4 samples.tablesThenExif));
    [exact Ha|reflexivity|vm_compute; lia|discriminate].
Defined.

(** ** The signature tests of the two revisions *)

Lemma substring_vis buf lo hi :
  (lo ≤ hi ≤ length (vis buf))%nat ->
  substring buf lo hi = Ok (take (hi - lo) (drop lo (vis buf))).
Proof.
  intros H. unfold substring, reslice.
  rewrite decide_True by (rewrite length_app; lia). simpl. f_equal.
  rewrite drop_app_le by lia. rewrite take_app_le; [done|].
  rewrite length_drop. lia.
Qed.

(** On a 16-byte lookahead window the two revisions test the same bytes for
    the Exif and the ICC signature.  For XMP the earlier revision compares
    the first 12 bytes of the signature, inside the window, where the
    latest compares all 29: whatever the latest accepts the earlier
    accepts.  For Photoshop the byte sequence the earlier revision compares
    with is not the signature (it spells [Photop 3.0]): the two tests never
    both accept. *)
Theorem signature_tests_of_the_revisions buf :
  length (vis buf) = 16%nat ->
  jpeg_go.isJpegExifPrefix buf = isExifPrefix buf ∧
  jpeg_go.isICCProfilePrefix buf = isICCProfilePrefix buf ∧
  (isXMPPrefix buf = Ok true -> jpeg_go.isXMPPrefix buf = Ok true) ∧
  (jpeg_go.isPhotoshopPrefix buf = Ok true -> isPhotoshopPrefix buf = Ok false).
Proof.
  intros Hl.
  unfold jpeg_go.isJpegExifPrefix, jpeg_go.isICCProfilePrefix,
    jpeg_go.isXMPPrefix, jpeg_go.isPhotoshopPrefix.
  rewrite !bytesAt_spec by (rewrite Hl; simpl; lia).
  unfold isExifPrefix, isICCProfilePrefix, isPhotoshopPrefix.
  rewrite !substring_vis by lia. cbn [length res_bind].
  split_and!; [done|done| |].
  - unfold isXMPPrefix, substring, reslice.
    case_decide as Hc; [|done]. cbn [res_bind vis]. intros [= Hx].
    apply bool_decide_eq_true_1 in Hx. f_equal.
    apply bool_decide_eq_true_2.
    apply (f_equal (take 12)) in Hx. rewrite take_take in Hx.
    change (12 `min` (33 - 4))%nat with 12%nat in Hx.
    assert (take 12 (drop 4 (vis buf))
              = take 12 (drop 4 (vis buf ++ spare buf))) as Hv.
    { rewrite drop_app_le by lia.
      rewrite take_app_le; [done|rewrite length_drop; lia]. }
    rewrite Hv. exact Hx.
  - intros [= Hp]. apply bool_decide_eq_true_1 in Hp. f_equal.
    apply bool_decide_eq_false_2. intros Hq.
    apply (f_equal (take 10)) in Hp. rewrite take_take in Hp.
    change (10 `min` 11)%nat with 10%nat in Hp.
    change (14 - 4)%nat with 10%nat in Hq. rewrite Hq in Hp.
    discriminate Hp.
Qed.

Lemma signature_tests_of_the_revisions_witness :
  let buf := ofBytes (take 16 samples.exifSegment) in
  jpeg_go.isJpegExifPrefix buf = isExifPrefix buf ∧
  jpeg_go.isICCProfilePrefix buf = isICCProfilePrefix buf ∧
  (isXMPPrefix buf = Ok true -> jpeg_go.isXMPPrefix buf = Ok true) ∧
  (jpeg_go.isPhotoshopPrefix buf = Ok true -> isPhotoshopPrefix buf = Ok false).
Proof.
  intros buf. apply (signature_tests_of_the_revisions buf). reflexivity.
Defined.

(** ** The unused method of the earlier revision *)

(** [scanMarkers], which nothing calls, is the [switch] of the earlier
    [ScanJPEG] taken out into a method: on every marker the [switch] has a
    case for, the [switch] returns what [scanMarkers] returns, in the same
    state.  They differ on the other markers, where [scanMarkers] discards
    one byte and the [switch] ends the scan without consuming anything. *)
Theorem scanMarkers_is_the_switch buf m jr :
  index buf 1 = Ok m ->
  (listed m = true ->
     jpeg_go.scanSwitch buf m jr =
       (let* err := jpeg_go.scanMarkers buf in ret (Return err)) jr) ∧
  (listed m = false ->
     jpeg_go.scanMarkers buf jr = discard 1 jr ∧
     jpeg_go.scanSwitch buf m jr = (Ok (Return None), jr)).
Proof.
  intros Hm. unfold jpeg_go.scanMarkers.
  unfold bind at 2 4, lift at 1 2. rewrite Hm. cbn beta iota.
  split; intros Hl.
  - destruct m; try discriminate Hl; unfold jpeg_go.scanSwitch;
      unfold bind, ret, get, modify, lift;
      repeat match goal with
      | |- context [match ?x with _ => _ end] => destruct x
      end; reflexivity.
  - by destruct m.
Qed.

Lemma scanMarkers_is_the_switch_witness :
  let jr := set_pos 1 (newJPEGReader
              (bufio.ofBytes samples.DQT EOF) None None) in
  jpeg_go.scanSwitch (lookahead jr) markerDQT jr =
    (let* err := jpeg_go.scanMarkers (lookahead jr) in ret (Return err)) jr.
Proof.
  intros jr.
  apply (scanMarkers_is_the_switch (lookahead jr) markerDQT jr);
    reflexivity.
Defined.

(** ** Marker names *)

Lemma in_allBytes b : In b allBytes.
Proof.
  assert (nth (N.to_nat (Byte.to_N b)) allBytes x00 = b) as <-
    by (by destruct b).
  apply nth_In. pose proof (Byte.to_N_bounded b). 
  change (length allBytes) with 256%nat. lia.
Qed.

Lemma markerString_distinct :
  forallb (fun a =>
    forallb (fun b =>
      implb (String.eqb (markerString a) (markerString b)) (Byte.eqb a b))
      allBytes) allBytes = true.
Proof. vm_compute. reflexivity. Qed.

(** [markerString] names every marker the [switch] of [ScanJPEG] has a
    case for, and SOF11 besides, which the [switch] has no case for; every
    other byte gets [Unknown marker] and its value in hexadecimal.  No two
    bytes get the same string. *)
Theorem markerString_names m :
  (is_Some (mapMarkerString !! m) ↔ listed m = true ∨ m = markerSOF11) ∧
  (mapMarkerString !! m = None ->
     markerString m = String.append "Unknown marker " (formatHex m)) ∧
  (∀ m', markerString m = markerString m' -> m = m').
Proof.
  split_and!.
  - destruct m; vm_compute; split;
      first [by intros [? [=]] | by intros [[=]|[=]] | by eauto | by intros _; eauto].
  - intros H. unfold markerString. by rewrite H.
  - intros m' Heq.
    pose proof markerString_distinct as H.
    rewrite forallb_forall in H. specialize (H m (in_allBytes m)).
    rewrite forallb_forall in H. specialize (H m' (in_allBytes m')).
    rewrite Heq, String.eqb_refl in H. simpl in H.
    by apply Byte.byte_dec_bl.
Qed.


Lemma markerString_names_witness :
  markerString markerSOF0 = "SOF0" ∧
  markerString xda = "Unknown marker da" ∧
  (∀ m', markerString xda = markerString m' -> xda = m').
Proof.
  destruct (markerString_names xda) as (_ & H2 & H3).
  split; [reflexivity|]. split; [apply H2; reflexivity|exact H3].
Defined.

(** ** The earlier revision does not panic on its own *)

Section Calm.
Context (E : option ExifCallback) (X : option XMPCallback).

Lemma calm_ret {A} (a : A) : calm E X (ret a).
Proof. intros jr _ _. by eexists. Qed.

Lemma calm_get {A} (g : jpegReader -> A) : calm E X (get g).
Proof. intros jr _ _. by eexists. Qed.

Lemma calm_modify g : calm E X (modify g).
Proof. intros jr _ _. by eexists. Qed.

Lemma calm_peek n : calm E X (peek n).
Proof. intros jr _ _. by eexists. Qed.

Lemma calm_discard i : calm E X (discard i).
Proof.
  intros jr _ _. unfold discard. destruct (i =? 0); [by eexists|].
  destruct (bufio.Discard (br jr) i) as [[k err] r']. by eexists.
Qed.

Lemma calm_bind {A B} (m : M A) (f : A -> M B) :
  preserves forward m -> calm E X m -> (∀ a, calm E X (f a)) ->
  calm E X (bind m f).
Proof.
  intros Hfw Hm Hf jr HjE HjX. unfold bind.
  destruct (Hm jr HjE HjX) as [a Ha]. specialize (Hfw jr).
  destruct (m jr) as [[a'|v] jr1]; simpl in *; [|done].
  destruct Hfw as [H1 H2 _ _ _]. apply Hf; congruence.
Qed.

Lemma calm_lift_bind {A B} (r : res A) a (f : A -> M B) :
  r = Ok a -> calm E X (f a) -> calm E X (bind (lift r) f).
Proof. intros -> Hf jr HjE HjX. unfold bind, lift. by apply Hf. Qed.

Lemma calm_get_ExifReader {B} (f : option ExifCallback -> M B) :
  calm E X (f E) -> calm E X (bind (get ExifReader) f).
Proof. intros Hf jr HjE HjX. unfold bind, get. rewrite HjE. by apply Hf. Qed.

Lemma calm_get_XMPReader {B} (f : option XMPCallback -> M B) :
  calm E X (f X) -> calm E X (bind (get XMPReader) f).
Proof. intros Hf jr HjE HjX. unfold bind, get. rewrite HjX. by apply Hf. Qed.

Lemma calm_callXMP f n : steadyXMP X -> X = Some f -> calm E X (callXMP f n).
Proof.
  intros HX Hf jr _ _. unfold callXMP. simpl.
  destruct (HX f (take (Z.to_nat n) (bufio.rest (br jr))) Hf) as [err ->].
  by eexists.
Qed.

End Calm.

Lemma markerLength_window buf :
  length (vis buf) = 16%nat -> ∃ len, markerLength buf = Ok len.
Proof.
  intros Hl. unfold markerLength, reslice.
  rewrite decide_True by (rewrite length_app; lia). cbn [res_bind].
  unfold binary.Uint16. cbn [vis].
  destruct (vis buf) as [|b0 [|b1 [|b2 [|b3 l]]]]; try (simpl in Hl; lia).
  by eexists.
Qed.

Section CalmScan.
Context (X : option XMPCallback).
Hypothesis HX : steadyXMP X.
Context (buf : slice).
Hypothesis Hbuf : length (vis buf) = 16%nat.

Ltac calm :=
  repeat match goal with
  | |- calm _ _ (bind (get ExifReader) _) => apply calm_get_ExifReader
  | |- calm _ _ (bind (get XMPReader) _) => apply calm_get_XMPReader
  | |- calm _ _ (bind (lift (markerLength buf)) _) =>
      let len := fresh "len" in let H := fresh "H" in
      destruct (markerLength_window buf Hbuf) as [len H];
      apply (calm_lift_bind _ _ _ len); [exact H|]
  | |- calm _ _ (bind (lift (jpeg_go.bytesAt buf _ _)) _) =>
      eapply calm_lift_bind;
        [apply bytesAt_spec; rewrite Hbuf; simpl; lia|]
  | |- calm _ _ (bind _ _) =>
      apply calm_bind; [by (preserve; auto with scanner)| |]
  | |- calm _ _ (ret _) => apply calm_ret
  | |- calm _ _ (get _) => apply calm_get
  | |- calm _ _ (modify _) => apply calm_modify
  | |- calm _ _ (peek _) => apply calm_peek
  | |- calm _ _ (discard _) => apply calm_discard
  | |- calm _ _ (callXMP _ _) => by apply calm_callXMP
  | |- ∀ _, _ => intros
  | |- calm _ _ (match ?x with _ => _ end) => destruct x eqn:?
  | |- calm _ _ (if ?b then _ else _) => destruct b
  end.

Lemma calm_ignoreMarker : calm None X (ignoreMarker buf).
Proof. unfold ignoreMarker. calm. Qed.

Lemma calm_readXMP : calm None X (readXMP buf).
Proof. unfold readXMP. calm. Qed.

Lemma calm_go_readExif : calm None X (jpeg_go.readExif buf).
Proof. unfold jpeg_go.readExif. calm. Qed.

Lemma calm_go_readAPP1 : calm None X (jpeg_go.readAPP1 buf).
Proof.
  unfold jpeg_go.readAPP1, jpeg_go.isXMPPrefix, jpeg_go.isJpegExifPrefix.
  calm; auto using calm_readXMP, calm_go_readExif.
Qed.

Lemma calm_readSOF : calm None X (readSOF buf).
Proof.
  unfold readSOF.
  destruct (vis buf) as [|b0 [|b1 [|b2 [|b3 [|b4 [|b5 [|b6 [|b7 [|b8 [|b9 l]]]]]]]]]]
    eqn:Ev; try (simpl in Hbuf; lia).
  destruct (markerLength_window buf) as [len H]; [by rewrite Ev|].
  apply (calm_lift_bind _ _ _ len); [exact H|].
  eapply calm_lift_bind.
  { unfold reslice. rewrite decide_True by (rewrite length_app, Ev; simpl; lia).
    cbn [res_bind]. unfold binary.Uint16. cbn [vis]. rewrite Ev. reflexivity. }
  eapply calm_lift_bind.
  { unfold reslice. rewrite decide_True by (rewrite length_app, Ev; simpl; lia).
    cbn [res_bind]. unfold binary.Uint16. cbn [vis]. rewrite Ev. reflexivity. }
  eapply calm_lift_bind.
  { unfold index. rewrite Ev. reflexivity. }
  calm.
Qed.

Lemma calm_go_scanSwitch m : calm None X (jpeg_go.scanSwitch buf m).
Proof.
  unfold jpeg_go.scanSwitch, jpeg_go.isICCProfilePrefix,
    jpeg_go.isPhotoshopPrefix.
  destruct m; calm;
    auto using calm_readSOF, calm_ignoreMarker, calm_go_readAPP1.
Qed.

End CalmScan.

Lemma calm_go_scanBody X : steadyXMP X -> calm None X jpeg_go.scanBody.
Proof.
  intros HX jr HjE HjX. unfold jpeg_go.scanBody.
  destruct (scanPass_cases jpeg_go.scanSwitch jr)
    as [[_ ->]|[(b & tl & _ & _ & ->)|[(tl & _ & ->)
        |(c & tl & Hr & _ & Hl & [[_ ->]|[_ ->]])]]]; try by eexists.
  refine (calm_go_scanSwitch X HX (lookahead jr) _ c jr HjE HjX).
  unfold lookahead. cbn [vis]. rewrite length_take, Hr. cbn [length]. lia.
Qed.

Lemma calm_loop X body :
  preserves forward body -> calm None X body ->
  ∀ fuel jr out jr', ExifReader jr = None -> XMPReader jr = X ->
    loop body fuel jr = Some (out, jr') -> ∃ err, out = Ok err.
Proof.
  intros Hfw Hc. induction fuel as [|fuel IH]; intros jr out jr' HjE HjX;
    [done|].
  simpl. destruct (Hc jr HjE HjX) as [s Hs]. specialize (Hfw jr).
  destruct (body jr) as [[[|err]|v] jr1]; simpl in *; [| |done].
  - destruct Hfw as [H1 H2 _ _ _]. apply IH; congruence.
  - intros [= <- _]. by eexists.
Qed.

(** Without an Exif callback, and with an XMP callback that does not
    panic, the scan loop of the earlier revision never panics, whatever the
    stream: its signature tests index inside the 16-byte lookahead window.
    The deferred [recover] of [ScanJPEG] has nothing to recover. *)
Theorem earlier_scan_does_not_panic r X :
  steadyXMP X ->
  ∃ err jr',
    loop jpeg_go.scanBody (S (length (bufio.rest r))) (newJPEGReader r None X)
      = Some (Ok err, jr') ∧
    jpeg_go.ScanJPEG r None X = Some (Ok err, jr').
Proof.
  intros HX.
  destruct (ScanJPEG_go_total r None X) as [[out jr'] Hs].
  unfold jpeg_go.ScanJPEG, scan in *.
  destruct (loop _ _ _) as [[out0 jr0]|] eqn:El; [|done].
  destruct (calm_loop X jpeg_go.scanBody forward_go_scanBody
              (calm_go_scanBody X HX) _ (newJPEGReader r None X) _ _
              eq_refl eq_refl El) as [err ->].
  by exists err, jr0.
Qed.

Lemma earlier_scan_does_not_panic_witness :
  let r := bufio.mkReader 0
             (samples.SOI ++ [xff; xe1; x00; x10] ++ replicate 14 x20)
             EOF (fun _ _ => []) in
  ∃ err jr',
    loop jpeg_go.scanBody (S (length (bufio.rest r))) (newJPEGReader r None None)
      = Some (Ok err, jr') ∧
    jpeg_go.ScanJPEG r None None = Some (Ok err, jr').
Proof.
  intros r. apply (earlier_scan_does_not_panic r None). by intros f v.
Defined.

(** ** Errors the latest revision drops *)

(** An error the Exif callback returns: the latest revision drops it and
    goes on scanning from where the callback left the reader (the APP1 case
    ends in [continue]); the earlier revision ends the scan and returns
    it. *)
Theorem callback_error_is_dropped
    jr f hi lo t0 t1 t2 t3 t4 t5 t6 t7 tl o off e :
  ExifReader jr = Some f ->
  bufio.rest (br jr) =
    ([xff; markerAPP1; hi; lo] ++ exifPrefix
       ++ [t0; t1; t2; t3; t4; t5; t6; t7] ++ tl)%list ->
  meta.BinaryOrder (ofBytes [t0; t1; t2; t3; t4; t5; t6; t7]) = Ok (Some o) ->
  binary.Uint32 o (ofBytes [t4; t5; t6; t7]) = Ok off ->
  0 < pos jr ->
  let len := b2z lo + b2z hi * 256 in
  let tiff := ([t0; t1; t2; t3; t4; t5; t6; t7] ++ tl)%list in
  let h remain := meta.NewExifHeader o off (wrap32 (discarded jr + 10))
                    (wrap32 remain) imagetype.ImageJPEG in
  (cbOut (f tiff (h (len - 8))) = Ok (Some e) ->
     ∃ jr', scanBody jr = (Ok Continue, jr') ∧
       calls jr' = (calls jr ++ [CallExif tiff (h (len - 8))])%list) ∧
  (cbOut (f tiff (h (wrap16 (len - 8)))) = Ok (Some e) ->
     ∃ jr', jpeg_go.scanBody jr = (Ok (Return (Some e)), jr') ∧
       calls jr' = (calls jr ++ [CallExif tiff (h (wrap16 (len - 8)))])%list).
Proof.
  intros Hf Hr Ho Hoff Hp len tiff h.
  destruct (readExif_callback jr f hi lo t0 t1 t2 t3 t4 t5 t6 t7 tl o
              Hf Hr Ho off Hoff) as [H1 H2].
  assert (discarded (skip 10 jr) = wrap32 (discarded jr + 10)) as Hd
    by apply discarded_skip.
  rewrite Hd in H1, H2. change exifPrefixLength with 8 in H1, H2.
  assert (bufio.rest (br (skip 10 jr)) = tiff) as Ht.
  { rewrite rest_skip, Hr. done. }
  change exifPrefix with [x45; x78; x69; x66; x00; x00] in Hr.
  cbn [app] in Hr.
  split; intros He.
  - unfold scanBody.
    rewrite (scanPass_marker _ _ _ _ Hr); [|cbn [length]; lia|done..].
    unfold scanSwitch, readAPP1.
    assert (isExifPrefix (lookahead jr) = Ok true) as ->.
    { unfold isExifPrefix, substring, reslice, lookahead. by rewrite Hr. }
    unfold bind at 1. unfold bind at 1, lift at 1. cbn beta iota.
    rewrite H1. unfold callExif. rewrite Ht. fold len. fold (h (len - 8)).
    rewrite He. by eexists.
  - unfold jpeg_go.scanBody.
    rewrite (scanPass_marker _ _ _ _ Hr); [|cbn [length]; lia|done..].
    unfold jpeg_go.scanSwitch, jpeg_go.readAPP1.
    assert (jpeg_go.isXMPPrefix (lookahead jr) = Ok false) as ->.
    { unfold jpeg_go.isXMPPrefix, lookahead. by rewrite Hr. }
    assert (jpeg_go.isJpegExifPrefix (lookahead jr) = Ok true) as ->.
    { unfold jpeg_go.isJpegExifPrefix, lookahead. by rewrite Hr. }
    unfold bind at 1. unfold bind at 1, lift at 1. cbn beta iota.
    unfold bind at 1, lift at 1. cbn beta iota.
    rewrite H2. unfold callExif. rewrite Ht. fold len.
    fold (h (wrap16 (len - 8))). rewrite He. by eexists.
Qed.

Lemma callback_error_is_dropped_witness :
  let jr := set_pos 1 (newJPEGReader
              (bufio.ofBytes (samples.exifSegment ++ samples.DQT) EOF)
              (Some (samples.failsWith (ErrCustom 7))) None) in
  (∃ jr', scanBody jr = (Ok Continue, jr') ∧ length (calls jr') = 1%nat) ∧
  (∃ jr', jpeg_go.scanBody jr = (Ok (Return (Some (ErrCustom 7))), jr') ∧
     length (calls jr') = 1%nat).
Proof.
  intros jr.
  destruct (callback_error_is_dropped jr (samples.failsWith (ErrCustom 7))
              x00 x16 x4d x4d x00 x2a x00 x00 x00 x08
              ([x00; x00; x00; x00; x00; x00] ++ samples.DQT)
              binary.BigEndian 8 (ErrCustom 7)) as [H1 H2];
    [reflexivity..|].
  split.
  - destruct H1 as (jr' & Hs & Hc); [reflexivity|].
    exists jr'. split; [exact Hs|]. by rewrite Hc.
  - destruct H2 as (jr' & Hs & Hc); [reflexivity|].
    exists jr'. split; [exact Hs|]. by rewrite Hc.
Defined.

Lemma scanBody_skips_truncated s jr k :
  skippable s ->
  bufio.rest (br jr) = take k (encode s) ->
  (16 ≤ k < length (encode s))%nat ->
  0 < pos jr ->
  scanBody jr = (Ok Continue, skip (length (bufio.rest (br jr))) jr).
Proof.
  intros [Hs Hd] Hr Hk Hp. rewrite length_encode in Hk.
  unfold encode in Hr.
  destruct k as [|[|[|[|k]]]]; [lia..|]. cbn [app take] in Hr.
  assert (length (take k (payload s)) = k) as Hlen
    by (rewrite length_take; lia).
  assert (16 ≤ length (bufio.rest (br jr)))%nat as Hl16.
  { rewrite Hr. cbn [length]. lia. }
  assert (code s ≠ markerSOI) as Hc.
  { intros E. unfold skipped in Hs. by rewrite E in Hs. }
  unfold scanBody.
  rewrite (scanPass_marker _ _ _ _ Hr); [|cbn [length]; lia|done..].
  assert (markerLength (lookahead jr) = Ok (declared s)) as Hm.
  { rewrite (markerLength_lookahead _ _ _ _ _ _ Hr). f_equal.
    by apply declared_bytes. }
  assert (ignoreMarker (lookahead jr) jr
            = (Ok (Some (bufio.rerr (br jr))),
               skip (length (bufio.rest (br jr))) jr)) as Hi.
  { unfold ignoreMarker, bind, lift. rewrite Hm.
    apply discard_short. rewrite Hr. cbn [length]. unfold declared. lia. }
  unfold skipped in Hs. unfold scanSwitch.
  destruct (code s) eqn:Ec; try discriminate Hs.
  - (* DQT *) unfold bind. by rewrite Hi.
  - (* APP0, JFIF *)
    apply bool_decide_eq_true_1 in Hs.
    assert (isJFIFPrefix (lookahead jr) = Ok true) as Hj.
    { unfold isJFIFPrefix, substring, reslice, lookahead. rewrite Hr.
      assert (take 5 (take k (payload s)) = jfifPrefix) as Ht.
      { rewrite take_take. by replace (5 `min` k)%nat with 5%nat by lia. }
      destruct (take k (payload s)) as [|j0 [|j1 [|j2 [|j3 [|j4 p]]]]];
        try (simpl in Hlen; lia).
      simpl in *. injection Ht as -> -> -> -> ->. done. }
    unfold bind at 1, lift at 1. rewrite Hj. cbn beta iota.
    unfold bind at 1, lift at 1. cbn beta iota.
    unfold jfifHeader. rewrite Hj. cbn [res_bind]. rewrite Hm.
    unfold bind, lift.
    rewrite discard_short; [done|].
    rewrite Hr. cbn [length]. unfold declared. lia.
  - (* APP2 *)
    destruct (substring_lookahead jr 4 15) as [x Hx]; [done|lia|].
    unfold isICCProfilePrefix, bind, lift. rewrite Hx. cbn [res_bind].
    destruct (bool_decide _); by rewrite Hi.
  - (* APP13 *)
    destruct (substring_lookahead jr 4 14) as [x Hx]; [done|lia|].
    unfold isPhotoshopPrefix, bind, lift. rewrite Hx. cbn [res_bind].
    destruct (bool_decide _); by rewrite Hi.
Qed.

(** In the latest revision the error of a [discard] in a case that ends in
    [continue] is dropped: when a quantization table, a JFIF APP0, an APP2
    or an APP13 segment is cut short by the end of the stream, the stream's
    error is lost, the next lookahead fails, and [ScanJPEG] returns
    [ErrNoJPEGMarker] with the stream used up. *)
Theorem truncated_segment_gives_NoJPEGMarker r E X n jr s k :
  after scanBody n (newJPEGReader r E X) = Some jr ->
  skippable s ->
  bufio.rest (br jr) = take k (encode s) ->
  (16 ≤ k < length (encode s))%nat ->
  0 < pos jr ->
  ∃ jr', ScanJPEG r E X = Some (Ok (Some ErrNoJPEGMarker), jr') ∧
    bufio.rest (br jr') = [].
Proof.
  intros Ha Hs Hr Hk Hp.
  pose proof (scanBody_skips_truncated s jr k Hs Hr Hk Hp) as Hb.
  set (jr1 := skip (length (bufio.rest (br jr))) jr) in *.
  assert (bufio.rest (br jr1) = []) as Hr1.
  { unfold jr1. rewrite rest_skip. by rewrite drop_all. }
  exists jr1. split; [|done].
  unfold ScanJPEG. eapply (scan_after _ _ _ _ (n + 1)).
  - intros ??. apply scanPass_progress, progressing_scanSwitch.
  - instantiate (1 := jr1). clear -Ha Hb.
    revert Ha. generalize (newJPEGReader r E X). induction n as [|n IH];
      intros jr0; simpl.
    + intros [= ->]. by rewrite Hb.
    + destruct (scanBody jr0) as [[[|err]|v] jr2]; [|done..]. apply IH.
  - apply scanPass_short. rewrite Hr1. simpl. lia.
Qed.

Lemma truncated_segment_gives_NoJPEGMarker_witness :
  let r := bufio.ofBytes (samples.SOI ++ take 40 samples.DQT) (ErrCustom 5) in
  ∃ jr', ScanJPEG r None None = Some (Ok (Some ErrNoJPEGMarker), jr') ∧
    bufio.rest (br jr') = [].
Proof.
  intros r.
  eapply (truncated_segment_gives_NoJPEGMarker r None None 1%nat _
            samples.dqt 40%nat).
  - vm_compute. reflexivity.
  - split; reflexivity.
  - reflexivity.
  - vm_compute. lia.
  - vm_compute. reflexivity.
Defined.

(** ** An XMP segment in the scan *)

(** In the latest revision, when a pass of the loop stands at an XMP APP1
    segment and the reader's buffer holds the 29-byte signature behind the
    lookahead window, the XMP callback is invoked once, on the packet and
    nothing else; whatever it returns, short of a panic, the pass ends in
    [continue]: an error of the callback is dropped.  When it returned
    [nil] the scan goes on right behind the segment. *)
Theorem XMP_segment_in_scan jr f hi lo packet tl :
  XMPReader jr = Some f ->
  bufio.rest (br jr) =
    ([xff; markerAPP1; hi; lo] ++ xmpPrefix ++ packet ++ tl)%list ->
  b2z lo + b2z hi * 256 = Z.of_nat (length packet) + 31 ->
  0 < pos jr ->
  take 29 (drop 4 (reach jr)) = xmpPrefix ->
  let out := f packet in
  let k := Nat.min (cbRead out) (length packet) in
  ∃ jr', scanBody jr =
           (match cbOut out with
            | Ok _ => Ok Continue
            | Panic v => Panic v
            end, jr') ∧
    calls jr' = (calls jr ++ [CallXMP packet])%list ∧
    bufio.rest (br jr') =
      match cbOut out with
      | Ok None => tl
      | _ => (drop k packet ++ tl)%list
      end.
Proof.
  intros Hf Hr Hlen Hp Hx out k.
  destruct (readXMP_packet (lookahead jr) jr f
              ([xff; markerAPP1; hi; lo] ++ xmpPrefix) packet tl)
    as (jr' & Hrd & Hc & Hrest & _); [done| |by rewrite <- app_assoc|done|].
  { cbn [app] in Hr. rewrite (markerLength_lookahead _ _ _ _ _ _ Hr).
    by rewrite Hlen. }
  fold out in Hrd, Hrest. fold k in Hrest.
  exists jr'. split_and!; [|done..].
  assert (29 ≤ length (drop 4 (reach jr)))%nat as Hl.
  { apply (f_equal length) in Hx. rewrite length_take in Hx.
    change (length xmpPrefix) with 29%nat in Hx. lia. }
  rewrite length_drop in Hl.
  assert (take 6 (drop 4 (reach jr)) ≠ exifPrefix) as He.
  { apply (f_equal (take 6)) in Hx. rewrite take_take in Hx.
    change (6 `min` 29)%nat with 6%nat in Hx. rewrite Hx. discriminate. }
  cbn [app] in Hr. unfold scanBody.
  rewrite (scanPass_marker _ _ _ _ Hr);
    [|cbn [length]; rewrite !length_app; change (length xmpPrefix) with 29%nat;
      lia|done..].
  unfold scanSwitch, readAPP1, isExifPrefix, isXMPPrefix.
  rewrite !substring_reach. rewrite !decide_True by lia.
  change (10 - 4)%nat with 6%nat. change (33 - 4)%nat with 29%nat.
  unfold bind at 1. unfold bind at 1, lift at 1. cbn [res_bind].
  rewrite (bool_decide_eq_false_2 _ He).
  unfold bind at 1, lift at 1. cbn [res_bind].
  rewrite (bool_decide_eq_true_2 _ Hx). rewrite Hrd.
  by destruct (cbOut out).
Qed.

Lemma XMP_segment_in_scan_witness :
  let jr := set_pos 1 (newJPEGReader
              (bufio.ofBytes (samples.xmpSegment ++ samples.DQT) EOF)
              None (Some samples.readsFive)) in
  ∃ jr', scanBody jr = (Ok Continue, jr') ∧
    calls jr' = [CallXMP samples.xmpPacket] ∧
    bufio.rest (br jr') = samples.DQT.
Proof.
  intros jr.
  apply (XMP_segment_in_scan jr samples.readsFive x00 x2b
           samples.xmpPacket samples.DQT); reflexivity.
Defined.

(** ** The nesting counter *)

Lemma after_SOIs switch k : ∀ jr s,
  bufio.rest (br jr) = (concat (replicate k [xff; markerSOI]) ++ s)%list ->
  (16 ≤ length s)%nat ->
  0 ≤ pos jr < 256 ->
  ∃ jr', after (scanPass switch) k jr = Some jr' ∧
    bufio.rest (br jr') = s ∧
    pos jr' = wrap8 (pos jr + Z.of_nat k) ∧
    calls jr' = calls jr ∧ sof jr' = sof jr.
Proof.
  induction k as [|k IH]; intros jr s Hr Hl Hp.
  { exists jr. split_and!; try done. rewrite Z.add_0_r. unfold wrap8.
    by rewrite Z.mod_small. }
  cbn [replicate concat app] in Hr.
  assert (scanPass switch jr
            = (Ok Continue, skip 2 (set_pos (wrap8 (pos jr + 1)) jr))) as Hs.
  { eapply scanPass_SOI; [exact Hr|]. rewrite length_app. lia. }
  destruct (IH (skip 2 (set_pos (wrap8 (pos jr + 1)) jr)) s)
    as (jr' & Ha & Hrest & Hpos & Hc & Hsof); [|done| |].
  { rewrite rest_skip.
    change (bufio.rest (br (set_pos (wrap8 (pos jr + 1)) jr)))
      with (bufio.rest (br jr)). by rewrite Hr. }
  { cbn [pos skip set_discarded set_br set_pos]. apply Z.mod_pos_bound. lia. }
  exists jr'. split; [simpl; by rewrite Hs|]. split_and!; [done| |done..].
  rewrite Hpos. cbn [pos skip set_discarded set_br set_pos].
  unfold wrap8. rewrite Zplus_mod_idemp_l. f_equal. lia.
Qed.

(** The nesting counter counts SOI markers, as a [uint8]: [k] SOI markers
    in a row, with a full lookahead window behind them, take [k] passes
    and raise the counter by [k] modulo 256 (so that 256 of them bring it
    back to where it was); no callback is invoked and the image-size
    record is untouched.  The same in the earlier revision. *)
Theorem SOI_markers_are_counted jr k s :
  bufio.rest (br jr) = (concat (replicate k [xff; markerSOI]) ++ s)%list ->
  (16 ≤ length s)%nat ->
  0 ≤ pos jr < 256 ->
  (∃ jr', after scanBody k jr = Some jr' ∧ bufio.rest (br jr') = s ∧
     pos jr' = wrap8 (pos jr + Z.of_nat k) ∧
     calls jr' = calls jr ∧ sof jr' = sof jr) ∧
  (∃ jr', after jpeg_go.scanBody k jr = Some jr' ∧ bufio.rest (br jr') = s ∧
     pos jr' = wrap8 (pos jr + Z.of_nat k) ∧
     calls jr' = calls jr ∧ sof jr' = sof jr).
Proof.
  intros Hr Hl Hp. split.
  - apply (after_SOIs scanSwitch k jr s Hr Hl Hp).
  - apply (after_SOIs jpeg_go.scanSwitch k jr s Hr Hl Hp).
Qed.

Lemma SOI_markers_are_counted_witness :
  let jr := newJPEGReader
              (bufio.ofBytes (samples.SOI ++ samples.SOI ++ samples.SOF0
                                ++ samples.DHT) EOF) None None in
  ∃ jr', after scanBody 2 jr = Some jr' ∧
    bufio.rest (br jr') = (samples.SOF0 ++ samples.DHT)%list ∧
    pos jr' = 2 ∧ calls jr' = [] ∧ sof jr' = mkSofHeader 0 0 0.
Proof.
  intros jr.
  apply (SOI_markers_are_counted jr 2 (samples.SOF0 ++ samples.DHT));
    [reflexivity|vm_compute; lia|by vm_compute].
Defined.

(** ** An Exif segment behind skipped segments *)

Lemma after_carries I body n :
  preserves (carries I) body ->
  ∀ jr jr', I jr -> after body n jr = Some jr' -> I jr'.
Proof.
  intros Hb. induction n as [|n IH]; intros jr jr' Hi; simpl.
  { by intros [= <-]. }
  pose proof (Hb jr Hi) as H.
  destruct (body jr) as [[[|err]|v] jr1]; [|done..]. by apply IH.
Qed.

(** In the latest revision, on a stream that opens with SOI and goes on
    with any number of segments the scanner skips (quantization tables, a
    JFIF APP0, APP2, APP13) and then an Exif APP1 segment, the scan reaches
    the Exif segment and invokes the Exif callback, once and as the first
    callback, on the reader standing at the TIFF block, with a header whose
    origin is the TIFF block's offset in the stream; unless the callback
    panics the pass ends in [continue]. *)
Theorem exif_behind_skipped_segments
    e slack f X segs hi lo t0 t1 t2 t3 t4 t5 t6 t7 tl o off :
  Forall skippable segs ->
  meta.BinaryOrder (ofBytes [t0; t1; t2; t3; t4; t5; t6; t7]) = Ok (Some o) ->
  binary.Uint32 o (ofBytes [t4; t5; t6; t7]) = Ok off ->
  let tiff := ([t0; t1; t2; t3; t4; t5; t6; t7] ++ tl)%list in
  let exif := ([xff; markerAPP1; hi; lo] ++ exifPrefix ++ tiff)%list in
  let r := bufio.mkReader 0
             ([xff; markerSOI] ++ concat (map encode segs) ++ exif) e slack in
  let origin := 2 + Z.of_nat (length (concat (map encode segs))) + 10 in
  let h := meta.NewExifHeader o off (wrap32 origin)
             (wrap32 (b2z lo + b2z hi * 256 - 8)) imagetype.ImageJPEG in
  ∃ jr jr',
    after scanBody (S (length segs)) (newJPEGReader r (Some f) X) = Some jr ∧
    bufio.rest (br jr) = exif ∧
    scanBody jr =
      (match cbOut (f tiff h) with
       | Ok _ => Ok Continue
       | Panic v => Panic v
       end, jr') ∧
    calls jr' = [CallExif tiff h].
Proof.
  intros Hsegs Ho Hoff tiff exif r origin h.
  set (jr0 := newJPEGReader r (Some f) X).
  set (jr1 := skip 2 (set_pos (wrap8 (pos jr0 + 1)) jr0)).
  assert (16 ≤ length exif)%nat as Hl.
  { unfold exif, tiff. rewrite !length_app. simpl. lia. }
  assert (scanBody jr0 = (Ok Continue, jr1)) as H1.
  { apply (scanPass_SOI _ _ (concat (map encode segs) ++ exif)); [done|].
    rewrite length_app. lia. }
  destruct (after_skips segs jr1 exif Hsegs)
    as (jr2 & Ha & Hrest & Hpos & Hcalls); [done..|].
  assert (bufio.rest (br jr2) = exif) as Hr2.
  { rewrite Hrest. change (bufio.rest (br jr1))
      with (concat (map encode segs) ++ exif)%list.
    by rewrite drop_app_length. }
  assert (after scanBody (S (length segs)) jr0 = Some jr2) as Ha0.
  { simpl. by rewrite H1. }
  assert (discarded jr2 = wrap32 (origin - 10)) as Hd.
  { pose proof (after_carries
                  (accountedAtFirst (length (bufio.rest r))) scanBody
                  (S (length segs))
                  (first_scanPass (length (bufio.rest r)) scanSwitch
                     (first_scanSwitch (length (bufio.rest r))))
                  jr0 jr2) as Hinv.
    unfold accountedAtFirst in Hinv at 2.
    rewrite Hcalls in Hinv. change (calls jr1) with (@nil call) in Hinv.
    unfold counted in Hinv. rewrite Hinv; [|..|exact Ha0].
    - f_equal. rewrite Hr2. unfold r, origin. cbn [bufio.rest].
      rewrite !length_app. cbn [length]. lia.
    - unfold accountedAtFirst, counted. simpl. by rewrite Z.sub_diag. }
  assert (ExifReader jr2 = Some f) as Hf.
  { pose proof (after_carries (fun jr => ExifReader jr = Some f) scanBody
                  (S (length segs))) as Hk.
    apply (Hk (fun jr Hi => eq_trans (fw_exif _ _ (forward_scanBody jr)) Hi)
              jr0 jr2); done. }
  destruct (readExif_callback jr2 f hi lo t0 t1 t2 t3 t4 t5 t6 t7 tl o
              Hf Hr2 Ho off Hoff) as [Hrd _].
  rewrite discarded_skip, Hd, wrap32_add_l in Hrd.
  replace (origin - 10 + Z.of_nat 10) with origin in Hrd by lia.
  change exifPrefixLength with 8 in Hrd. fold h in Hrd.
  exists jr2, (callExif f h (skip 10 jr2)).2. split_and!; [done..| |].
  - unfold exif in Hr2.
    change exifPrefix with [x45; x78; x69; x66; x00; x00] in Hr2.
    cbn [app] in Hr2. unfold scanBody.
    rewrite (scanPass_marker _ _ _ _ Hr2);
      [|unfold tiff; cbn [length app]; lia|done|by rewrite Hpos].
    unfold scanSwitch, readAPP1.
    assert (isExifPrefix (lookahead jr2) = Ok true) as ->.
    { unfold isExifPrefix, substring, reslice, lookahead. by rewrite Hr2. }
    unfold bind at 1. unfold bind at 1, lift at 1. cbn beta iota.
    rewrite Hrd. unfold callExif.
    assert (bufio.rest (br (skip 10 jr2)) = tiff) as ->
      by (by rewrite rest_skip, Hr2).
    by destruct (cbOut (f tiff h)).
  - unfold callExif. cbn [snd calls add_call].
    assert (bufio.rest (br (skip 10 jr2)) = tiff) as ->.
    { rewrite rest_skip, Hr2. done. }
    change (calls (set_br _ (skip 10 jr2))) with (calls jr2).
    by rewrite Hcalls.
Qed.

Lemma exif_behind_skipped_segments_witness :
  let r := bufio.mkReader 0
             ([xff; markerSOI] ++ concat (map encode [samples.dqt])
                ++ samples.exifSegment ++ samples.DQT) EOF (fun _ _ => []) in
  let h := meta.NewExifHeader binary.BigEndian 8 81 14 imagetype.ImageJPEG in
  ∃ jr jr',
    after scanBody 2 (newJPEGReader r (Some samples.notesHeader) None)
      = Some jr ∧
    bufio.rest (br jr) = (samples.exifSegment ++ samples.DQT)%list ∧
    scanBody jr = (Ok Continue, jr') ∧
    calls jr' = [CallExif (samples.tiffBlock ++ samples.DQT) h].
Proof.
  intros r h.
  apply (exif_behind_skipped_segments EOF (fun _ _ => [])
           samples.notesHeader None [samples.dqt]
           x00 x16 x4d x4d x00 x2a x00 x00 x00 x08
           ([x00; x00; x00; x00; x00; x00] ++ samples.DQT)
           binary.BigEndian 8).
  - apply Forall_cons_2; [|apply Forall_nil_2]. split; reflexivity.
  - reflexivity.
  - reflexivity.
Defined.


(** * Further properties of the accessors *)

(** [GetTagValue] returns [nil] for the tag types outside its seven cases
    and for no other: for an ASCII, byte, short, long or rational tag it
    returns a value of the type's kind even when the decoder reports an
    error.  The decoders' errors are dropped: the result is the same as
    with decoders that never fail. *)
Theorem GetTagValue_drops_decoder_errors
    (ParseASCIIValue : exif.Data -> tag.Tag -> list byte * option error)
    (ParseUint16Value : exif.Data -> tag.Tag -> Z * option error)
    (ParseUint16Values : exif.Data -> tag.Tag -> list Z * option error)
    (ParseUint32Value : exif.Data -> tag.Tag -> Z * option error)
    (ParseUint32Values : exif.Data -> tag.Tag -> list Z * option error)
    (ParseRationalValues ParseSRationalValues :
       exif.Data -> tag.Tag -> list (Z * Z) * option error)
    (e : exif.Data) (t : tag.Tag) :
  let GetTagValue :=
    exif.GetTagValue ParseASCIIValue ParseUint16Value ParseUint16Values
      ParseUint32Value ParseUint32Values ParseRationalValues
      ParseSRationalValues in
  let unfailing {A} (p : exif.Data -> tag.Tag -> A * option error) :=
    fun e t => ((p e t).1, @None error) in
  (GetTagValue e t = exif.VNil ↔
     tag.type t ∉ [tag.TypeASCII; tag.TypeASCIINoNul; tag.TypeByte;
                   tag.TypeShort; tag.TypeLong; tag.TypeRational;
                   tag.TypeSignedRational]) ∧
  GetTagValue e t =
    exif.GetTagValue (unfailing ParseASCIIValue) (unfailing ParseUint16Value)
      (unfailing ParseUint16Values) (unfailing ParseUint32Value)
      (unfailing ParseUint32Values) (unfailing ParseRationalValues)
      (unfailing ParseSRationalValues) e t.
Proof.
  intros GetTagValue unfailing. split.
  - unfold GetTagValue, exif.GetTagValue. split.
    + intros Hv Hin.
      destruct (tag.type t); try done;
        repeat (apply elem_of_cons in Hin as [Hin|Hin]; [discriminate Hin|]);
        try (by apply elem_of_nil in Hin);
        try (destruct (ParseASCIIValue e t) as [s err]);
        repeat case_match; done.
    + intros Hn.
      destruct (tag.type t); try done; exfalso; apply Hn;
        repeat first [by apply list_elem_of_here | apply list_elem_of_further].
  - unfold GetTagValue, exif.GetTagValue, unfailing.
    destruct (tag.type t); try done.
    all: by destruct (ParseASCIIValue e t) as [s err].
Qed.


(** * The older package jpegmeta *)

Section Jpegmeta.
Context (Header : Type) (NewHeader : binary.ByteOrder -> Z -> Z -> Z -> Header).
Context (BinaryOrder : slice -> res (option binary.ByteOrder)).
Context (isXMPPrefix isJpegExifPrefix : slice -> res bool).
Context (exifPrefixLength xmpPrefixLength : Z) (chunk : nat -> nat).

Implicit Types m : jpegmeta.Metadata Header.

Lemma jpegmeta_advance_advance a b r :
  bufio.advance b (bufio.advance a r) = bufio.advance (a + b) r.
Proof.
  unfold bufio.advance. simpl. by rewrite drop_drop, Nat.add_assoc.
Qed.

Lemma jpegmeta_discard_outcome i m :
  0 ≤ i ->
  let k := Nat.min (Z.to_nat i) (length (bufio.rest (jpegmeta.br m))) in
  jpegmeta.discard i m =
    (if i <=? Z.of_nat (length (bufio.rest (jpegmeta.br m))) then None
     else Some (bufio.rerr (jpegmeta.br m)),
     jpegmeta.set_discarded
       (wrap32 (jpegmeta.discarded m + Z.of_nat k))
       (jpegmeta.set_br (bufio.advance k (jpegmeta.br m)) m)).
Proof.
  intros Hi k. unfold jpegmeta.discard, bufio.Discard.
  destruct (Z.ltb_spec i 0); [lia|].
  destruct (Z.eqb_spec i 0) as [->|Hn].
  - replace k with 0%nat by (unfold k; lia). rewrite advance_0.
    destruct (Z.leb_spec 0 (Z.of_nat (length (bufio.rest (jpegmeta.br m)))));
      [|lia].
    by rewrite wrap32_wrap32.
  - destruct (Z.leb_spec i (Z.of_nat (length (bufio.rest (jpegmeta.br m))))).
    + replace k with (Z.to_nat i) by lia. rewrite wrap32_wrap32.
      by rewrite Z2Nat.id by lia.
    + replace k with (length (bufio.rest (jpegmeta.br m))) by lia.
      by rewrite wrap32_wrap32.
Qed.

(** The loop of [readXMP] delivers the bytes asked for when they are
    there, whatever the sizes of the single reads. *)
Lemma fill_enough fuel : ∀ missing got r,
  (missing ≤ fuel)%nat -> (missing ≤ length (bufio.rest r))%nat ->
  jpegmeta.fill chunk fuel missing got r =
    Some ((got ++ take missing (bufio.rest r), None)%list,
          bufio.advance missing r).
Proof.
  induction fuel as [|fuel IH]; intros missing got r Hf Hl.
  { destruct missing; [|lia]. simpl.
    by rewrite take_0, app_nil_r, advance_0. }
  destruct missing as [|k].
  { simpl. by rewrite take_0, app_nil_r, advance_0. }
  cbn [jpegmeta.fill]. unfold bufio.Read.
  destruct (bufio.rest r) as [|x l] eqn:Er; [simpl in Hl; lia|].
  rewrite <- Er in *.
  set (n := (S k `min` (1 `max` (chunk (bufio.off r)
                `min` length (bufio.rest r))))%nat).
  assert (1 ≤ n ≤ S k)%nat as Hn by (unfold n; lia).
  rewrite length_take_le by lia.
  rewrite IH; [|lia|simpl; rewrite length_drop; lia].
  rewrite jpegmeta_advance_advance. cbn [bufio.rest bufio.advance].
  replace (n + (S k - n))%nat with (S k) by lia.
  do 3 f_equal. rewrite <- app_assoc. f_equal.
  rewrite <- (take_drop n (bufio.rest r)) at 3.
  rewrite take_app_ge by (rewrite length_take; lia).
  rewrite length_take_le by lia. done.
Qed.

(** It ends with the reader's error, the stream used up, when they are
    not. *)
Lemma fill_short fuel : ∀ missing got r,
  (missing ≤ fuel)%nat -> (length (bufio.rest r) < missing)%nat ->
  ∃ got' r', jpegmeta.fill chunk fuel missing got r =
               Some ((got', Some (bufio.rerr r)), r') ∧
    bufio.rest r' = [].
Proof.
  induction fuel as [|fuel IH]; intros missing got r Hf Hl; [lia|].
  destruct missing as [|k]; [lia|].
  cbn [jpegmeta.fill]. unfold bufio.Read.
  destruct (bufio.rest r) as [|x l] eqn:Er.
  { by exists got, r. }
  rewrite <- Er in *.
  assert (1 ≤ length (bufio.rest r))%nat by (rewrite Er; simpl; lia).
  set (n := (S k `min` (1 `max` (chunk (bufio.off r)
                `min` length (bufio.rest r))))%nat).
  assert (1 ≤ n ≤ length (bufio.rest r))%nat as Hn by (unfold n; lia).
  rewrite length_take_le by lia.
  destruct (IH (S k - n)%nat (got ++ take n (bufio.rest r))%list
              (bufio.advance n r)) as (got' & r' & Hfill & Hr');
    [lia|simpl; rewrite length_drop; lia|].
  exists got', r'. by rewrite Hfill.
Qed.

(** [readXMP] of the older package discards the marker, the length and the
    signature and reads the rest of the segment, by its declared length,
    into the object: afterwards [XML] is the packet and the stream stands
    right behind the segment, whatever the sizes of the single reads.  The
    packet is read, not discarded: the count of discarded bytes does not
    include it.  When the stream ends inside the packet the reader's error
    comes back and [XML] is what it was.  A declared length smaller than
    framing and signature makes [make] panic. *)
Theorem jpegmeta_readXMP_stores_packet buf m len head body :
  jpegmeta.segmentLength buf = Ok len ->
  bufio.rest (jpegmeta.br m) = (head ++ body)%list ->
  Z.of_nat (length head) = 4 + xmpPrefixLength ->
  let n := len - 2 - xmpPrefixLength in
  (0 ≤ n ->
   ∃ m', jpegmeta.readXMP xmpPrefixLength chunk buf m =
           Some (Ok (if n <=? Z.of_nat (length body) then None
                     else Some (bufio.rerr (jpegmeta.br m))), m') ∧
     jpegmeta.XML m' =
       (if n <=? Z.of_nat (length body) then take (Z.to_nat n) body
        else jpegmeta.XML m) ∧
     bufio.rest (jpegmeta.br m') = drop (Z.to_nat n) body ∧
     jpegmeta.discarded m' =
       wrap32 (jpegmeta.discarded m + 4 + xmpPrefixLength)) ∧
  (n < 0 ->
   ∃ m', jpegmeta.readXMP xmpPrefixLength chunk buf m =
           Some (Panic jpegmeta.makesliceOutOfRange, m') ∧
     bufio.rest (jpegmeta.br m') = body).
Proof.
  intros Hlen Hr Hh n.
  assert (0 ≤ 4 + xmpPrefixLength) as H0 by lia.
  pose proof (jpegmeta_discard_outcome (4 + xmpPrefixLength) m H0) as Hd.
  cbv zeta in Hd. rewrite Hr, length_app in Hd.
  replace (Z.to_nat (4 + xmpPrefixLength)) with (length head) in Hd by lia.
  replace (length head `min` (length head + length body))%nat
    with (length head) in Hd by lia.
  destruct (Z.leb_spec (4 + xmpPrefixLength)
              (Z.of_nat (length head + length body))) as [_|]; [|lia].
  set (m1 := jpegmeta.set_discarded _ _) in Hd.
  assert (bufio.rest (jpegmeta.br m1) = body) as Hr1.
  { unfold m1. simpl. by rewrite Hr, drop_app_length. }
  unfold jpegmeta.readXMP. rewrite Hlen, Hd. fold n.
  split; intros Hn.
  - destruct (Z.ltb_spec n 0); [lia|].
    destruct (Z.leb_spec n (Z.of_nat (length body))) as [Hle|Hgt].
    + rewrite fill_enough by (rewrite ?Hr1; lia).
      eexists. split; [reflexivity|]. rewrite Hr1. split_and!; [done| |].
      * simpl. by rewrite Hr, drop_app_length.
      * simpl. f_equal. lia.
    + destruct (fill_short (Z.to_nat n) (Z.to_nat n) [] (jpegmeta.br m1))
        as (got' & r' & -> & Hr'); [lia|rewrite Hr1; lia|].
      eexists. split; [reflexivity|]. split_and!; [done| |].
      * simpl. rewrite Hr'. by rewrite drop_ge by lia.
      * simpl. f_equal. lia.
  - destruct (Z.ltb_spec n 0); [|lia]. by eexists.
Qed.

(** [readAPP1] of the older package, at an Exif segment: it discards the
    marker, the length and the signature, reads byte order and first-IFD
    offset from the TIFF header it peeks, stores a header whose origin is
    the count of discarded bytes at the TIFF block, and then, unlike the
    scanner with a callback, always discards the payload by its length, a
    [uint16]: the stream stands right behind the segment, or is used up
    with the reader's error when the segment is cut short. *)
Theorem jpegmeta_readAPP1_stores_header_and_skips buf m len head body o off :
  isXMPPrefix buf = Ok false -> isJpegExifPrefix buf = Ok true ->
  jpegmeta.segmentLength buf = Ok len ->
  8 ≤ exifPrefixLength ->
  bufio.rest (jpegmeta.br m) = (head ++ body)%list ->
  Z.of_nat (length head) = 2 + exifPrefixLength ->
  exifPrefixLength ≤ Z.of_nat (length body) ->
  let peeked :=
    (bufio.Peek (bufio.advance (length head) (jpegmeta.br m))
                (Z.to_nat exifPrefixLength)).1 in
  BinaryOrder peeked = Ok (Some o) ->
  res_bind (reslice peeked 4 8) (binary.Uint32 o) = Ok off ->
  let n := wrap16 (len - exifPrefixLength) in
  ∃ m', jpegmeta.readAPP1 NewHeader BinaryOrder isXMPPrefix isJpegExifPrefix
          exifPrefixLength xmpPrefixLength chunk buf m =
          Some (Ok (if n <=? Z.of_nat (length body) then None
                    else Some (bufio.rerr (jpegmeta.br m))), m') ∧
    jpegmeta.TiffHeader m' =
      NewHeader o off (wrap32 (jpegmeta.discarded m + 2 + exifPrefixLength))
                (wrap32 n) ∧
    bufio.rest (jpegmeta.br m') = drop (Z.to_nat n) body ∧
    jpegmeta.XML m' = jpegmeta.XML m ∧ jpegmeta.Size m' = jpegmeta.Size m.
Proof.
  intros Hx He Hlen Hp Hr Hh Hb peeked Hbo Hoff n.
  assert (0 ≤ 2 + exifPrefixLength) as H0 by lia.
  pose proof (jpegmeta_discard_outcome (2 + exifPrefixLength) m H0) as Hd.
  cbv zeta in Hd. rewrite Hr, length_app in Hd.
  replace (Z.to_nat (2 + exifPrefixLength)) with (length head) in Hd by lia.
  replace (length head `min` (length head + length body))%nat
    with (length head) in Hd by lia.
  destruct (Z.leb_spec (2 + exifPrefixLength)
              (Z.of_nat (length head + length body))) as [_|]; [|lia].
  set (m1 := jpegmeta.set_discarded _ _) in Hd.
  assert (bufio.rest (jpegmeta.br m1) = body) as Hr1.
  { unfold m1. simpl. by rewrite Hr, drop_app_length. }
  assert (bufio.Peek (jpegmeta.br m1) (Z.to_nat exifPrefixLength)
            = (peeked, None)) as Hpeek.
  { unfold peeked, bufio.Peek. change (jpegmeta.br m1)
      with (bufio.advance (length head) (jpegmeta.br m)).
    rewrite decide_True; [done|].
    change (bufio.rest (bufio.advance (length head) (jpegmeta.br m)))
      with (bufio.rest (jpegmeta.br m1)). rewrite Hr1. lia. }
  unfold jpegmeta.readAPP1. rewrite Hx, He, Hlen, Hd, Hpeek, Hbo.
  unfold res_bind in Hoff. destruct (reslice peeked 4 8) as [b48|]; [|done].
  rewrite Hoff. fold n.
  assert (0 ≤ n) as Hn by (apply Z.mod_pos_bound; lia).
  set (m2 := jpegmeta.setTiffHeader _ m1).
  pose proof (jpegmeta_discard_outcome n m2 Hn) as Hd2. cbv zeta in Hd2.
  change (jpegmeta.br m2) with (jpegmeta.br m1) in Hd2.
  rewrite Hr1 in Hd2. rewrite Hd2.
  change (bufio.rerr (jpegmeta.br m1)) with (bufio.rerr (jpegmeta.br m)).
  eexists. split; [reflexivity|]. split_and!; [| |done..].
  - simpl. f_equal. f_equal. lia.
  - cbn [jpegmeta.br jpegmeta.set_discarded jpegmeta.set_br bufio.rest
         bufio.advance].
    change (jpegmeta.br m2) with (jpegmeta.br m1). rewrite Hr1.
    destruct (decide (Z.to_nat n ≤ length body)%nat).
    + by rewrite Nat.min_l by lia.
    + rewrite Nat.min_r by lia. by rewrite !drop_ge by lia.
Qed.

(** [readSOF] and [Size]: at nesting 1 the frame header read from the
    window is what [Size] returns afterwards, width first; at any other
    nesting [Size] is what it was.  The rest of the object but reader and
    count is untouched either way. *)
Theorem jpegmeta_readSOF_then_Size buf m b0 b1 l1 l0 p h1 h0 w1 w0 c tl :
  vis buf = b0 :: b1 :: l1 :: l0 :: p :: h1 :: h0 :: w1 :: w0 :: c :: tl ->
  ∃ err m', jpegmeta.readSOF buf m = (Ok err, m') ∧
    jpegmeta.Size m' =
      (if jpegmeta.pos m =? 1
       then (b2z w0 + b2z w1 * 256, b2z h0 + b2z h1 * 256)
       else jpegmeta.Size m) ∧
    jpegmeta.XML m' = jpegmeta.XML m ∧
    jpegmeta.TiffHeader m' = jpegmeta.TiffHeader m.
Proof.
  intros Hv. unfold jpegmeta.readSOF, jpegmeta.segmentLength, reslice, index.
  rewrite !decide_True by (rewrite length_app, Hv; simpl; lia).
  rewrite Hv. cbn -[jpegmeta.discard Z.add Z.mul b2z Z.eqb].
  destruct (jpegmeta.pos m =? 1);
    match goal with
    | |- context [jpegmeta.discard ?i ?x] =>
        destruct (jpegmeta.discard i x) as [err m'] eqn:Ed
    end;
    exists err, m'; (split; [done|]);
    unfold jpegmeta.discard in Ed;
    destruct (bufio.Discard _ _) as [[k e] r']; by injection Ed as <- <-.
Qed.

End Jpegmeta.

Lemma jpegmeta_readXMP_stores_packet_witness :
  let m := @jpegmeta.newMetadata unit tt
             (bufio.ofBytes (samples.xmpSegment ++ samples.DQT) EOF) in
  ∃ m', jpegmeta.readXMP 29 (fun _ => 5%nat) (ofBytes (take 16 samples.xmpSegment)) m
          = Some (Ok None, m') ∧
    jpegmeta.XML m' = samples.xmpPacket ∧
    bufio.rest (jpegmeta.br m') = samples.DQT ∧
    jpegmeta.discarded m' = 33.
Proof.
  intros m.
  destruct (jpegmeta_readXMP_stores_packet unit 29 (fun _ => 5%nat)
              (ofBytes (take 16 samples.xmpSegment)) m 43
              (take 33 samples.xmpSegment)
              (samples.xmpPacket ++ samples.DQT)) as [H _];
    [reflexivity..|].
  destruct H as (m' & Hr & Hx & Hrest & Hd); [lia|].
  exists m'. split_and!; [exact Hr|exact Hx|exact Hrest|exact Hd].
Defined.

Lemma jpegmeta_readAPP1_stores_header_and_skips_witness :
  let m := @jpegmeta.newMetadata (binary.ByteOrder * Z * Z * Z)
             (binary.BigEndian, 0, 0, 0)
             (bufio.ofBytes (samples.exifSegment ++ samples.DQT) EOF) in
  let NewHeader o a b c := (o, a, b, c) in
  ∃ m', jpegmeta.readAPP1 NewHeader meta.BinaryOrder jpeg_go.isXMPPrefix
          jpeg_go.isJpegExifPrefix 8 29 (fun _ => 5%nat)
          (ofBytes (take 16 samples.exifSegment)) m = Some (Ok None, m') ∧
    jpegmeta.TiffHeader m' = (binary.BigEndian, 8, 10, 14) ∧
    bufio.rest (jpegmeta.br m') = samples.DQT ∧
    jpegmeta.XML m' = [] ∧ jpegmeta.Size m' = (0, 0).
Proof.
  intros m NewHeader.
  apply (jpegmeta_readAPP1_stores_header_and_skips _ NewHeader
           meta.BinaryOrder jpeg_go.isXMPPrefix jpeg_go.isJpegExifPrefix
           8 29 (fun _ => 5%nat) (ofBytes (take 16 samples.exifSegment)) m 22
           (take 10 samples.exifSegment) (samples.tiffBlock ++ samples.DQT)
           binary.BigEndian 8);
    [reflexivity|reflexivity|reflexivity|lia|reflexivity|reflexivity|
     vm_compute; discriminate|reflexivity|reflexivity].
Defined.

Lemma jpegmeta_readSOF_then_Size_witness :
  let m := jpegmeta.mkMetadata (jpegmeta.mkSOFHeader 0 0 0) [] tt []
             (bufio.ofBytes (samples.SOF0 ++ samples.DHT) EOF) 0 1 in
  ∃ err m', jpegmeta.readSOF (ofBytes (take 16 (samples.SOF0 ++ samples.DHT)))
              m = (Ok err, m') ∧
    jpegmeta.Size m' = (32, 16) ∧
    jpegmeta.XML m' = [] ∧ jpegmeta.TiffHeader m' = tt.
Proof.
  intros m.
  apply (jpegmeta_readSOF_then_Size unit
           (ofBytes (take 16 (samples.SOF0 ++ samples.DHT))) m
           xff xc0 x00 x0b x08 x00 x10 x00 x20 x01 [x01; x11; x00; xff; xc4; x00]).
  reflexivity.
Defined.
